(** * Frame de-duplication filter and bounded batch-analysis pipeline

    A shallow embedding of the capture pipeline of the carbon-footprint
    tracker: the perceptual hash ([lib/phash.ts]), the check-image endpoint,
    the analyze-grid endpoint with its two analyzers, the client-side
    analysis queue of the continuous capture session and the bounded capture
    session.  JavaScript numbers are IEEE-754 binary64 values, modelled by
    Rocq's primitive floats; every [await] of the source is a point where the
    model returns, so that other activations can be interleaved. *)

From Stdlib Require Import ZArith List Lia Bool Arith String Ascii Floats Uint63.
From Stdlib Require Import DecimalString Permutation Sorted.
Import ListNotations.

Set Implicit Arguments.
#[local] Set Warnings "-inexact-float".

(* ===================================================================== *)
(** ** JavaScript numbers *)
(* ===================================================================== *)

Module JS.

Open Scope float_scope.

(** A small non-negative integer as a JavaScript number. *)
Definition numZ (z : Z) : float := PrimFloat.of_uint63 (Uint63.of_Z z).
Definition num (n : nat) : float := numZ (Z.of_nat n).

(** An integer of either sign (of magnitude below 2^63) as a JavaScript
    number, as a difference of two readings of [Date.now()] is. *)
Definition num_int (z : Z) : float := if (z <? 0)%Z then - numZ (- z) else numZ z.

(** [Math.PI], the double nearest to pi. *)
Definition Math_PI : float := 0x1.921fb54442d18p+1.

Definition isNaN (x : float) : bool := negb (x =? x).

Definition two52 : float := 0x1p52.

(** Largest integer not above [x], for [0 <= x < 2^52]: adding and
    removing 2^52 rounds [x] to an integer, which is then corrected
    downwards. *)
Definition floor_small (x : float) : float :=
  let r := (x + two52) - two52 in
  if x <? r then r - 1 else r.

(** [Math.round]: the integer nearest to [x], ties towards +infinity;
    NaN, infinities, zeros and numbers of magnitude at least 2^52 (all of
    them integers already) are returned unchanged. *)
Definition Math_round (x : float) : float :=
  if isNaN x then x
  else if two52 <=? abs x then x
  else if x =? 0 then x
  else if 0 <? x then
    let f := floor_small x in
    if (x - f) <? 0.5 then f else f + 1
  else
    let a := - x in
    let f := floor_small a in
    if (a - f) <=? 0.5 then - f else - (f + 1).

(** [v || 0] on a number: NaN and both zeros are falsy. *)
Definition or_zero (v : float) : float :=
  if isNaN v || (v =? 0) then 0 else v.

(** Template-literal rendering of a non-negative integer. *)
Definition show_nat (n : nat) : string := NilEmpty.string_of_uint (Nat.to_uint n).

End JS.

(* ===================================================================== *)
(** ** lib/phash.ts *)
(* ===================================================================== *)

Module Phash.

Import JS.
Open Scope float_scope.

(** What [sharp(...).resize(32, 32, {fit: "fill"}).greyscale().raw()
    .toBuffer({resolveWithObject: true})] resolves to: the byte buffer and
    the width reported in [info]. *)
Record RawImage := mkRaw { data : list nat; info_width : nat }.

Definition dctSize : nat := 8.

(** The comparator [(a, b) => a - b] given to [sort]. *)
Definition compareFn (a b : float) : float := a - b.

(** [sort(compareFn)], as a stable insertion sort: [a] is placed before the
    first [b] with [compareFn(a, b) <= 0]. *)
Fixpoint insert_sorted (a : float) (l : list float) : list float :=
  match l with
  | [] => [a]
  | b :: l' => if compareFn a b <=? 0 then a :: l else b :: insert_sorted a l'
  end.

Fixpoint sort_numeric (l : list float) : list float :=
  match l with
  | [] => []
  | a :: l' => insert_sorted a (sort_numeric l')
  end.

(** An index outside the array reads [undefined], which behaves as NaN in
    the arithmetic and in the comparisons below. *)
Definition at_index (l : list float) (i : nat) : float := nth i l nan.

Definition median_of (dctValues : list float) : float :=
  let dctWithoutDC := tl dctValues in
  let sorted := sort_numeric dctWithoutDC in
  let mid := Nat.div (List.length sorted) 2 in
  if negb (Nat.modulo (List.length sorted) 2 =? 0)%nat
  then at_index sorted mid
  else (at_index sorted (mid - 1) + at_index sorted mid) / 2.

Definition bit_of (median val : float) : string :=
  if median <=? val then "1"%string else "0"%string.

Definition hashBits (dctValues : list float) : string :=
  String.concat ""%string (map (bit_of (median_of dctValues)) dctValues).

Section WithCos.

(** [Math.cos] is implementation-approximated; it is a parameter. *)
Variable Math_cos : float -> float.

Definition dctTerm (pixels : list float) (size u v x y : nat) : float :=
  at_index pixels (x * size + y)
  * Math_cos (((2 * num x + 1) * num u * Math_PI) / (2 * num size))
  * Math_cos (((2 * num y + 1) * num v * Math_PI) / (2 * num size)).

Definition dctSum (pixels : list float) (size u v : nat) : float :=
  fold_left
    (fun sum x =>
       fold_left (fun sum y => sum + dctTerm pixels size u v x y) (seq 0 size) sum)
    (seq 0 size) 0.

Definition dct (pixels : list float) (size : nat) : list float :=
  flat_map (fun u => map (fun v => dctSum pixels size u v) (seq 0 dctSize))
           (seq 0 dctSize).

(** The part of [computeHash] after the image has been decoded. *)
Definition hashOfRaw (raw : RawImage) : string :=
  let size := info_width raw in
  let pixels := map num (data raw) in
  hashBits (dct pixels size).

Section WithSharp.

Variable Buffer : Type.
(** The decoder; [None] when it rejects (corrupt or empty input). *)
Variable sharp : Buffer -> option RawImage.

Definition computeHash (imageBuffer : Buffer) : option string :=
  match sharp imageBuffer with
  | None => None
  | Some raw => Some (hashOfRaw raw)
  end.

End WithSharp.

End WithCos.

Definition char_differs (hash1 hash2 : string) (i : nat) : bool :=
  match String.get i hash1, String.get i hash2 with
  | Some a, Some b => negb (Ascii.eqb a b)
  | None, None => false
  | _, _ => true
  end.

(** [None] when the lengths differ (the function throws). *)
Definition hammingDistance (hash1 hash2 : string) : option nat :=
  if negb (String.length hash1 =? String.length hash2)%nat then None
  else Some (fold_left
               (fun distance i => if char_differs hash1 hash2 i then S distance else distance)
               (seq 0 (String.length hash1)) 0%nat).

(** *** The words of the specification *)

Definition fle (a b : float) : Prop := (a <=? b) = true.

Definition noNaN (l : list float) : bool := forallb (fun v => negb (isNaN v)) l.

(** The comparator orders two values as [<=] does: its sign is exact.  On
    finite doubles the difference of two distinct values is never rounded
    to zero, so this holds of every pair of them. *)
Definition comparator_exact (l : list float) : bool :=
  forallb (fun a => forallb (fun b => Bool.eqb (compareFn a b <=? 0) (a <=? b)) l) l.

Definition count_below (m : float) (l : list float) : nat :=
List.length (filter (fun v => v <? m) l).

Definition count_above (m : float) (l : list float) : nat :=
List.length (filter (fun v => m <? v) l).

(** The median: a member of the list with at most half of the values
  strictly below it and at most half strictly above it. *)
Definition is_median (m : float) (l : list float) : Prop :=
In m l /\ (count_below m l <= List.length l / 2)%nat
       /\ (count_above m l <= List.length l / 2)%nat.

Definition bit_char (median val : float) : ascii :=
if median <=? val then "1"%char else "0"%char.

(** *** A sample input: a 32x32 ramp image and a polynomial cosine *)

Definition sample_cos (t : float) : float :=
let t2 := t * t in
1 - t2 / 2 + (t2 * t2) / 24.

Definition sample_raw : RawImage :=
mkRaw (map (fun i => Nat.modulo (i * 7) 256) (seq 0 1024)) 32.

(** The hash of the sample image under the sample cosine. *)
Definition sample_hash : string :=
"0000000000000000000001110001111100011111001111110011111110111111".

Definition sample_decoder (file : nat) : option RawImage :=
match file with
| O => None
| S _ => Some sample_raw
end.

End Phash.

(* ===================================================================== *)
(** ** api/check-image/route.ts *)
(* ===================================================================== *)

Module CheckImage.

Import JS.

Definition SIMILARITY_THRESHOLD : nat := 20.

Inductive Response :=
| ErrorJson (error : string) (status : nat)
| CheckJson (shouldProcess : bool) (distance : option nat) (message : string).

Definition is_error (r : Response) : bool :=
  match r with ErrorJson _ _ => true | CheckJson _ _ _ => false end.

(** A request: either its body is not form data ([request.formData()]
    rejects), or it is a form whose [image] entry may be missing. *)
Inductive Request (Buffer : Type) :=
| BadForm
| Form (image : option Buffer).
Arguments BadForm {Buffer}.

(** [!lastHash]: null and the empty string are falsy. *)
Definition no_reference (lastHash : option string) : bool :=
  match lastHash with
  | None => true
  | Some EmptyString => true
  | Some _ => false
  end.

Section Endpoint.

Variable Math_cos : float -> float.
Variable Buffer : Type.
Variable sharp : Buffer -> option Phash.RawImage.

(** The handler; the module-level [lastHash] is threaded through. *)
Definition POST (request : Request Buffer) (lastHash : option string)
  : Response * option string :=
  match request with
  | BadForm => (ErrorJson "Failed to process image" 500, lastHash)
  | Form None => (ErrorJson "No image provided" 400, lastHash)
  | Form (Some file) =>
      match Phash.computeHash Math_cos sharp file with
      | None => (ErrorJson "Failed to process image" 500, lastHash)
      | Some currentHash =>
          if no_reference lastHash then
            (CheckJson true None "First image — accepted", Some currentHash)
          else
            match Phash.hammingDistance (match lastHash with Some h => h | None => ""%string end)
                                        currentHash with
            | None => (ErrorJson "Failed to process image" 500, lastHash)
            | Some distance =>
                let shouldProcess := (SIMILARITY_THRESHOLD <=? distance)%nat in
                (CheckJson shouldProcess (Some distance)
                   (if shouldProcess
                    then "Accepted (distance: " ++ show_nat distance ++ ")"
                    else "Too similar (distance: " ++ show_nat distance ++ ")")%string,
                 if shouldProcess then Some currentHash else lastHash)
            end
      end
  end.

Definition DELETE (lastHash : option string) : option string := None.

End Endpoint.

End CheckImage.

(* ===================================================================== *)
(** ** api/check-image/imageAnalysis.ts and api/analyze-grid/route.ts *)
(* ===================================================================== *)

Module Analyzer.

Import JS.
Open Scope float_scope.

(** A function that may throw: the message of the error, or the value. *)
Inductive Result (A : Type) :=
| Throws (message : string)
| Returns (value : A).
Arguments Throws {A}.

Record ActivityDetection := mkActivity {
  activity : string;
  estimatedQuantity : string;
  co2Kg : float
}.

(** The object [JSON.parse] yields, read at the shape the analyzers
    declare; a missing [activities] is [None], a missing [totalCO2Kg]
    behaves as NaN in the arithmetic. *)
Record Parsed := mkParsed {
  p_summary : string;
  p_activities : option (list ActivityDetection);
  p_totalCO2Kg : float
}.

(** The external model call: it rejects, or resolves to a text, given
    with what [JSON.parse] makes of that text once the code fences are
    stripped ([None] when parsing throws). *)
Inductive ModelReply :=
| ModelRejects (message : string)
| ModelText (text : string) (json : option Parsed).

(** The environment of the server: the credential, the answer of the
    model and the store, [getDb] being [Some message] when connecting to it
    throws; [today] is the date [getTodayDate] returns. *)
Record ServerEnv := mkServerEnv {
  GEMINI_API_KEY : option string;
  generateContent : ModelReply;
  getDb : option string;
  today : string
}.

Definition is_line_terminator (c : ascii) : bool :=
  (Ascii.eqb c "010" || Ascii.eqb c "013")%char.

Fixpoint no_line_terminator (s : string) : bool :=
  match s with
  | EmptyString => true
  | String c s' => negb (is_line_terminator c) && no_line_terminator s'
  end.

(** The tail of [/^data:(.+?);base64,(.+)$/] once ["data:"] is consumed:
    [mime] is the text already given to the lazy first group, which is
    extended by one character whenever the rest cannot match here. *)
Fixpoint match_after_data (mime : string) (s : string) : option (string * string) :=
  match s with
  | EmptyString => None
  | String c s' =>
      let here :=
        if (0 <? String.length mime)%nat && String.prefix ";base64," s then
          let rest := String.substring 8 (String.length s - 8) s in
          if (0 <? String.length rest)%nat && no_line_terminator rest
          then Some (mime, rest) else None
        else None in
      match here with
      | Some r => Some r
      | None =>
          if is_line_terminator c then None
          else match_after_data (mime ++ String c EmptyString) s'
      end
  end.

Definition match_data_url (dataUrl : string) : option (string * string) :=
  if String.prefix "data:" dataUrl
  then match_after_data EmptyString (String.substring 5 (String.length dataUrl - 5) dataUrl)
  else None.

(** *** The grid analyzer *)

Record GridResult := mkGridResult {
  summary : string;
  activities : list ActivityDetection;
  totalCO2Kg : float;
  scoreChange : float;
  startTime : string;
  endTime : string
}.

Definition has_key (k : option string) : bool :=
  match k with
  | None => false
  | Some EmptyString => false
  | Some _ => true
  end.

Definition analyzeGrid (env : ServerEnv) (gridDataUrl startTime endTime : string)
  : Result GridResult :=
  if negb (has_key (GEMINI_API_KEY env)) then Throws "GEMINI_API_KEY not set"
  else
    match match_data_url gridDataUrl with
    | None => Throws "Invalid data URL format"
    | Some _ =>
        match generateContent env with
        | ModelRejects message => Throws message
        | ModelText text json =>
            let parsed :=
              match json with
              | Some p => p
              | None => mkParsed ("Parse failed: " ++ String.substring 0 100 text) (Some []) 0
              end in
            Returns
              (mkGridResult
                 (p_summary parsed)
                 (match p_activities parsed with Some a => a | None => [] end)
                 (p_totalCO2Kg parsed)
                 (Math_round ((p_totalCO2Kg parsed / 12.85) * 10000) / 100)
                 startTime endTime)
        end
    end.

(** *** The per-frame analyzer *)

Record FramesResult := mkFramesResult {
  f_summary : string;
  f_activities : list ActivityDetection;
  f_totalCO2Kg : float;
  f_scoreChange : float;
  f_timestamps : list string
}.

Definition analyzeFrames (env : ServerEnv) (imageDataUrls timestamps : list string)
  : Result FramesResult :=
  if negb (has_key (GEMINI_API_KEY env)) then
    Throws "GEMINI_API_KEY is not set in environment variables"
  else
    match generateContent env with
    | ModelRejects message => Throws message
    | ModelText text json =>
        let parsed :=
          match json with
          | Some p => p
          | None =>
              mkParsed ("Analysis could not be parsed. Raw response: "
                          ++ String.substring 0 200 text) (Some []) 0
          end in
        let scoreChange := (p_totalCO2Kg parsed / 12.85) * 100 in
        Returns
          (mkFramesResult
             (p_summary parsed)
             (match p_activities parsed with Some a => a | None => [] end)
             (p_totalCO2Kg parsed)
             (Math_round (scoreChange * 100) / 100)
             timestamps)
    end.

(** *** The analyze-grid route *)

(** A document of the [carbonLogs] collection. *)
Record LogDoc := mkLogDoc {
  l_summary : string;
  l_activities : list ActivityDetection;
  l_totalCO2Kg : float;
  l_scoreChange : float;
  l_startTime : string;
  l_endTime : string;
  l_date : string
}.

Record GridRequest := mkGridRequest {
  gridImage : string;
  r_startTime : string;
  r_endTime : string
}.

Inductive Body :=
| ErrorBody (error : string)
| ScoreBody (success : bool) (cumulativeScore : float).

Record HttpResponse := mkHttp { http_status : nat; http_body : Body }.

Definition todayLogs (env : ServerEnv) (carbonLogs : list LogDoc) : list LogDoc :=
  filter (fun log => String.eqb (l_date log) (today env)) carbonLogs.

Definition sumScoreChange (logs : list LogDoc) : float :=
  fold_left (fun sum log => sum + or_zero (l_scoreChange log)) logs 0.

Definition POST (env : ServerEnv) (request : GridRequest) (carbonLogs : list LogDoc)
  : HttpResponse * list LogDoc :=
  if String.eqb (gridImage request) "" then
    (mkHttp 400 (ErrorBody "No grid image provided"), carbonLogs)
  else
    match analyzeGrid env (gridImage request) (r_startTime request) (r_endTime request) with
    | Throws message => (mkHttp 500 (ErrorBody ("Analysis failed: " ++ message)), carbonLogs)
    | Returns result =>
        match getDb env with
        | Some message =>
          (mkHttp 500 (ErrorBody ("Analysis failed: " ++ message)), carbonLogs)
        | None =>
          let previousTotal := sumScoreChange (todayLogs env carbonLogs) in
          let cumulativeScore :=
            Math_round ((previousTotal + scoreChange result) * 100) / 100 in
          (mkHttp 200 (ScoreBody true cumulativeScore),
           carbonLogs ++ [mkLogDoc (summary result) (activities result) (totalCO2Kg result)
                                   (scoreChange result) (startTime result) (endTime result)
                                   (today env)])
        end
    end.

(** The companion query: today's cumulative score and number of batches. *)
Definition GET (env : ServerEnv) (carbonLogs : list LogDoc) : float * nat :=
  let logs := todayLogs env carbonLogs in
  (Math_round (sumScoreChange logs * 100) / 100, List.length logs).

End Analyzer.

(* ===================================================================== *)
(** ** components/CaptureSession.tsx, continuous capture: the analysis queue *)
(* ===================================================================== *)

Module Queue.

Import JS.
Import Analyzer.

Record CapturedFrame := mkFrame { src : string; timestamp : string }.

Inductive Status := pending | analyzing | complete | failed.

Definition status_eqb (a b : Status) : bool :=
  match a, b with
  | pending, pending | analyzing, analyzing | complete, complete | failed, failed => true
  | _, _ => false
  end.

Record GridJob := mkJob {
  id : nat;
  frames : list CapturedFrame;
  startTime : string;
  endTime : string;
  status : Status;
  result : option Body;
  error : option string
}.

Definition MAX_FRAMES : nat := 12.
Definition MAX_PENDING_JOBS : nat := 3.

(** The calls of [addLog] made by the queue, oldest first. *)
Inductive LogEntry :=
| LogQueued (id : nat)
| LogQueueFull
| LogAnalyzed (id : nat) (body : Body)
| LogFailed (id : nat) (error : string).

(** The state of the component that the queue reads and writes.  Job
    objects live in [heap] and are named by their index there; the array
    [analysisQueueRef.current] holds such references, so that a status
    written through the reference a worker keeps is seen through the
    array.  [workers] lists the activations of [processAnalysisQueue]
    suspended at an [await], each with the reference it holds in
    [pendingJob]. *)
Record Client := mkClient {
  heap : list GridJob;
  analysisQueueRef : list nat;
  processingRef : bool;
  jobIdCounterRef : nat;
  completedGrids : nat;
  addLog_calls : list LogEntry;
  workers : list nat
}.

Definition initial : Client := mkClient [] [] false 0 0 [] [].

Definition status_of (h : list GridJob) (job : nat) : option Status :=
  option_map status (nth_error h job).

Definition has_status (h : list GridJob) (s : Status) (job : nat) : bool :=
  match status_of h job with
  | Some s' => status_eqb s' s
  | None => false
  end.

(** [j.status === "pending" || j.status === "analyzing"] *)
Definition is_active (h : list GridJob) (job : nat) : bool :=
  has_status h pending job || has_status h analyzing job.

(** [j.status === "complete" || j.status === "failed"] *)
Definition is_finished (h : list GridJob) (job : nat) : bool :=
  has_status h complete job || has_status h failed job.

Fixpoint update_job (job : nat) (f : GridJob -> GridJob) (h : list GridJob) : list GridJob :=
  match h, job with
  | [], _ => []
  | j :: h', O => f j :: h'
  | j :: h', S n => j :: update_job n f h'
  end.

Definition set_status (s : Status) (j : GridJob) : GridJob :=
  mkJob (id j) (frames j) (startTime j) (endTime j) s (result j) (error j).

Definition set_result (r : Body) (j : GridJob) : GridJob :=
  mkJob (id j) (frames j) (startTime j) (endTime j) (status j) (Some r) (error j).

Definition set_error (e : string) (j : GridJob) : GridJob :=
  mkJob (id j) (frames j) (startTime j) (endTime j) (status j) (result j) (Some e).

Definition id_of (h : list GridJob) (job : nat) : nat :=
  match nth_error h job with Some j => id j | None => 0 end.

Definition addLog (e : LogEntry) (c : Client) : Client :=
  mkClient (heap c) (analysisQueueRef c) (processingRef c) (jobIdCounterRef c)
           (completedGrids c) (addLog_calls c ++ [e]) (workers c).

Definition with_heap (h : list GridJob) (c : Client) : Client :=
  mkClient h (analysisQueueRef c) (processingRef c) (jobIdCounterRef c)
           (completedGrids c) (addLog_calls c) (workers c).

Definition with_queue (q : list nat) (c : Client) : Client :=
  mkClient (heap c) q (processingRef c) (jobIdCounterRef c)
           (completedGrids c) (addLog_calls c) (workers c).

Definition with_processing (b : bool) (c : Client) : Client :=
  mkClient (heap c) (analysisQueueRef c) b (jobIdCounterRef c)
           (completedGrids c) (addLog_calls c) (workers c).

Definition with_workers (ws : list nat) (c : Client) : Client :=
  mkClient (heap c) (analysisQueueRef c) (processingRef c) (jobIdCounterRef c)
           (completedGrids c) (addLog_calls c) ws.

Definition with_counter (n : nat) (c : Client) : Client :=
  mkClient (heap c) (analysisQueueRef c) (processingRef c) n
           (completedGrids c) (addLog_calls c) (workers c).

Definition with_completed (n : nat) (c : Client) : Client :=
  mkClient (heap c) (analysisQueueRef c) (processingRef c) (jobIdCounterRef c)
           n (addLog_calls c) (workers c).

(** [slice(-n)]: the last [n] elements. *)
Definition lastn {A} (n : nat) (l : list A) : list A := skipn (List.length l - n) l.

(** Number of jobs of the array that are pending or analyzing. *)
Definition pendingCount (c : Client) : nat :=
  List.length (filter (is_active (heap c)) (analysisQueueRef c)).

(** Number of jobs of the array in status "analyzing". *)
Definition analyzingCount (c : Client) : nat :=
  List.length (filter (has_status (heap c) analyzing) (analysisQueueRef c)).

(** [processAnalysisQueue] from its call to its first [await]: nothing when
    a worker is active or no job is pending; otherwise the oldest pending
    job of the array becomes "analyzing" and the activation suspends. *)
Definition processAnalysisQueue (c : Client) : Client :=
  if processingRef c then c
  else
    match find (has_status (heap c) pending) (analysisQueueRef c) with
    | None => c
    | Some pendingJob =>
        with_workers (workers c ++ [pendingJob])
          (with_heap (update_job pendingJob (set_status analyzing) (heap c))
             (with_processing true c))
    end.

(** The terminal status an outcome leads to. *)
Definition terminal (outcome : Result Body) : Status :=
  match outcome with Returns _ => complete | Throws _ => failed end.

(** The pruning step: active jobs, then the last five finished ones. *)
Definition prune (c : Client) : Client :=
  let activeJobs := filter (is_active (heap c)) (analysisQueueRef c) in
  let finishedJobs := filter (is_finished (heap c)) (analysisQueueRef c) in
  with_queue (activeJobs ++ lastn 5 finishedJobs) c.

Fixpoint remove_first (x : nat) (l : list nat) : list nat :=
  match l with
  | [] => []
  | y :: l' => if (x =? y)%nat then l' else y :: remove_first x l'
  end.

(** The end of the [try] block and the [catch] block: the job is retired
    with the outcome of the analysis. *)
Definition retire (pendingJob : nat) (outcome : Result Body) (c : Client) : Client :=
  match outcome with
  | Returns r =>
      with_completed (completedGrids c + 1)
        (addLog (LogAnalyzed (id_of (heap c) pendingJob) r)
           (with_heap
              (update_job pendingJob (set_result r)
                 (update_job pendingJob (set_status complete) (heap c))) c))
  | Throws message =>
      let h := update_job pendingJob (set_error message)
                 (update_job pendingJob (set_status failed) (heap c)) in
      addLog (LogFailed (id_of h pendingJob) message) (with_heap h c)
  end.

(** [processAnalysisQueue] from the point where the analysis has produced
    its outcome to the end: the job is retired, the flag cleared, the array
    pruned and the drain re-entered; the activation is no longer
    suspended. *)
Definition processAnalysisQueue_resume (pendingJob : nat) (outcome : Result Body)
    (c : Client) : Client :=
  let c0 := with_workers (remove_first pendingJob (workers c)) c in
  processAnalysisQueue (prune (with_processing false (retire pendingJob outcome c0))).

(** [queueGridForAnalysis]: the new state and the returned boolean. *)
Definition queueGridForAnalysis (frames : list CapturedFrame) (startTime endTime : string)
    (c : Client) : Client * bool :=
  if (MAX_PENDING_JOBS <=? pendingCount c)%nat then (addLog LogQueueFull c, false)
  else
    let c1 := with_counter (jobIdCounterRef c + 1) c in
    let job := mkJob (jobIdCounterRef c1) frames startTime endTime pending None None in
    let ref := List.length (heap c1) in
    let c2 := with_queue (analysisQueueRef c1 ++ [ref]) (with_heap (heap c1 ++ [job]) c1) in
    (processAnalysisQueue (addLog (LogQueued (id job)) c2), true).

(** The state between the push of a job and the call of the drain. *)
Definition pushed (frames : list CapturedFrame) (startTime endTime : string) (c : Client)
  : Client :=
  let c1 := with_counter (jobIdCounterRef c + 1) c in
  let job := mkJob (jobIdCounterRef c1) frames startTime endTime pending None None in
  addLog (LogQueued (id job))
    (with_queue (analysisQueueRef c1 ++ [List.length (heap c1)])
       (with_heap (heap c1 ++ [job]) c1)).

(** *** The analysis a worker awaits *)

(** What becomes of the request of [runAnalysis] and of its answer: the
    answer of the route is received and read; or [fetch] rejects; or
    [fetch] resolves and [res.json()] rejects.  In the last two cases
    [handled] tells whether the route has handled the request (the answer
    is lost on its way back, or cannot be read) or not (the request never
    reaches the route, or something in between answers in its place). *)
Inductive Network :=
| Delivered
| FetchRejects (handled : bool) (message : string)
| JsonRejects (handled : bool) (message : string).

(** The route has handled the request and the client does not get to
    read its answer. *)
Definition lost_after_handling (n : Network) : bool :=
  match n with
  | FetchRejects true _ | JsonRejects true _ => true
  | _ => false
  end.

(** What the environment answers while a worker is suspended: the data URL
    the grid canvas renders ([None] without canvas or drawing context),
    the behaviour of the server and the fate of the request. *)
Record AnalysisEnv := mkAnalysisEnv {
  gridCanvas : option string;
  server : ServerEnv;
  network : Network
}.

Definition createGridDataUrl (env : AnalysisEnv) (framesToDraw : list CapturedFrame)
  : option string :=
  match framesToDraw with
  | [] => None
  | _ :: _ => gridCanvas env
  end.

Definition res_ok (r : HttpResponse) : bool :=
  (200 <=? http_status r)%nat && (http_status r <=? 299)%nat.

Definition runAnalysis (env : AnalysisEnv) (gridDataUrl startTime endTime : string)
    (carbonLogs : list LogDoc) : Result Body * list LogDoc :=
  let (res, carbonLogs') :=
    POST (server env) (mkGridRequest gridDataUrl startTime endTime) carbonLogs in
  match network env with
  | FetchRejects handled message | JsonRejects handled message =>
      (Throws message, if handled then carbonLogs' else carbonLogs)
  | Delivered =>
      if negb (res_ok res) then
        (match http_body res with
         | ErrorBody EmptyString => Throws "Analysis failed"
         | ErrorBody e => Throws e
         | ScoreBody _ _ => Throws "Analysis failed"
         end, carbonLogs')
      else (Returns (http_body res), carbonLogs')
  end.

(** The client and the store of the server. *)
Record World := mkWorld { client : Client; carbonLogs : list LogDoc }.

Definition initial_world : World := mkWorld initial [].

(** The [try] block of [processAnalysisQueue] for the job held by a worker.
    A worker holds a reference to an allocated job, so the first branch is
    only there to make the function total. *)
Definition analysis_outcome (env : AnalysisEnv) (pendingJob : nat) (w : World)
  : Result Body * list LogDoc :=
  match nth_error (heap (client w)) pendingJob with
  | None => (Throws "no such job", carbonLogs w)
  | Some j =>
      match createGridDataUrl env (frames j) with
      | None => (Throws "Failed to create grid", carbonLogs w)
      | Some gridDataUrl => runAnalysis env gridDataUrl (startTime j) (endTime j) (carbonLogs w)
      end
  end.

Definition worker_resume (pendingJob : nat) (env : AnalysisEnv) (w : World) : World :=
  let (outcome, logs) := analysis_outcome env pendingJob w in
  mkWorld (processAnalysisQueue_resume pendingJob outcome (client w)) logs.

(** *** Interleavings of enqueue, drain and worker completion *)

Inductive Action :=
| Enqueue (frames : list CapturedFrame) (startTime endTime : string)
| Drain
| Resume (pendingJob : nat) (env : AnalysisEnv).

(** One atomic step; a worker can only resume if it is suspended. *)
Definition step (a : Action) (w : World) : option World :=
  match a with
  | Enqueue fs st et =>
      Some (mkWorld (fst (queueGridForAnalysis fs st et (client w))) (carbonLogs w))
  | Drain => Some (mkWorld (processAnalysisQueue (client w)) (carbonLogs w))
  | Resume job env =>
      if existsb (Nat.eqb job) (workers (client w)) then Some (worker_resume job env w)
      else None
  end.

Fixpoint run (acts : list Action) (w : World) : option World :=
  match acts with
  | [] => Some w
  | a :: acts' =>
      match step a w with
      | Some w' => run acts' w'
      | None => None
      end
  end.

Inductive reachable : World -> Prop :=
| reach_init : reachable initial_world
| reach_step a w w' : reachable w -> step a w = Some w' -> reachable w'.

(** The ids logged as queued, and as retired, in the order of the calls. *)
Definition queued_ids (l : list LogEntry) : list nat :=
  flat_map (fun e => match e with LogQueued i => [i] | _ => [] end) l.

Definition retired_ids (l : list LogEntry) : list nat :=
  flat_map (fun e => match e with LogAnalyzed i _ | LogFailed i _ => [i] | _ => [] end) l.

(** *** Invariants of the queue *)

(** The references of the array that are pending or analyzing, in the
    order of the array. *)
Definition active_refs (c : Client) : list nat :=
  filter (is_active (heap c)) (analysisQueueRef c).

(** Every reference of the array names an allocated job. *)
Definition refs_valid (c : Client) : Prop :=
  Forall (fun job => job < List.length (heap c)) (analysisQueueRef c).

(** What holds of the array, the counter and the log at every moment. *)
Record queue_shape (c : Client) : Prop := mkShape {
  shape_refs : refs_valid c;
  shape_nodup : NoDup (analysisQueueRef c);
  shape_bound : pendingCount c <= MAX_PENDING_JOBS;
  shape_queued : queued_ids (addLog_calls c) = seq 1 (jobIdCounterRef c);
  shape_retired :
    exists k, k <= jobIdCounterRef c /\
      retired_ids (addLog_calls c) = seq 1 k /\
      map (id_of (heap c)) (active_refs c) = seq (S k) (jobIdCounterRef c - k)
}.

(** Between two atomic steps: either no worker is active and no job is
    pending or analyzing, or one worker is suspended, its job is the first
    active one and the only one analyzing. *)
Definition settled (c : Client) : Prop :=
  if processingRef c then
    exists job rest,
      workers c = [job] /\ active_refs c = job :: rest /\
      has_status (heap c) analyzing job = true /\
      Forall (fun j => has_status (heap c) pending j = true) rest
  else workers c = [] /\ active_refs c = [].

(** Just before the drain is entered with the flag cleared. *)
Definition undrained (c : Client) : Prop :=
  processingRef c = false /\ workers c = [] /\
  Forall (fun j => has_status (heap c) pending j = true) (active_refs c).

End Queue.

(* ===================================================================== *)
(** ** components/CaptureSession.tsx, continuous capture: the driver *)
(* ===================================================================== *)

Module Continuous.

Import Queue.

(** The locals of [runCaptureSession] that live across its [await]s. *)
Record Locals := mkLocals {
  gridNumber : nat;
  totalSkipped : nat;
  totalChecked : nat;
  gridStartTime : string;
  accepted : nat;
  collectedFrames : list CapturedFrame
}.

(** Where the activation of [runCaptureSession] is suspended. *)
Inductive Pc :=
| Idle
| AwaitInitialReset
| InnerTop (g : Locals)
| AwaitCheck (g : Locals) (dataUrl : string)
| AwaitGridReset (g : Locals).

Record Driver := mkDriver {
  sessionActiveRef : bool;
  stopRequestedRef : bool;
  pc : Pc
}.

Record System := mkSystem { world : World; driver : Driver }.

Definition initial_system : System := mkSystem initial_world (mkDriver false false Idle).

(** What the environment provides when the driver resumes: the clock
    ([getTimestamp]), what [captureOneFrame] does (it throws, or returns
    the frame grabbed, [None] when the video is not ready), the answer of
    the check-image endpoint ([None] when the request fails) and whether
    the reset request the driver was awaiting has resolved ([None]) or
    rejected with a reason. *)
Record DriverEnv := mkDriverEnv {
  now : string;
  captured : Analyzer.Result (option string);
  check : option (bool * string);
  reset : option string
}.

Definition with_pc (p : Pc) (s : System) : System :=
  mkSystem (world s) (mkDriver (sessionActiveRef (driver s)) (stopRequestedRef (driver s)) p).

Definition with_client (c : Client) (s : System) : System :=
  mkSystem (mkWorld c (carbonLogs (world s))) (driver s).

(** The end of [runCaptureSession], after the outer loop. *)
Definition end_session (s : System) : System :=
  mkSystem (world s) (mkDriver false (stopRequestedRef (driver s)) Idle).

(** An exception leaves [runCaptureSession] outside any [try]: the
    activation is gone and the line clearing [sessionActiveRef] is never
    run. *)
Definition session_dies (s : System) : System := with_pc Idle s.

(** The body of the inner loop up to its next [await]; the second
    component is the delay of the timer awaited, in milliseconds, when the
    driver suspends on a timer. *)
Definition inner_body (env : DriverEnv) (g : Locals) (s : System) : System * option nat :=
  let pendingCount := pendingCount (client (world s)) in
  if (MAX_PENDING_JOBS <=? pendingCount)%nat && (accepted g =? 0)%nat then
    (with_pc (InnerTop g) s, Some 5000)
  else
    match captured env with
    | Analyzer.Throws _ => (session_dies s, None)
    | Analyzer.Returns None => (with_pc (InnerTop g) s, Some 200)
    | Analyzer.Returns (Some dataUrl) =>
        (with_pc (AwaitCheck
                    (mkLocals (gridNumber g) (totalSkipped g) (totalChecked g + 1)
                              (gridStartTime g) (accepted g) (collectedFrames g))
                    dataUrl) s, None)
    end.

(** The top of the outer loop: a new grid is started unless a stop was
    requested. *)
Definition outer_top (env : DriverEnv) (g : Locals) (s : System) : System * option nat :=
  if stopRequestedRef (driver s) then (end_session s, None)
  else
    inner_body env
      (mkLocals (gridNumber g + 1) (totalSkipped g) (totalChecked g) (now env) 0 []) s.

(** The code after the inner loop. *)
Definition after_inner (env : DriverEnv) (g : Locals) (s : System) : System * option nat :=
  if stopRequestedRef (driver s) && (List.length (collectedFrames g) <? MAX_FRAMES)%nat then
    (end_session s, None)
  else if (List.length (collectedFrames g) =? MAX_FRAMES)%nat then
    let gridEndTime := now env in
    (with_pc (AwaitGridReset g)
       (with_client
          (fst (queueGridForAnalysis (collectedFrames g) (gridStartTime g) gridEndTime
                                     (client (world s)))) s),
     None)
  else outer_top env g s.

(** The test of the inner loop. *)
Definition inner_top (env : DriverEnv) (g : Locals) (s : System) : System * option nat :=
  if negb (stopRequestedRef (driver s)) && (accepted g <? MAX_FRAMES)%nat
  then inner_body env g s
  else after_inner env g s.

(** The continuation of the check-image request. *)
Definition after_check (env : DriverEnv) (g : Locals) (dataUrl : string) : Locals :=
  match check env with
  | Some (true, _) =>
      mkLocals (gridNumber g) (totalSkipped g) (totalChecked g) (gridStartTime g)
               (accepted g + 1) (collectedFrames g ++ [mkFrame dataUrl (now env)])
  | Some (false, _) =>
      mkLocals (gridNumber g) (totalSkipped g + 1) (totalChecked g) (gridStartTime g)
               (accepted g) (collectedFrames g)
  | None => g
  end.

(** The continuation of an awaited reset request, which is outside any
    [try]: when the request rejects the activation dies. *)
Definition after_reset (env : DriverEnv) (g : Locals) (s : System) : System * option nat :=
  match reset env with
  | Some _ => (session_dies s, None)
  | None => outer_top env g s
  end.

(** The driver runs from the [await] it is suspended at to the next one. *)
Definition driver_resume (env : DriverEnv) (s : System) : System * option nat :=
  match pc (driver s) with
  | Idle => (s, None)
  | AwaitInitialReset => after_reset env (mkLocals 0 0 0 "" 0 []) s
  | InnerTop g => inner_top env g s
  | AwaitCheck g dataUrl => (with_pc (InnerTop (after_check env g dataUrl)) s, Some 1000)
  | AwaitGridReset g => after_reset env g s
  end.

(** [handleStartCapture]: [runCaptureSession] up to its first [await]. *)
Definition start (s : System) : System :=
  if sessionActiveRef (driver s) then s
  else
    mkSystem (mkWorld (with_completed 0 (client (world s))) (carbonLogs (world s)))
             (mkDriver true false AwaitInitialReset).

(** [handleStopCapture] *)
Definition stop (s : System) : System :=
  mkSystem (world s) (mkDriver (sessionActiveRef (driver s)) true (pc (driver s))).

Inductive Action :=
| Start
| Stop
| DriverResumes (env : DriverEnv)
| WorkerResumes (pendingJob : nat) (env : AnalysisEnv).

Definition step (a : Action) (s : System) : option System :=
  match a with
  | Start => Some (start s)
  | Stop => Some (stop s)
  | DriverResumes env =>
      match pc (driver s) with
      | Idle => None
      | _ => Some (fst (driver_resume env s))
      end
  | WorkerResumes job env =>
      if existsb (Nat.eqb job) (workers (client (world s)))
      then Some (mkSystem (worker_resume job env (world s)) (driver s))
      else None
  end.

Inductive reachable : System -> Prop :=
| reach_init : reachable initial_system
| reach_step a s s' : reachable s -> step a s = Some s' -> reachable s'.

(** *** Invariant of the driver *)

(** No enqueue was ever refused; while frames of a grid are held, the queue
    is below its capacity. *)
Definition driver_inv (s : System) : Prop :=
  ~ In LogQueueFull (addLog_calls (client (world s))) /\
  match pc (driver s) with
  | InnerTop g =>
      accepted g = List.length (collectedFrames g) /\ accepted g <= MAX_FRAMES /\
      (0 < accepted g -> pendingCount (client (world s)) < MAX_PENDING_JOBS)
  | AwaitCheck g _ =>
      accepted g = List.length (collectedFrames g) /\ accepted g < MAX_FRAMES /\
      pendingCount (client (world s)) < MAX_PENDING_JOBS
  | _ => True
  end.

End Continuous.

(* ===================================================================== *)
(** ** The bounded capture session *)
(* ===================================================================== *)

Module Bounded.

Import JS.
Import Queue.
Open Scope float_scope.

Definition TIMEOUT_SECONDS : float := 300.

(** One evaluation of the capture loop: whether a stop was requested, the
    milliseconds [Date.now() - startTime], the frame grabbed, the answer of
    the check-image endpoint and the clock. *)
Record Tick := mkTick {
  stopRequested : bool;
  elapsed_ms : Z;
  captured : option string;
  check : option (bool * string);
  now : string
}.

(** The capture loop; [None] when the observations end before the loop
    does. *)
Fixpoint captureLoop (ticks : list Tick) (accepted : nat) (collectedFrames : list CapturedFrame)
  : option (nat * list CapturedFrame) :=
  match ticks with
  | [] => None
  | t :: ticks' =>
      if negb (negb (stopRequested t) && (accepted <? MAX_FRAMES)%nat) then
        Some (accepted, collectedFrames)
      else
        let elapsed := num_int (elapsed_ms t) / 1000 in
        if TIMEOUT_SECONDS <=? elapsed then Some (accepted, collectedFrames)
        else
          match captured t with
          | None => captureLoop ticks' accepted collectedFrames
          | Some dataUrl =>
              match check t with
              | Some (true, _) =>
                  captureLoop ticks' (accepted + 1)
                              (collectedFrames ++ [mkFrame dataUrl (now t)])
              | _ => captureLoop ticks' accepted collectedFrames
              end
          end
  end.

(** A tick at which the loop is left by a stop or by the timeout. *)
Definition loop_exits (t : Tick) : bool :=
  stopRequested t || (TIMEOUT_SECONDS <=? num_int (elapsed_ms t) / 1000).

(** How a session ends: without frames, or with the frames handed to
    [downloadGrid] and to the analysis request. *)
Inductive Ending :=
| NoFrames
| Submitted (frames : list CapturedFrame).

(** [runCaptureSession] of the single-shot session, once the guard
    against a concurrent session has been passed. *)
Definition runCaptureSession (ticks : list Tick) : option Ending :=
  match captureLoop ticks 0 [] with
  | None => None
  | Some (_, collectedFrames) =>
      if (List.length collectedFrames =? 0)%nat then Some NoFrames
      else Some (Submitted collectedFrames)
  end.

(** The variant whose analysis is started by an effect on the UI state:
    the status text set when the loop ends, and the effect. *)
Definition endStatusText (accepted : nat) : string :=
  if (MAX_FRAMES <=? accepted)%nat
  then ("✅ Batch complete! " ++ show_nat accepted ++ " frames captured.")%string
  else ("⏱️ Capture ended. " ++ show_nat accepted ++ "/" ++ show_nat MAX_FRAMES
          ++ " frames collected.")%string.

Definition autoAnalyze (capturing : bool) (frames : list CapturedFrame) (statusText : string)
  : option (list CapturedFrame) :=
  if capturing || (List.length frames =? 0)%nat then None
  else if String.prefix "✅" statusText || String.prefix "⏱️" statusText
       then Some frames
       else None.

Definition startCaptureLoop (ticks : list Tick) : option Ending :=
  match captureLoop ticks 0 [] with
  | None => None
  | Some (accepted, frames) =>
      match autoAnalyze false frames (endStatusText accepted) with
      | None => Some NoFrames
      | Some fs => Some (Submitted fs)
      end
  end.

End Bounded.


(* ===================================================================== *)
(** ** Sample environments *)
(* ===================================================================== *)

Module Samples.

Import Analyzer Queue.

(** A server whose model answers with a parsed total of [x] kilograms. *)
Definition server_reporting (x : float) : ServerEnv :=
  mkServerEnv (Some "key"%string)
              (ModelText "{}" (Some (mkParsed "driving" (Some []) x)))
              None "2026-02-08".

(** A server whose model answers with text that is not JSON. *)
Definition server_unparsable : ServerEnv :=
  mkServerEnv (Some "key"%string) (ModelText "I see a car." None) None "2026-02-08".

(** A server whose model call rejects. *)
Definition server_rejecting : ServerEnv :=
  mkServerEnv (Some "key"%string) (ModelRejects "503 Service Unavailable") None "2026-02-08".

Definition sample_url : string := "data:image/jpeg;base64,AAAA".

Definition sample_frames : list CapturedFrame := [mkFrame sample_url "10:00:00"].

Definition canvas_with (srv : ServerEnv) : AnalysisEnv :=
  mkAnalysisEnv (Some sample_url) srv Delivered.

(** The route handles the request and its answer is lost on the way
    back. *)
Definition answer_lost (srv : ServerEnv) : AnalysisEnv :=
  mkAnalysisEnv (Some sample_url) srv (FetchRejects true "Failed to fetch").

(** The world reached by a sequence of actions (the initial one when an
    action is not enabled). *)
Definition world_after (acts : list Action) : World :=
  match run acts initial_world with
  | Some w => w
  | None => initial_world
  end.

(** Four batches are offered while the first is analyzed; the first one
    then completes. *)
Definition sample_actions : list Action :=
  [Enqueue sample_frames "10:00:00" "10:00:12";
   Enqueue sample_frames "10:00:13" "10:00:25";
   Enqueue sample_frames "10:00:26" "10:00:38";
   Enqueue sample_frames "10:00:39" "10:00:51";
   Drain;
   Resume 0 (canvas_with (server_reporting 0.85))].

(** A continuous session in which every frame is accepted: after the
    start, the driver resumes 24 times, alternately from a check and from a
    timer, and then holds 12 frames at the top of its inner loop. *)
Definition accepting : Continuous.DriverEnv :=
  Continuous.mkDriverEnv "10:00:00" (Returns (Some sample_url))
                         (Some (true, "First image — accepted"%string)) None.

(** The same, when the reset request the driver awaits has rejected. *)
Definition reset_rejected : Continuous.DriverEnv :=
  Continuous.mkDriverEnv "10:00:00" (Returns (Some sample_url))
                         (Some (true, "First image — accepted"%string))
                         (Some "Failed to fetch"%string).

Definition sample_session : list Continuous.Action :=
  Continuous.Start :: repeat (Continuous.DriverResumes accepting) 24.

Fixpoint run_session (acts : list Continuous.Action) (s : Continuous.System)
  : Continuous.System :=
  match acts with
  | [] => s
  | a :: acts' =>
      match Continuous.step a s with
      | Some s' => run_session acts' s'
      | None => s
      end
  end.

(** A bounded session that accepts one frame and then times out. *)
Definition timeout_after_one_frame : list Bounded.Tick :=
  [Bounded.mkTick false 0%Z (Some sample_url) (Some (true, "First image — accepted"%string))
                  "10:00:01";
   Bounded.mkTick false 300000%Z None None "10:05:01"].

End Samples.

(* ===================================================================== *)
(** ** Further parts of the sources *)
(* ===================================================================== *)

(** *** lib/phash.ts: [compareHashes] *)

Module Compare.

Import Phash.

Section WithDecoder.

Variable Math_cos : float -> float.
Variable Buffer : Type.
Variable sharp : Buffer -> option RawImage.

(** [Promise.all] of the two hashes, then their distance; [None] when a
    hash cannot be computed or the distance throws. *)
Definition compareHashes (imageBuffer1 imageBuffer2 : Buffer) : option nat :=
  match computeHash Math_cos sharp imageBuffer1, computeHash Math_cos sharp imageBuffer2 with
  | Some hash1, Some hash2 => hammingDistance hash1 hash2
  | _, _ => None
  end.

End WithDecoder.

(** The positions at which two strings differ, as the loop of
    [hammingDistance] visits them. *)
Definition differing (hash1 hash2 : string) : list nat :=
  filter (char_differs hash1 hash2) (seq 0 (String.length hash1)).

End Compare.

(** *** api/check-image/route.ts: sequences of requests *)

Module CheckImageCalls.

Import CheckImage.

Inductive Call (Buffer : Type) :=
| CallPOST (request : Request Buffer)
| CallDELETE.
Arguments CallDELETE {Buffer}.

Definition accepted (r : Response) : bool :=
  match r with
  | CheckJson shouldProcess _ _ => shouldProcess
  | ErrorJson _ _ => false
  end.

(** The stored reference is absent or a 64-character hash. *)
Definition reference_ok (lastHash : option string) : Prop :=
  forall reference, lastHash = Some reference -> String.length reference = 64.

Definition distance_of (r : Response) : option nat :=
  match r with
  | CheckJson _ distance _ => distance
  | ErrorJson _ _ => None
  end.

Section Server.

Variable Math_cos : float -> float.
Variable Buffer : Type.
Variable sharp : Buffer -> option Phash.RawImage.

(** One call: the response of a POST ([None] for the acknowledgement of a
    DELETE) and the new [lastHash]. *)
Definition serve (call : Call Buffer) (lastHash : option string)
  : option Response * option string :=
  match call with
  | CallPOST request =>
      let (response, lastHash') := POST Math_cos sharp request lastHash in
      (Some response, lastHash')
  | CallDELETE => (None, DELETE lastHash)
  end.

(** The module-level [lastHash] after a sequence of calls. *)
Fixpoint lastHash_after (calls : list (Call Buffer)) (lastHash : option string)
  : option string :=
  match calls with
  | [] => lastHash
  | call :: calls' => lastHash_after calls' (snd (serve call lastHash))
  end.

End Server.

End CheckImageCalls.

(** *** api/analyze-grid/route.ts: the reset of today's logs *)

Module GridStore.

Import Analyzer.

(** The characters of a string satisfy a test. *)
Fixpoint all_chars (f : ascii -> bool) (s : string) : bool :=
  match s with
  | EmptyString => true
  | String c s' => f c && all_chars f s'
  end.

(** [DELETE]: [deleteMany({ date: today })]; the store is untouched when
    it cannot be reached. *)
Definition DELETE (env : ServerEnv) (carbonLogs : list LogDoc) : list LogDoc :=
  match getDb env with
  | Some _ => carbonLogs
  | None => filter (fun log => negb (String.eqb (l_date log) (today env))) carbonLogs
  end.

End GridStore.

(** *** The analyze route of the per-frame variant *)

Module FramesRoute.

Import JS Analyzer.
Open Scope float_scope.

Record HistoryEntry := mkEntry {
  h_batchNumber : nat;
  h_result : FramesResult;
  h_cumulativeScore : float
}.

(** The module-level variables [cumulativeScore] and [batchHistory]. *)
Record State := mkState {
  cumulativeScore : float;
  batchHistory : list HistoryEntry
}.

Definition initial : State := mkState 0 [].

(** The body of a request, each of whose two fields may be missing; the
    handler receives [Throws] when [request.json()] throws. *)
Record FramesBody := mkFramesBody {
  images : option (list string);
  timestamps : option (list string)
}.

Inductive Reply :=
| ErrorReply (status : nat) (error : string)
| BatchReply (result : FramesResult) (batchNumber : nat) (cumulative : float).

Definition POST (env : ServerEnv) (body : Result FramesBody) (st : State) : Reply * State :=
  match body with
  | Throws message => (ErrorReply 500 ("Analysis failed: " ++ message), st)
  | Returns b =>
      match images b with
      | None | Some [] => (ErrorReply 400 "No images provided", st)
      | Some imgs =>
          match timestamps b with
          | None => (ErrorReply 400 "Timestamps must match number of images", st)
          | Some ts =>
              if negb (List.length ts =? List.length imgs)%nat then
                (ErrorReply 400 "Timestamps must match number of images", st)
              else
                match analyzeFrames env imgs ts with
                | Throws message => (ErrorReply 500 ("Analysis failed: " ++ message), st)
                | Returns result =>
                    let cumulativeScore' := cumulativeScore st + f_scoreChange result in
                    let batchNumber := (List.length (batchHistory st) + 1)%nat in
                    let rounded := Math_round (cumulativeScore' * 100) / 100 in
                    (BatchReply result batchNumber rounded,
                     mkState cumulativeScore'
                             (batchHistory st ++ [mkEntry batchNumber result rounded]))
                end
          end
      end
  end.

(** [GET]: the rounded running total, the number of batches, the history. *)
Definition GET (st : State) : float * nat * list HistoryEntry :=
  (Math_round (cumulativeScore st * 100) / 100, List.length (batchHistory st),
   batchHistory st).

Definition DELETE (st : State) : State := mkState 0 [].

Inductive Call :=
| CallPOST (env : ServerEnv) (body : Result FramesBody)
| CallDELETE.

Definition serve (call : Call) (st : State) : State :=
  match call with
  | CallPOST env body => snd (POST env body st)
  | CallDELETE => DELETE st
  end.

Definition state_after (calls : list Call) : State := fold_left (fun st c => serve c st) calls initial.

End FramesRoute.

(** *** components/CaptureSession.tsx: the layout of the grid *)

Module GridLayout.

Import JS Queue.
Open Scope float_scope.

Definition cols : nat := 4.
Definition rows : nat := 3.

(** [Math.max] of two numbers: NaN if one of them is. *)
Definition Math_max (a b : float) : float :=
  if isNaN a then a else if isNaN b then b else if a <? b then b else a.

(** What the loop over the loaded images draws for the image of index
    [i]: the image at [(x, y)] with the size of a cell, and the label with
    its font size and padding. *)
Record Cell := mkCell {
  x : nat;
  y : nat;
  width : nat;
  height : nat;
  label : string;
  size : float;
  padding : float
}.

Definition cell (cellW cellH : nat) (i : nat) (frame : CapturedFrame) : Cell :=
  let size := Math_max 20 (Math_round (num cellW * 0.04)) in
  mkCell (Nat.modulo i cols * cellW) (Nat.div i cols * cellH) cellW cellH
         (show_nat (i + 1) ++ " " ++ timestamp frame)%string
         size (Math_round (size * 0.4)).

Fixpoint cells_from (cellW cellH : nat) (i : nat) (framesToDraw : list CapturedFrame)
  : list Cell :=
  match framesToDraw with
  | [] => []
  | frame :: rest => cell cellW cellH i frame :: cells_from cellW cellH (i + 1) rest
  end.

(** The cells drawn for the frames, the first frame giving the cell size. *)
Definition cells (cellW cellH : nat) (framesToDraw : list CapturedFrame) : list Cell :=
  cells_from cellW cellH 0 framesToDraw.

Definition canvas_width (cellW : nat) : nat := cellW * cols.
Definition canvas_height (cellH : nat) : nat := cellH * rows.

(** The rectangle of a cell lies on the canvas. *)
Definition on_canvas (cellW cellH : nat) (c : Cell) : Prop :=
  (x c + width c <= canvas_width cellW)%nat /\ (y c + height c <= canvas_height cellH)%nat.

(** Two rectangles without a common pixel. *)
Definition disjoint (a b : Cell) : Prop :=
  (x a + width a <= x b \/ x b + width b <= x a \/
   y a + height a <= y b \/ y b + height b <= y a)%nat.

End GridLayout.

(** *** components/CaptureSession.tsx: the log shown to the user *)

Module UiLog.

Record Entry := mkEntry { time : string; message : string; type : string }.

(** [addLog] of the continuous session: newest first, at most 100 kept. *)
Definition addLog (time message type : string) (prev : list Entry) : list Entry :=
  firstn 100 (mkEntry time message type :: prev).

Definition log_after (calls : list Entry) : list Entry :=
  fold_left (fun prev e => addLog (time e) (message e) (type e) prev) calls [].

End UiLog.

(** *** Further invariants of the queue and of the driver *)

Module QueueMore.

Import Analyzer Queue.
Open Scope nat_scope.

(** What a job carries besides its status. *)
Definition payload (j : GridJob) : nat * list CapturedFrame * string * string :=
  (id j, frames j, startTime j, endTime j).

(** The moves of the status of a job: none, or one step of
    pending, analyzing, complete or failed. *)
Definition status_move (a b : Status) : bool :=
  match a, b with
  | pending, pending | analyzing, analyzing | complete, complete | failed, failed => true
  | pending, analyzing | analyzing, complete | analyzing, failed => true
  | _, _ => false
  end.

(** The result and the error a job carries agree with its status. *)
Definition attachments_ok (j : GridJob) : Prop :=
  match status j with
  | complete => result j <> None /\ error j = None
  | failed => result j = None /\ error j <> None
  | pending | analyzing => result j = None /\ error j = None
  end.

Record heap_inv (c : Client) : Prop := mkHeapInv {
  heap_counter : List.length (heap c) = jobIdCounterRef c;
  heap_ids : forall i j, nth_error (heap c) i = Some j -> id j = i + 1;
  heap_attached : forall i j, nth_error (heap c) i = Some j -> attachments_ok j;
  heap_history : List.length (filter (is_finished (heap c)) (analysisQueueRef c)) <= 5
}.

(** A job as it is before and after an atomic step: what it carries is
    kept, its status makes at most one move, and a finished job is left as
    it is. *)
Definition job_moves (j j' : GridJob) : Prop :=
  payload j' = payload j /\ status_move (status j) (status j') = true /\
  (status j = complete \/ status j = failed -> j' = j).

Definition heap_evolves (h h' : list GridJob) : Prop :=
  forall i j, nth_error h i = Some j ->
    exists j', nth_error h' i = Some j' /\ job_moves j j'.

(** The number of calls of [addLog] reporting an analysis as done, and as
    failed. *)
Definition analyzed_count (l : list LogEntry) : nat :=
  List.length (filter (fun e => match e with LogAnalyzed _ _ => true | _ => false end) l).

Definition failed_count (l : list LogEntry) : nat :=
  List.length (filter (fun e => match e with LogFailed _ _ => true | _ => false end) l).

(** A job once a worker has retired it with an outcome. *)
Definition retired_job (outcome : Result Body) (j : GridJob) : GridJob :=
  mkJob (id j) (frames j) (startTime j) (endTime j) (terminal outcome)
        (match outcome with Returns r => Some r | Throws _ => result j end)
        (match outcome with Throws m => Some m | Returns _ => error j end).

(** The number of jobs ever created that have a given status. *)
Definition count_status (s : Status) (h : list GridJob) : nat :=
  List.length (filter (fun j => status_eqb (status j) s) h).

(** The counter of completed grids, the log and the jobs agree. *)
Record accounts (c : Client) : Prop := mkAccounts {
  acc_completed : completedGrids c = analyzed_count (addLog_calls c);
  acc_complete : analyzed_count (addLog_calls c) = count_status complete (heap c);
  acc_failed : failed_count (addLog_calls c) = count_status failed (heap c)
}.

End QueueMore.

Module DriverMore.

Import Queue Continuous.
Open Scope nat_scope.

(** The guard flag is set while an activation of [runCaptureSession]
    exists, and every job holds a full batch. *)
Definition session_inv (s : System) : Prop :=
  (pc (driver s) <> Idle -> sessionActiveRef (driver s) = true) /\
  Forall (fun j => List.length (frames j) = MAX_FRAMES) (heap (client (world s))).

(** The activation of [runCaptureSession] has died with the guard flag
    set. *)
Definition session_stuck (s : System) : Prop :=
  sessionActiveRef (driver s) = true /\ pc (driver s) = Idle.

End DriverMore.

Module BoundedMore.

Import Queue Bounded.

(** What an evaluation of the capture loop that does not leave it adds to
    the collected frames: the frame grabbed, stamped with the clock, when
    the check accepts it. *)
Definition accepted_frame (t : Tick) : list CapturedFrame :=
  match captured t, check t with
  | Some dataUrl, Some (true, _) => [mkFrame dataUrl (now t)]
  | _, _ => []
  end.

End BoundedMore.
(* ===================================================================== *)
(** * Properties *)
(* ===================================================================== *)

Unset Implicit Arguments.

(** ** The order of JavaScript numbers *)

Section FloatOrder.

Import JS.
Open Scope float_scope.

Ltac sf_cases :=
  repeat match goal with
  | |- context [Pos.compare_cont Eq ?a ?b] =>
      change (Pos.compare_cont Eq a b) with (Pos.compare a b)
  | H : context [Pos.compare_cont Eq ?a ?b] |- _ =>
      change (Pos.compare_cont Eq a b) with (Pos.compare a b) in H
  end;
  repeat match goal with
  | |- context [Z.compare ?a ?b] => destruct (Z.compare_spec a b)
  | H : context [Z.compare ?a ?b] |- _ => destruct (Z.compare_spec a b)
  | |- context [Pos.compare ?a ?b] => destruct (Pos.compare_spec a b)
  | H : context [Pos.compare ?a ?b] |- _ => destruct (Pos.compare_spec a b)
  end; simpl in *; try congruence; try lia.

Lemma SFeqb_irrefl_nan x : SFeqb x x = false -> x = S754_nan.
Proof.
  unfold SFeqb. destruct x as [s|s| |s m e]; simpl; try discriminate; auto.
  - destruct s; discriminate.
  - destruct s; sf_cases.
Qed.

Lemma isNaN_false x : isNaN x = false <-> Prim2SF x <> S754_nan.
Proof.
  unfold isNaN. rewrite FloatAxioms.eqb_spec. split.
  - intros H E. rewrite E in H. discriminate.
  - intros H. destruct (SFeqb (Prim2SF x) (Prim2SF x)) eqn:E; auto.
    apply SFeqb_irrefl_nan in E. contradiction.
Qed.

Lemma SFleb_total x y :
  x <> S754_nan -> y <> S754_nan -> SFleb x y = true \/ SFleb y x = true.
Proof.
  intros Hx Hy. unfold SFleb.
  destruct x as [s1|s1| |s1 m1 e1], y as [s2|s2| |s2 m2 e2]; try congruence; simpl; auto;
    try (destruct s1; auto; fail); try (destruct s2; auto; fail);
    try (destruct s1, s2; auto; fail).
  destruct s1, s2; auto; sf_cases; auto.
Qed.

Lemma SFleb_trans x y z : SFleb x y = true -> SFleb y z = true -> SFleb x z = true.
Proof.
  unfold SFleb.
  destruct x as [s1|s1| |s1 m1 e1], y as [s2|s2| |s2 m2 e2], z as [s3|s3| |s3 m3 e3];
    simpl; try discriminate; auto;
    try (destruct s1; try discriminate; auto; destruct s2; try discriminate; auto;
         destruct s3; try discriminate; auto; fail).
  all: destruct s1, s2, s3; simpl; try discriminate; auto; intros H1 H2; sf_cases.
Qed.

Lemma SFltb_not_leb x y :
  x <> S754_nan -> y <> S754_nan -> SFltb x y = negb (SFleb y x).
Proof.
  intros Hx Hy. unfold SFleb, SFltb.
  destruct x as [s1|s1| |s1 m1 e1], y as [s2|s2| |s2 m2 e2]; try congruence; simpl; auto;
    try (destruct s1; auto; fail); try (destruct s2; auto; fail);
    try (destruct s1, s2; auto; fail).
  destruct s1, s2; auto; sf_cases; auto.
Qed.

Lemma float_leb_total x y :
  isNaN x = false -> isNaN y = false -> (x <=? y) = true \/ (y <=? x) = true.
Proof. rewrite !isNaN_false, !FloatAxioms.leb_spec. apply SFleb_total. Qed.

Lemma float_leb_trans x y z : (x <=? y) = true -> (y <=? z) = true -> (x <=? z) = true.
Proof. rewrite !FloatAxioms.leb_spec. apply SFleb_trans. Qed.

Lemma float_ltb_not_leb x y :
  isNaN x = false -> isNaN y = false -> (x <? y) = negb (y <=? x).
Proof. rewrite !isNaN_false, !FloatAxioms.leb_spec, FloatAxioms.ltb_spec. apply SFltb_not_leb. Qed.

End FloatOrder.

(** ** The perceptual hash *)

Section HashProperties.

Import JS Phash.
Open Scope float_scope.

Lemma noNaN_In l v : noNaN l = true -> In v l -> isNaN v = false.
Proof.
  unfold noNaN. rewrite forallb_forall. intros H Hin.
  apply H in Hin. now apply negb_true_iff in Hin.
Qed.

Lemma insert_sorted_perm a l : Permutation (insert_sorted a l) (a :: l).
Proof.
  induction l as [|b l IH]; simpl; auto.
  destruct (compareFn a b <=? 0); auto.
  eapply perm_trans; [apply perm_skip, IH | apply perm_swap].
Qed.

Lemma sort_numeric_perm l : Permutation (sort_numeric l) l.
Proof.
  induction l as [|a l IH]; simpl; auto.
  eapply perm_trans; [apply insert_sorted_perm | now apply perm_skip].
Qed.

Lemma comparator_exact_In l a b :
  comparator_exact l = true -> In a l -> In b l -> (compareFn a b <=? 0) = (a <=? b).
Proof.
  unfold comparator_exact. rewrite forallb_forall. intros H Ha Hb.
  specialize (H a Ha). rewrite forallb_forall in H. specialize (H b Hb).
  now apply Bool.eqb_prop in H.
Qed.

Lemma comparator_exact_perm l l' :
  Permutation l l' -> comparator_exact l = true -> comparator_exact l' = true.
Proof.
  intros P H. unfold comparator_exact. apply forallb_forall. intros a Ha.
  apply forallb_forall. intros b Hb.
  rewrite (comparator_exact_In l a b H).
  - destruct (a <=? b); reflexivity.
  - eapply Permutation_in; [symmetry; exact P | exact Ha].
  - eapply Permutation_in; [symmetry; exact P | exact Hb].
Qed.

Lemma insert_sorted_sorted a l :
  isNaN a = false -> noNaN l = true ->
  (forall b, In b l -> (compareFn a b <=? 0) = (a <=? b)) ->
  StronglySorted fle l -> StronglySorted fle (insert_sorted a l).
Proof.
  intros Ha Hl Hc Hs. induction Hs as [|b l Hs IH Hb]; simpl.
  - repeat constructor.
  - rewrite (Hc b) by (simpl; auto). destruct (a <=? b) eqn:E.
    + constructor; [constructor; auto|].
      constructor; [exact E|].
      eapply Forall_impl; [|exact Hb]. intros c Hc'. eapply float_leb_trans; eauto.
    + assert (Hnb : isNaN b = false) by (apply (noNaN_In (b :: l)); simpl; auto).
      assert (Hl' : noNaN l = true).
      { unfold noNaN in *. simpl in Hl. now apply andb_true_iff in Hl. }
      constructor; [apply IH; auto; intros c Hin; apply Hc; simpl; auto|].
      assert (Hba : fle b a).
      { destruct (float_leb_total a b Ha Hnb) as [H|H]; [congruence | exact H]. }
      eapply Permutation_Forall; [symmetry; apply insert_sorted_perm|].
      constructor; auto.
Qed.

Lemma noNaN_perm l l' : Permutation l l' -> noNaN l = true -> noNaN l' = true.
Proof.
  unfold noNaN. intros P. rewrite !forallb_forall. intros H x Hx.
  apply H. eapply Permutation_in; [symmetry; exact P | exact Hx].
Qed.

Lemma noNaN_tl l : noNaN l = true -> noNaN (tl l) = true.
Proof.
  destruct l; simpl; auto. unfold noNaN. simpl. intros H.
  now apply andb_true_iff in H.
Qed.

Lemma comparator_exact_tl l : comparator_exact l = true -> comparator_exact (tl l) = true.
Proof.
  destruct l as [|x l]; simpl; auto. intros H.
  unfold comparator_exact. apply forallb_forall. intros a Ha.
  apply forallb_forall. intros b Hb.
  rewrite (comparator_exact_In (x :: l) a b H) by (simpl; auto).
  destruct (a <=? b); reflexivity.
Qed.

Lemma sort_numeric_sorted l :
  noNaN l = true -> comparator_exact l = true -> StronglySorted fle (sort_numeric l).
Proof.
  induction l as [|a l IH]; simpl; intros H C; [constructor|].
  pose proof (noNaN_tl (a :: l) H) as Hl. pose proof (comparator_exact_tl (a :: l) C) as Cl.
  simpl in Hl, Cl.
  apply insert_sorted_sorted; auto.
  - apply (noNaN_In (a :: l)); simpl; auto.
  - eapply noNaN_perm; [symmetry; apply sort_numeric_perm | exact Hl].
  - intros b Hb. apply (comparator_exact_In (a :: l)); simpl; auto.
    right. eapply Permutation_in; [apply sort_numeric_perm | exact Hb].
Qed.

Lemma count_below_perm m l l' : Permutation l l' -> count_below m l = count_below m l'.
Proof.
  unfold count_below. induction 1; simpl; auto.
  - destruct (x <? m); simpl; auto.
  - destruct (x <? m), (y <? m); simpl; auto.
  - congruence.
Qed.

Lemma count_above_perm m l l' : Permutation l l' -> count_above m l = count_above m l'.
Proof.
  unfold count_above. induction 1; simpl; auto.
  - destruct (m <? x); simpl; auto.
  - destruct (m <? x), (m <? y); simpl; auto.
  - congruence.
Qed.

Lemma filter_length_le {A} (f : A -> bool) l : List.length (filter f l) <= List.length l.
Proof. induction l; simpl; auto. destruct (f a); simpl; lia. Qed.

Lemma filter_none {A} (f : A -> bool) l :
  Forall (fun x => f x = false) l -> filter f l = [].
Proof. induction 1; simpl; auto. now rewrite H. Qed.

(** In a sorted list, the values strictly below the one at position [i]
    are among the first [i], and those strictly above it among the ones
    after it. *)
Lemma sorted_counts l :
  noNaN l = true -> StronglySorted fle l ->
  forall i, i < List.length l ->
    count_below (nth i l nan) l <= i /\
    count_above (nth i l nan) l <= List.length l - 1 - i.
Proof.
  intros Hn Hs. induction Hs as [|a l Hs IH Ha]; simpl; intros i Hi; [lia|].
  assert (Hna : isNaN a = false) by (apply (noNaN_In (a :: l)); simpl; auto).
  assert (Hnl : noNaN l = true).
  { unfold noNaN in *. simpl in Hn. now apply andb_true_iff in Hn. }
  destruct i as [|i].
  - unfold count_below, count_above. simpl.
    rewrite (float_ltb_not_leb a a Hna Hna).
    assert (Haa : (a <=? a) = true) by (destruct (float_leb_total a a Hna Hna); auto).
    rewrite Haa. simpl. split.
    + rewrite filter_none; simpl; auto.
      eapply Forall_impl; [|apply Forall_and; [exact Ha | apply Forall_forall; intros x Hx; exact (noNaN_In l x Hnl Hx)]].
      intros x [Hx Hnx]. simpl in *. rewrite (float_ltb_not_leb x a Hnx Hna). unfold fle in Hx. now rewrite Hx.
    + pose proof (filter_length_le (fun v => a <? v) l). lia.
  - assert (Hi' : i < List.length l) by lia.
    destruct (IH Hnl i Hi') as [Hb Hab].
    assert (Hin : In (nth i l nan) l) by (apply nth_In; lia).
    assert (Hnm : isNaN (nth i l nan) = false) by (eapply noNaN_In; eauto).
    assert (Hle : fle a (nth i l nan)) by (rewrite Forall_forall in Ha; auto).
    unfold count_below, count_above in *. simpl.
    rewrite (float_ltb_not_leb (nth i l nan) a Hnm Hna). unfold fle in Hle. rewrite Hle. simpl.
    split.
    + destruct (a <? nth i l nan); simpl; lia.
    + lia.
Qed.


Lemma bit_of_char m v : bit_of m v = String (bit_char m v) EmptyString.
Proof. unfold bit_of, bit_char. destruct (m <=? v); reflexivity. Qed.

Lemma concat_chars (g : float -> ascii) l :
  String.concat "" (map (fun v => String (g v) EmptyString) l)
  = string_of_list_ascii (map g l).
Proof.
  induction l as [|a l IH]; simpl; auto.
  destruct l as [|b l]; [reflexivity|].
  simpl in *. now rewrite IH.
Qed.

Lemma get_string_of_list l i :
  String.get i (string_of_list_ascii l) = nth_error l i.
Proof.
  revert i. induction l as [|a l IH]; intros [|i]; simpl; auto.
Qed.

Lemma length_string_of_list l :
  String.length (string_of_list_ascii l) = List.length l.
Proof. induction l; simpl; auto. Qed.

Lemma hashBits_chars c :
  hashBits c = string_of_list_ascii (map (bit_char (median_of c)) c).
Proof.
  unfold hashBits. rewrite <- concat_chars. f_equal.
  apply map_ext. intros v. apply bit_of_char.
Qed.

Lemma dct_length Math_cos pixels size : List.length (dct Math_cos pixels size) = 64%nat.
Proof. reflexivity. Qed.

Lemma median_of_middle c :
  List.length c = 64%nat ->
  median_of c = nth 31 (sort_numeric (tl c)) nan.
Proof.
  intros H. unfold median_of, at_index.
  assert (L : List.length (sort_numeric (tl c)) = 63%nat).
  { rewrite (Permutation_length (sort_numeric_perm (tl c))).
    destruct c; simpl in *; [discriminate | lia]. }
  rewrite L. reflexivity.
Qed.

(** C4: the hash of a decoded image is a string of 64 bits over the 64
    row-major coefficients; the threshold is the middle value of the sorted
    63 coefficients other than the first, which is their median; bit [i] is
    1 exactly when coefficient [i], the first one included, is at least the
    threshold.  The coefficients are finite doubles: none is NaN and the
    sign of their differences is exact. *)
Theorem computeHash_median_bits (Math_cos : float -> float) (raw : RawImage) :
  let c := dct Math_cos (map num (data raw)) (info_width raw) in
  noNaN c = true -> comparator_exact c = true ->
  let m := median_of c in
  List.length c = 64%nat /\
  m = nth 31 (sort_numeric (tl c)) nan /\
  Permutation (sort_numeric (tl c)) (tl c) /\
  StronglySorted fle (sort_numeric (tl c)) /\
  is_median m (tl c) /\
  String.length (hashOfRaw Math_cos raw) = 64%nat /\
  forall i, i < 64 ->
    String.get i (hashOfRaw Math_cos raw)
    = Some (if m <=? nth i c nan then "1"%char else "0"%char).
Proof.
  intros c Hn Hx m.
  assert (Lc : List.length c = 64%nat) by apply dct_length.
  assert (Hm : m = nth 31 (sort_numeric (tl c)) nan) by (apply median_of_middle; exact Lc).
  assert (Hnt : noNaN (tl c) = true) by (apply noNaN_tl; exact Hn).
  assert (Hxt : comparator_exact (tl c) = true) by (apply comparator_exact_tl; exact Hx).
  assert (P : Permutation (sort_numeric (tl c)) (tl c)) by apply sort_numeric_perm.
  assert (S : StronglySorted fle (sort_numeric (tl c)))
    by (apply sort_numeric_sorted; assumption).
  assert (Lt : List.length (tl c) = 63%nat) by (destruct c; simpl in *; [discriminate | lia]).
  assert (Ls : List.length (sort_numeric (tl c)) = 63%nat) by (rewrite (Permutation_length P); exact Lt).
  repeat split; auto.
  - rewrite Hm. eapply Permutation_in; [exact P|]. apply nth_In. lia.
  - rewrite (count_below_perm m _ _ (Permutation_sym P)), Hm.
    assert (Hns : noNaN (sort_numeric (tl c)) = true)
      by (eapply noNaN_perm; [symmetry; exact P | exact Hnt]).
    destruct (sorted_counts _ Hns S 31) as [H _]; [lia|].
    rewrite Lt. change (63 / 2)%nat with 31%nat. exact H.
  - rewrite (count_above_perm m _ _ (Permutation_sym P)), Hm.
    assert (Hns : noNaN (sort_numeric (tl c)) = true)
      by (eapply noNaN_perm; [symmetry; exact P | exact Hnt]).
    destruct (sorted_counts _ Hns S 31) as [_ H]; [lia|].
    rewrite Lt. change (63 / 2)%nat with 31%nat. rewrite Ls in H. exact H.
  - unfold hashOfRaw. fold c. rewrite hashBits_chars, length_string_of_list, length_map. exact Lc.
  - intros i Hi. unfold hashOfRaw. fold c. rewrite hashBits_chars, get_string_of_list.
    rewrite nth_error_map. rewrite (nth_error_nth' c nan) by lia. reflexivity.
Qed.

End HashProperties.

(** ** The admission filter *)

Section AdmissionFilter.

Import JS Phash CheckImage.
Open Scope nat_scope.

Variable Math_cos : float -> float.
Variable Buffer : Type.
Variable sharp : Buffer -> option RawImage.

Lemma hashOfRaw_length raw : String.length (hashOfRaw Math_cos raw) = 64.
Proof.
  unfold hashOfRaw. rewrite hashBits_chars, length_string_of_list, length_map.
  apply dct_length.
Qed.

Lemma computeHash_length file h :
  computeHash Math_cos sharp file = Some h -> String.length h = 64.
Proof.
  unfold computeHash. destruct (sharp file); [|discriminate].
  intros [= <-]. apply hashOfRaw_length.
Qed.

Lemma hammingDistance_defined a b :
  String.length a = String.length b -> exists d, hammingDistance a b = Some d.
Proof.
  intros H. unfold hammingDistance. rewrite H, Nat.eqb_refl. simpl. eauto.
Qed.

(** C3: a frame whose fingerprint is computed is accepted with no distance
    when no reference is stored, and the fingerprint becomes the reference;
    against a stored fingerprint it is accepted exactly when the Hamming
    distance is at least 20, and the reference is replaced exactly when the
    frame is accepted. *)
Theorem check_image_admission (file : Buffer) (currentHash : string)
    (lastHash : option string) :
  computeHash Math_cos sharp file = Some currentHash ->
  (forall reference, lastHash = Some reference -> String.length reference = 64) ->
  match lastHash with
  | None =>
      POST Math_cos sharp (Form (Some file)) lastHash
      = (CheckJson true None "First image — accepted", Some currentHash)
  | Some reference =>
      exists distance message,
        hammingDistance reference currentHash = Some distance /\
        POST Math_cos sharp (Form (Some file)) lastHash
        = (CheckJson (20 <=? distance) (Some distance) message,
           if 20 <=? distance then Some currentHash else Some reference) /\
        (distance = 20 -> (20 <=? distance) = true) /\
        (distance = 19 -> (20 <=? distance) = false)
  end.
Proof.
  intros Hc Hr. destruct lastHash as [reference|]; simpl.
  - assert (L : String.length reference = 64) by auto.
    assert (Lc : String.length currentHash = 64) by (eapply computeHash_length; eauto).
    destruct (hammingDistance_defined reference currentHash) as [d Hd]; [congruence|].
    rewrite Hc. destruct reference as [|a reference]; [discriminate|].
    cbn [no_reference]. rewrite Hd. unfold SIMILARITY_THRESHOLD.
    eexists d, _. repeat split.
    + intros ->. reflexivity.
    + intros ->. reflexivity.
  - now rewrite Hc.
Qed.

(** C10: a request that fails, because the form has no image, because the
    fingerprint cannot be computed or for any other reason, leaves the
    stored reference as it was, so that a later request is answered as if
    the failed one had not been made. *)
Theorem check_image_error_atomic (request : Request Buffer) (lastHash : option string) :
  (request = Form None ->
   fst (POST Math_cos sharp request lastHash) = ErrorJson "No image provided" 400) /\
  (forall file, request = Form (Some file) -> computeHash Math_cos sharp file = None ->
   fst (POST Math_cos sharp request lastHash) = ErrorJson "Failed to process image" 500) /\
  (is_error (fst (POST Math_cos sharp request lastHash)) = true ->
   snd (POST Math_cos sharp request lastHash) = lastHash /\
   forall next,
     POST Math_cos sharp next (snd (POST Math_cos sharp request lastHash))
     = POST Math_cos sharp next lastHash).
Proof.
  split; [|split].
  - intros ->. reflexivity.
  - intros file -> Hc. simpl. now rewrite Hc.
  - intros He.
    assert (E : snd (POST Math_cos sharp request lastHash) = lastHash).
    { destruct request as [|[file|]]; simpl in *; auto.
      destruct (computeHash Math_cos sharp file); simpl in *; auto.
      destruct (no_reference lastHash); simpl in *; [discriminate|].
      destruct (hammingDistance _ _); simpl in *; [discriminate | auto]. }
    split; [exact E | intros next; now rewrite E].
Qed.

End AdmissionFilter.

(** ** The filter on the sample image *)

Section HashExamples.

Import JS Phash CheckImage.
Open Scope nat_scope.

Example sort_numeric_sample :
  sort_numeric [3; 1; 2; 0.5; -1; 2]%float = [-1; 0.5; 1; 2; 2; 3]%float.
Proof. vm_compute. reflexivity. Qed.

Example hammingDistance_sample :
  hammingDistance "0101" "0011" = Some 2 /\ hammingDistance "01" "011" = None.
Proof. split; reflexivity. Qed.

Example sample_hash_value : hashOfRaw sample_cos sample_raw = sample_hash.
Proof. vm_compute. reflexivity. Qed.

Lemma computeHash_median_bits_witness :
  noNaN (dct sample_cos (map num (data sample_raw)) (info_width sample_raw)) = true /\
  comparator_exact (dct sample_cos (map num (data sample_raw)) (info_width sample_raw))
  = true /\
  String.length (hashOfRaw sample_cos sample_raw) = 64.
Proof.
  assert (H : noNaN (dct sample_cos (map num (data sample_raw)) (info_width sample_raw)) = true)
    by (vm_compute; reflexivity).
  assert (X : comparator_exact (dct sample_cos (map num (data sample_raw))
                                   (info_width sample_raw)) = true)
    by (vm_compute; reflexivity).
  split; [exact H|]. split; [exact X|].
  pose proof (computeHash_median_bits sample_cos sample_raw H X) as K.
  cbv zeta in K. destruct K as (_ & _ & _ & _ & _ & L & _).
  exact L.
Defined.

Lemma check_image_admission_witness :
  exists distance message,
    hammingDistance sample_hash sample_hash = Some distance /\
    POST sample_cos sample_decoder (Form (Some 1)) (Some sample_hash)
    = (CheckJson (20 <=? distance) (Some distance) message,
       if 20 <=? distance then Some sample_hash else Some sample_hash) /\
    (distance = 20 -> (20 <=? distance) = true) /\
    (distance = 19 -> (20 <=? distance) = false).
Proof.
  assert (H1 : computeHash sample_cos sample_decoder 1 = Some sample_hash)
    by (vm_compute; reflexivity).
  assert (H2 : forall reference,
             Some sample_hash = Some reference -> String.length reference = 64)
    by (intros reference [= <-]; vm_compute; reflexivity).
  exact (check_image_admission sample_cos nat sample_decoder 1 _ _ H1 H2).
Defined.

Lemma check_image_error_atomic_witness :
  is_error (fst (POST sample_cos sample_decoder (Form (Some 0)) (Some "0101"%string))) = true /\
  snd (POST sample_cos sample_decoder (Form (Some 0)) (Some "0101"%string)) = Some "0101"%string.
Proof.
  assert (H : is_error (fst (POST sample_cos sample_decoder (Form (Some 0))
                                  (Some "0101"%string))) = true) by reflexivity.
  split; [exact H|].
  pose proof (check_image_error_atomic sample_cos nat sample_decoder (Form (Some 0))
                (Some "0101"%string)) as (_ & _ & A).
  exact (proj1 (A H)).
Defined.

End HashExamples.

(** ** The analysis queue *)

(** Reduces the projections of an updated client. *)
Ltac fields :=
  cbn [Queue.heap Queue.analysisQueueRef Queue.processingRef Queue.jobIdCounterRef
       Queue.completedGrids Queue.addLog_calls Queue.workers Queue.with_heap
       Queue.with_queue Queue.with_processing Queue.with_workers Queue.with_counter
       Queue.with_completed Queue.addLog] in *.

Section QueueLemmas.

Import Analyzer Queue.
Open Scope nat_scope.

(** *** The heap *)

Lemma length_update_job job f h : List.length (update_job job f h) = List.length h.
Proof.
  revert job. induction h as [|j h IH]; intros [|n]; simpl; auto.
Qed.

Lemma nth_error_update_job job f h job' :
  nth_error (update_job job f h) job'
  = if job' =? job then option_map f (nth_error h job') else nth_error h job'.
Proof.
  revert job job'. induction h as [|j h IH]; intros [|n] [|m]; simpl;
    try reflexivity; try (destruct (_ =? _); reflexivity); apply IH.
Qed.

Lemma status_of_update job f h job' :
  status_of (update_job job f h) job'
  = if job' =? job then option_map (fun j => status (f j)) (nth_error h job')
    else status_of h job'.
Proof.
  unfold status_of. rewrite nth_error_update_job.
  destruct (job' =? job); [|reflexivity].
  destruct (nth_error h job'); reflexivity.
Qed.

Lemma id_of_update job f h job' :
  (forall j, id (f j) = id j) -> id_of (update_job job f h) job' = id_of h job'.
Proof.
  intros Hf. unfold id_of. rewrite nth_error_update_job.
  destruct (job' =? job); [|reflexivity].
  destruct (nth_error h job'); simpl; auto.
Qed.

Lemma status_of_same job f h job' :
  (forall j, status (f j) = status j) ->
  status_of (update_job job f h) job' = status_of h job'.
Proof.
  intros Hf. rewrite status_of_update. destruct (job' =? job); [|reflexivity].
  unfold status_of. destruct (nth_error h job'); simpl; [now rewrite Hf | reflexivity].
Qed.

Lemma has_status_other job s s' h job' :
  job' <> job ->
  has_status (update_job job (set_status s) h) s' job' = has_status h s' job'.
Proof.
  intros N. unfold has_status. rewrite status_of_update.
  apply Nat.eqb_neq in N. now rewrite N.
Qed.

Lemma has_status_updated job s s' h :
  job < List.length h ->
  has_status (update_job job (set_status s) h) s' job = status_eqb s s'.
Proof.
  intros L. unfold has_status. rewrite status_of_update, Nat.eqb_refl.
  destruct (nth_error h job) eqn:E; [reflexivity|].
  apply nth_error_None in E. lia.
Qed.

Lemma has_status_valid h s job : has_status h s job = true -> job < List.length h.
Proof.
  unfold has_status, status_of. destruct (nth_error h job) eqn:E; [|discriminate].
  intros _. apply nth_error_Some. congruence.
Qed.

Lemma has_status_unique h s s' job :
  has_status h s job = true -> has_status h s' job = true -> s = s'.
Proof.
  unfold has_status. destruct (status_of h job) as [x|]; [|discriminate].
  destruct x, s, s'; simpl; congruence.
Qed.

Lemma pending_is_active h job : has_status h pending job = true -> is_active h job = true.
Proof. unfold is_active. intros ->. reflexivity. Qed.

Lemma analyzing_is_active h job : has_status h analyzing job = true -> is_active h job = true.
Proof. unfold is_active. intros ->. apply orb_true_r. Qed.

Lemma finished_not_active h job : is_finished h job = true -> is_active h job = false.
Proof.
  unfold is_finished, is_active, has_status.
  destruct (status_of h job) as [[]|]; simpl; congruence.
Qed.

(** *** Lists *)

Lemma lastn_incl {A} n (l : list A) x : In x (lastn n l) -> In x l.
Proof. unfold lastn. intros H. rewrite <- (firstn_skipn (List.length l - n) l). apply in_or_app. auto. Qed.

Lemma lastn_NoDup {A} n (l : list A) : NoDup l -> NoDup (lastn n l).
Proof.
  unfold lastn. intros H. rewrite <- (firstn_skipn (List.length l - n) l) in H.
  now apply NoDup_app_remove_l in H.
Qed.

Lemma filter_nil_iff {A} (f : A -> bool) l :
  filter f l = [] -> forall x, In x l -> f x = false.
Proof.
  intros H x Hx. destruct (f x) eqn:E; [|reflexivity].
  assert (In x (filter f l)) by (apply filter_In; auto).
  rewrite H in H0. contradiction.
Qed.

Lemma filter_filter_sub {A} (f g : A -> bool) l :
  (forall x, f x = true -> g x = true) -> filter f (filter g l) = filter f l.
Proof.
  intros H. induction l as [|a l IH]; simpl; auto.
  destruct (g a) eqn:G; simpl.
  - destruct (f a); now rewrite IH.
  - destruct (f a) eqn:F; [apply H in F; congruence | exact IH].
Qed.

Lemma find_filter_head {A} (f g : A -> bool) l a rest :
  filter g l = a :: rest -> (forall x, f x = true -> g x = true) -> f a = true ->
  find f l = Some a.
Proof.
  intros Hg Hs Ha. induction l as [|b l IH]; simpl in *; [discriminate|].
  destruct (g b) eqn:G.
  - injection Hg as -> _. now rewrite Ha.
  - destruct (f b) eqn:F; [apply Hs in F; congruence | auto].
Qed.

Lemma find_none_filter {A} (f g : A -> bool) l :
  filter g l = [] -> (forall x, f x = true -> g x = true) -> find f l = None.
Proof.
  intros Hg Hs. induction l as [|b l IH]; simpl in *; auto.
  destruct (g b) eqn:G; [discriminate|].
  destruct (f b) eqn:F; [apply Hs in F; congruence | auto].
Qed.


(** *** The drain *)


Lemma is_active_started h job x :
  has_status h pending job = true ->
  is_active (update_job job (set_status analyzing) h) x = is_active h x.
Proof.
  intros P. destruct (Nat.eq_dec x job) as [->|N].
  - unfold is_active. rewrite !has_status_updated by (eapply has_status_valid; eauto).
    rewrite P. reflexivity.
  - unfold is_active. now rewrite !has_status_other.
Qed.

Lemma drain_noop_when_active c : processingRef c = true -> processAnalysisQueue c = c.
Proof. unfold processAnalysisQueue. now intros ->. Qed.

Lemma drain_settles c :
  queue_shape c -> undrained c ->
  queue_shape (processAnalysisQueue c) /\ settled (processAnalysisQueue c).
Proof.
  intros S (P & W & A). unfold processAnalysisQueue. rewrite P.
  destruct (active_refs c) as [|job rest] eqn:E.
  - rewrite (find_none_filter (has_status (heap c) pending) (is_active (heap c)) _ E)
      by (intros x; apply pending_is_active).
    split; [exact S|]. unfold settled. rewrite P. auto.
  - assert (Pj : has_status (heap c) pending job = true) by (inversion A; auto).
    rewrite (find_filter_head (has_status (heap c) pending) (is_active (heap c)) _ job rest E)
      by (auto using pending_is_active).
    assert (EA : active_refs
                   (with_workers (workers c ++ [job])
                      (with_heap (update_job job (set_status analyzing) (heap c))
                         (with_processing true c))) = active_refs c).
    { unfold active_refs. simpl. apply filter_ext. intros x. now apply is_active_started. }
    split.
    + destruct S as [R N B Q (k & K1 & K2 & K3)]. constructor.
      * unfold refs_valid in *. simpl. now rewrite length_update_job.
      * exact N.
      * unfold pendingCount in *. fold (active_refs c) in B.
        match goal with |- List.length ?l <= _ => change l with (active_refs
                   (with_workers (workers c ++ [job])
                      (with_heap (update_job job (set_status analyzing) (heap c))
                         (with_processing true c)))) end.
        now rewrite EA.
      * exact Q.
      * exists k. rewrite EA. fields. split; [exact K1|]. split; [exact K2|].
        rewrite <- K3. apply map_ext. intros x. apply id_of_update. reflexivity.
    + unfold settled. cbn [processingRef with_workers with_heap with_processing].
      exists job, rest. rewrite EA. cbn [workers with_workers heap with_heap with_processing].
      rewrite W. repeat split; auto.
      * apply has_status_updated. eapply has_status_valid; eauto.
      * assert (ND : NoDup (job :: rest)).
        { rewrite <- E. apply NoDup_filter. apply (shape_nodup S). }
        inversion ND as [|? ? Hn _]; subst.
        inversion A as [|? ? _ Hrest]; subst.
        rewrite Forall_forall in *. intros x Hx.
        rewrite has_status_other; auto. intros ->. contradiction.
Qed.


(** *** Enqueueing *)

Lemma has_status_push h j s x :
  x < List.length h -> has_status (h ++ [j]) s x = has_status h s x.
Proof. intros L. unfold has_status, status_of. now rewrite nth_error_app1. Qed.

Lemma is_active_push h j x :
  x < List.length h -> is_active (h ++ [j]) x = is_active h x.
Proof. intros L. unfold is_active. now rewrite !has_status_push. Qed.

Lemma id_of_push h j x : x < List.length h -> id_of (h ++ [j]) x = id_of h x.
Proof. intros L. unfold id_of. now rewrite nth_error_app1. Qed.

Lemma has_status_new h j s :
  has_status (h ++ [j]) s (List.length h) = status_eqb (status j) s.
Proof.
  unfold has_status, status_of. rewrite nth_error_app2 by lia.
  rewrite Nat.sub_diag. reflexivity.
Qed.

Lemma has_status_new_active h fs st et n :
  is_active (h ++ [mkJob n fs st et pending None None]) (List.length h) = true.
Proof. unfold is_active. now rewrite !has_status_new. Qed.

Lemma id_of_new h j : id_of (h ++ [j]) (List.length h) = id j.
Proof.
  unfold id_of. rewrite nth_error_app2 by lia. now rewrite Nat.sub_diag.
Qed.

Lemma queued_ids_app l e :
  queued_ids (l ++ [e]) = queued_ids l ++ match e with LogQueued i => [i] | _ => [] end.
Proof. unfold queued_ids. rewrite flat_map_app. simpl. now rewrite app_nil_r. Qed.

Lemma retired_ids_app l e :
  retired_ids (l ++ [e])
  = retired_ids l ++ match e with LogAnalyzed i _ | LogFailed i _ => [i] | _ => [] end.
Proof. unfold retired_ids. rewrite flat_map_app. simpl. now rewrite app_nil_r. Qed.

Lemma queueGridForAnalysis_unfold fs st et c :
  queueGridForAnalysis fs st et c
  = if MAX_PENDING_JOBS <=? pendingCount c then (addLog LogQueueFull c, false)
    else (processAnalysisQueue (pushed fs st et c), true).
Proof. reflexivity. Qed.

Lemma active_refs_pushed fs st et c :
  refs_valid c ->
  active_refs (pushed fs st et c) = active_refs c ++ [List.length (heap c)].
Proof.
  intros R. unfold active_refs, pushed. fields. rewrite filter_app. simpl.
  rewrite has_status_new_active. f_equal.
  apply filter_ext_in. intros x Hx. apply is_active_push.
  unfold refs_valid in R. rewrite Forall_forall in R. auto.
Qed.


Lemma pushed_shape fs st et c :
  queue_shape c -> pendingCount c < MAX_PENDING_JOBS -> queue_shape (pushed fs st et c).
Proof.
  intros [R N B Q (k & K1 & K2 & K3)] Hlt.
  pose proof (active_refs_pushed fs st et c R) as EA.
  assert (Rall : forall x, In x (analysisQueueRef c) -> x < List.length (heap c))
    by (unfold refs_valid in R; rewrite Forall_forall in R; exact R).
  constructor.
  - unfold refs_valid, pushed. fields. rewrite length_app. simpl.
    apply Forall_app. split.
    + apply Forall_forall. intros x Hx. apply Rall in Hx. lia.
    + constructor; [lia | constructor].
  - unfold pushed. fields. apply NoDup_app; [exact N | repeat constructor; auto | ].
    intros x Hx [<-|[]]. apply Rall in Hx. lia.
  - unfold pendingCount in *. fold (active_refs c) in Hlt.
    match goal with |- List.length ?l <= _ =>
      change l with (active_refs (pushed fs st et c)) end.
    rewrite EA, length_app. simpl. lia.
  - unfold pushed. fields. rewrite queued_ids_app, Q. simpl.
    rewrite Nat.add_1_r, seq_S. reflexivity.
  - exists k. rewrite EA. unfold pushed. fields. split; [lia|]. split.
    + rewrite retired_ids_app. simpl. now rewrite app_nil_r.
    + rewrite map_app. simpl. rewrite id_of_new. simpl.
      replace (jobIdCounterRef c + 1 - k) with (S (jobIdCounterRef c - k)) by lia.
      rewrite seq_S. f_equal.
      * rewrite <- K3. apply map_ext_in. intros x Hx. apply id_of_push.
        apply Rall. unfold active_refs in Hx. apply filter_In in Hx. tauto.
      * f_equal. lia.
Qed.

Lemma enqueue_preserves fs st et c :
  queue_shape c -> settled c ->
  queue_shape (fst (queueGridForAnalysis fs st et c)) /\
  settled (fst (queueGridForAnalysis fs st et c)).
Proof.
  intros S T. rewrite queueGridForAnalysis_unfold.
  destruct (MAX_PENDING_JOBS <=? pendingCount c) eqn:Full; cbn [fst].
  - split.
    + destruct S as [R N B Q (k & K1 & K2 & K3)]. constructor; auto.
      * fields. now rewrite queued_ids_app, app_nil_r.
      * exists k. fields. rewrite retired_ids_app, app_nil_r. auto.
    + exact T.
  - apply Nat.leb_gt in Full.
    pose proof (pushed_shape fs st et c S Full) as S'.
    pose proof (active_refs_pushed fs st et c (shape_refs S)) as EA.
    assert (Rall : forall x, In x (analysisQueueRef c) -> x < List.length (heap c)).
    { pose proof (shape_refs S) as R. unfold refs_valid in R.
      rewrite Forall_forall in R. exact R. }
    assert (Pnew : has_status (heap (pushed fs st et c)) pending (List.length (heap c)) = true).
    { unfold pushed. fields. now rewrite has_status_new. }
    unfold settled in T. destruct (processingRef c) eqn:P.
    + rewrite drain_noop_when_active by (unfold pushed; fields; exact P).
      split; [exact S'|].
      destruct T as (job & rest & W & A & An & Pr).
      unfold settled. replace (processingRef (pushed fs st et c)) with true
        by (unfold pushed; fields; now rewrite P).
      exists job, (rest ++ [List.length (heap c)]). rewrite EA, A.
      assert (Vj : job < List.length (heap c)) by (eapply has_status_valid; eauto).
      repeat split.
      * unfold pushed. fields. exact W.
      * unfold pushed. fields. now rewrite has_status_push.
      * apply Forall_app. split; [|constructor; [exact Pnew | constructor]].
        rewrite Forall_forall in *. intros x Hx. unfold pushed. fields.
        rewrite has_status_push; auto.
        apply Rall. assert (In x (active_refs c)) by (rewrite A; simpl; auto).
        unfold active_refs in H. apply filter_In in H. tauto.
    + destruct T as (W & A). apply drain_settles; [exact S'|].
      repeat split.
      * unfold pushed. fields. exact P.
      * unfold pushed. fields. exact W.
      * rewrite EA, A. simpl. constructor; [exact Pnew | constructor].
Qed.


(** *** Retiring a job *)

Lemma retire_fields job outcome c :
  analysisQueueRef (retire job outcome c) = analysisQueueRef c /\
  processingRef (retire job outcome c) = processingRef c /\
  jobIdCounterRef (retire job outcome c) = jobIdCounterRef c /\
  workers (retire job outcome c) = workers c /\
  List.length (heap (retire job outcome c)) = List.length (heap c) /\
  queued_ids (addLog_calls (retire job outcome c)) = queued_ids (addLog_calls c) /\
  retired_ids (addLog_calls (retire job outcome c))
  = retired_ids (addLog_calls c) ++ [id_of (heap c) job].
Proof.
  destruct outcome as [m|r]; unfold retire; fields;
    rewrite ?length_update_job, queued_ids_app, retired_ids_app, app_nil_r;
    repeat split; auto.
  rewrite !id_of_update; auto.
Qed.

Lemma retire_id_of job outcome c x :
  id_of (heap (retire job outcome c)) x = id_of (heap c) x.
Proof.
  destruct outcome; unfold retire; fields; rewrite !id_of_update; auto.
Qed.

Lemma retire_status_of job outcome c x :
  status_of (heap (retire job outcome c)) x
  = if x =? job then option_map (fun _ => terminal outcome) (nth_error (heap c) x)
    else status_of (heap c) x.
Proof.
  destruct outcome; unfold retire; fields;
    rewrite status_of_same by reflexivity; rewrite status_of_update;
    destruct (x =? job); auto; destruct (nth_error (heap c) x); reflexivity.
Qed.

Lemma retire_has_status_other job outcome c s x :
  x <> job -> has_status (heap (retire job outcome c)) s x = has_status (heap c) s x.
Proof.
  intros N. unfold has_status. rewrite retire_status_of.
  apply Nat.eqb_neq in N. now rewrite N.
Qed.

Lemma retire_has_status_job job outcome c s :
  job < List.length (heap c) ->
  has_status (heap (retire job outcome c)) s job = status_eqb (terminal outcome) s.
Proof.
  intros L. unfold has_status. rewrite retire_status_of, Nat.eqb_refl.
  destruct (nth_error (heap c) job) eqn:E; [reflexivity|].
  apply nth_error_None in E. lia.
Qed.

Lemma retire_is_active job outcome c x :
  job < List.length (heap c) ->
  is_active (heap (retire job outcome c)) x
  = negb (x =? job) && is_active (heap c) x.
Proof.
  intros L. destruct (Nat.eq_dec x job) as [->|N].
  - rewrite Nat.eqb_refl. unfold is_active. rewrite !retire_has_status_job by exact L.
    destruct outcome; reflexivity.
  - unfold is_active. rewrite !retire_has_status_other by exact N.
    apply Nat.eqb_neq in N. now rewrite N.
Qed.

Lemma filter_and {A} (f g : A -> bool) l :
  filter (fun x => f x && g x) l = filter f (filter g l).
Proof.
  induction l as [|a l IH]; simpl; auto.
  destruct (g a); simpl; destruct (f a); simpl; now rewrite ?IH.
Qed.

Lemma filter_not_head job rest :
  ~ In job rest -> filter (fun x => negb (x =? job)) (job :: rest) = rest.
Proof.
  intros N. simpl. rewrite Nat.eqb_refl. simpl.
  induction rest as [|a rest IH]; simpl; auto.
  destruct (Nat.eqb_spec a job) as [->|Ne]; simpl.
  - exfalso. apply N. simpl. auto.
  - f_equal. apply IH. intros H. apply N. simpl. auto.
Qed.

Lemma active_refs_retire job rest outcome c :
  NoDup (analysisQueueRef c) -> active_refs c = job :: rest ->
  job < List.length (heap c) ->
  active_refs (retire job outcome c) = rest.
Proof.
  intros N A L. unfold active_refs in *.
  destruct (retire_fields job outcome c) as (-> & _).
  rewrite (filter_ext _ _ (fun x => retire_is_active job outcome c x L)).
  rewrite filter_and, A. apply filter_not_head.
  assert (ND : NoDup (job :: rest)) by (rewrite <- A; now apply NoDup_filter).
  now inversion ND.
Qed.

(** *** Pruning *)

Lemma active_refs_prune c : active_refs (prune c) = active_refs c.
Proof.
  unfold active_refs, prune. fields. rewrite filter_app.
  rewrite (filter_filter_sub (is_active (heap c)) (is_active (heap c))) by auto.
  rewrite (filter_none (is_active (heap c)) (lastn 5 (filter (is_finished (heap c))
             (analysisQueueRef c)))); [apply app_nil_r|].
  apply Forall_forall. intros x Hx. apply lastn_incl, filter_In in Hx.
  destruct Hx as [_ Hx]. now apply finished_not_active.
Qed.


Lemma prune_nodup c : NoDup (analysisQueueRef c) -> NoDup (analysisQueueRef (prune c)).
Proof.
  intros N. unfold prune. fields. apply NoDup_app.
  - now apply NoDup_filter.
  - apply lastn_NoDup. now apply NoDup_filter.
  - intros x Hx Hy. apply filter_In in Hx. apply lastn_incl, filter_In in Hy.
    destruct Hx as [_ Hx], Hy as [_ Hy]. apply finished_not_active in Hy. congruence.
Qed.

Lemma prune_incl c x : In x (analysisQueueRef (prune c)) -> In x (analysisQueueRef c).
Proof.
  unfold prune. fields. intros H. apply in_app_or in H as [H|H].
  - apply filter_In in H. tauto.
  - apply lastn_incl, filter_In in H. tauto.
Qed.

Lemma pendingCount_active c : pendingCount c = List.length (active_refs c).
Proof. reflexivity. Qed.

Lemma settled_worker c job :
  settled c -> In job (workers c) ->
  processingRef c = true /\ workers c = [job] /\
  exists rest, active_refs c = job :: rest /\
    has_status (heap c) analyzing job = true /\
    Forall (fun j => has_status (heap c) pending j = true) rest.
Proof.
  unfold settled. intros T Hin. destruct (processingRef c).
  - destruct T as (job0 & rest & W & A & An & P). rewrite W in Hin.
    destruct Hin as [<-|[]]. eauto 10.
  - destruct T as [W _]. rewrite W in Hin. contradiction.
Qed.

Lemma resume_preserves job outcome c :
  queue_shape c -> settled c -> In job (workers c) ->
  queue_shape (processAnalysisQueue_resume job outcome c) /\
  settled (processAnalysisQueue_resume job outcome c).
Proof.
  intros S T Hin.
  destruct (settled_worker c job T Hin) as (P & W & rest & A & An & Pr).
  destruct S as [R N B Q (k & K1 & K2 & K3)].
  assert (V : job < List.length (heap c)) by (eapply has_status_valid; eauto).
  unfold processAnalysisQueue_resume. rewrite W. simpl remove_first. rewrite Nat.eqb_refl.
  set (c0 := with_workers [] c).
  set (c1 := retire job outcome c0).
  destruct (retire_fields job outcome c0) as (Fq & Fp & Fn & Fw & Fl & Flq & Flr).
  fold c1 in Fq, Fp, Fn, Fw, Fl, Flq, Flr. unfold c0 in Fq, Fp, Fn, Fw, Fl, Flq, Flr. fields.
  assert (A1 : active_refs c1 = rest).
  { apply (active_refs_retire job rest outcome c0); auto. }
  assert (A3 : active_refs (prune (with_processing false c1)) = rest).
  { rewrite active_refs_prune. exact A1. }
  assert (ND : NoDup (job :: rest)) by (rewrite <- A; now apply NoDup_filter).
  assert (Nj : ~ In job rest) by now inversion ND.
  rewrite A in K3. simpl in K3.
  destruct (jobIdCounterRef c - k) as [|m] eqn:Em; [discriminate|].
  simpl in K3. injection K3 as Kj Kr.
  apply drain_settles.
  - constructor.
    + unfold refs_valid. apply Forall_forall. intros x Hx.
      apply prune_incl in Hx. fields. rewrite Fq in Hx.
      unfold prune. fields. rewrite Fl.
      unfold refs_valid in R. rewrite Forall_forall in R. auto.
    + apply prune_nodup. fields. now rewrite Fq.
    + rewrite pendingCount_active, A3.
      rewrite pendingCount_active, A in B. simpl in B. lia.
    + unfold prune. fields. now rewrite Flq, Fn.
    + exists (S k). rewrite A3. unfold prune. fields. rewrite Flr, Fn, K2.
      split; [lia|]. split.
      * rewrite Kj. now rewrite seq_S.
      * replace (jobIdCounterRef c - S k) with m by lia.
        rewrite <- Kr. apply map_ext. intros x. apply (retire_id_of job outcome c0).
  - repeat split.
    + unfold prune. fields. exact Fw.
    + rewrite A3. rewrite Forall_forall in *. intros x Hx.
      unfold prune. fields.
      rewrite (retire_has_status_other job outcome c0);
        [unfold c0; fields; auto|].
      intros ->. contradiction.
Qed.

(** *** Reachable states *)

Lemma initial_shape : queue_shape initial /\ settled initial.
Proof.
  split.
  - constructor; simpl; try constructor. unfold pendingCount, MAX_PENDING_JOBS. simpl. lia.
    exists 0. simpl. auto.
  - unfold settled. simpl. auto.
Qed.

Lemma reachable_shape w : reachable w -> queue_shape (client w) /\ settled (client w).
Proof.
  induction 1 as [|a w w' Hr [S T] Hs].
  - apply initial_shape.
  - destruct a as [fs st et | | job env]; simpl in Hs.
    + injection Hs as <-. simpl. now apply enqueue_preserves.
    + injection Hs as <-. simpl.
      destruct (processingRef (client w)) eqn:P.
      * rewrite drain_noop_when_active by exact P. now split.
      * apply drain_settles; [exact S|]. unfold settled in T. rewrite P in T.
        destruct T as [W A].
        repeat split; auto. rewrite A. constructor.
    + destruct (existsb (Nat.eqb job) (workers (client w))) eqn:E; [|discriminate].
      injection Hs as <-. unfold worker_resume.
      destruct (analysis_outcome env job w) as [outcome logs]. simpl.
      apply resume_preserves; auto.
      apply existsb_exists in E as (x & Hx & Ex). apply Nat.eqb_eq in Ex. now subst.
Qed.


(** *** Facts that hold in every state *)

Lemma drain_fields c :
  analysisQueueRef (processAnalysisQueue c) = analysisQueueRef c /\
  addLog_calls (processAnalysisQueue c) = addLog_calls c /\
  jobIdCounterRef (processAnalysisQueue c) = jobIdCounterRef c /\
  List.length (heap (processAnalysisQueue c)) = List.length (heap c).
Proof.
  unfold processAnalysisQueue. destruct (processingRef c); [auto|].
  destruct (find _ _); fields; rewrite ?length_update_job; auto.
Qed.

Lemma drain_is_active c x :
  is_active (heap (processAnalysisQueue c)) x = is_active (heap c) x.
Proof.
  unfold processAnalysisQueue. destruct (processingRef c); [auto|].
  destruct (find _ _) as [job|] eqn:F; [|reflexivity]. fields.
  apply find_some in F as [_ F]. now apply is_active_started.
Qed.

Lemma active_refs_drain c : active_refs (processAnalysisQueue c) = active_refs c.
Proof.
  unfold active_refs. destruct (drain_fields c) as (-> & _).
  apply filter_ext. apply drain_is_active.
Qed.

Lemma drain_keeps_other c job s :
  has_status (heap c) pending job = false ->
  has_status (heap (processAnalysisQueue c)) s job = has_status (heap c) s job.
Proof.
  intros NP. unfold processAnalysisQueue. destruct (processingRef c); [auto|].
  destruct (find _ _) as [job'|] eqn:F; [|reflexivity]. fields.
  apply find_some in F as [_ F]. apply has_status_other. intros ->. congruence.
Qed.

Lemma drain_nth_error_other c job :
  has_status (heap c) pending job = false ->
  option_map (fun j => (id j, frames j, result j, error j))
             (nth_error (heap (processAnalysisQueue c)) job)
  = option_map (fun j => (id j, frames j, result j, error j)) (nth_error (heap c) job).
Proof.
  intros NP. unfold processAnalysisQueue. destruct (processingRef c); [auto|].
  destruct (find _ _) as [job'|] eqn:F; [|reflexivity]. fields.
  rewrite nth_error_update_job. destruct (job =? job'); [|reflexivity].
  destruct (nth_error (heap c) job); reflexivity.
Qed.

Lemma filter_length_mono {A} (f g : A -> bool) l :
  (forall x, f x = true -> g x = true) ->
  List.length (filter f l) <= List.length (filter g l).
Proof.
  intros H. induction l as [|a l IH]; simpl; auto.
  destruct (f a) eqn:F.
  - rewrite (H a F). simpl. lia.
  - destruct (g a); simpl; lia.
Qed.

Lemma retire_is_active_le job outcome c x :
  is_active (heap (retire job outcome c)) x = true -> is_active (heap c) x = true.
Proof.
  unfold is_active, has_status. rewrite retire_status_of.
  destruct (x =? job); [|auto].
  unfold status_of. destruct (nth_error (heap c) x); simpl; [|discriminate].
  destruct outcome; simpl; discriminate.
Qed.

Lemma pendingCount_resume job outcome c :
  pendingCount (processAnalysisQueue_resume job outcome c) <= pendingCount c.
Proof.
  unfold processAnalysisQueue_resume. rewrite !pendingCount_active.
  rewrite active_refs_drain, active_refs_prune.
  unfold active_refs. fields.
  destruct (retire_fields job outcome (with_workers (remove_first job (workers c)) c))
    as (-> & _). fields.
  apply filter_length_mono. intros x.
  apply (retire_is_active_le job outcome (with_workers (remove_first job (workers c)) c)).
Qed.

Lemma pendingCount_drain c : pendingCount (processAnalysisQueue c) = pendingCount c.
Proof. rewrite !pendingCount_active. now rewrite active_refs_drain. Qed.

End QueueLemmas.

(** ** The queue under every interleaving *)

Section QueueClaims.

Import Analyzer Queue Samples.
Open Scope nat_scope.

Lemma run_reachable acts : forall w w', reachable w -> run acts w = Some w' -> reachable w'.
Proof.
  induction acts as [|a acts IH]; simpl; intros w w' R H.
  - now injection H as <-.
  - destruct (step a w) as [w1|] eqn:S; [|discriminate].
    eapply IH; [|exact H]. eapply reach_step; eauto.
Qed.

Lemma analyzing_of_settled c : settled c -> analyzingCount c <= 1.
Proof.
  unfold settled, analyzingCount. intros T.
  rewrite <- (filter_filter_sub (has_status (heap c) analyzing) (is_active (heap c)))
    by (intros x; apply analyzing_is_active).
  fold (active_refs c).
  destruct (processingRef c).
  - destruct T as (job & rest & _ & -> & An & P). simpl. rewrite An. simpl.
    rewrite filter_none; [simpl; lia|].
    eapply Forall_impl; [|exact P]. intros x Hx. simpl in Hx.
    destruct (has_status (heap c) analyzing x) eqn:E; [|reflexivity].
    pose proof (has_status_unique _ _ _ _ Hx E). discriminate.
  - destruct T as [_ ->]. simpl. lia.
Qed.

(** C1: at every moment of every interleaving of enqueue, drain and worker
    completion, at most one activation of the drain is suspended, a drain
    invoked while one is suspended changes nothing, and at most one job of
    the queue has status "analyzing". *)
Theorem single_active_worker (w : World) :
  reachable w ->
  List.length (workers (client w)) <= 1 /\
  (workers (client w) <> [] ->
   processingRef (client w) = true /\
   processAnalysisQueue (client w) = client w /\
   step Drain w = Some w) /\
  analyzingCount (client w) <= 1.
Proof.
  intros R. destruct (reachable_shape w R) as [S T]. split; [|split].
  - unfold settled in T. destruct (processingRef (client w)).
    + destruct T as (job & rest & -> & _). simpl. lia.
    + destruct T as [-> _]. simpl. lia.
  - intros NW. assert (P : processingRef (client w) = true).
    { unfold settled in T. destruct (processingRef (client w)); [reflexivity|].
      destruct T as [W _]. contradiction. }
    split; [exact P|]. split; [now apply drain_noop_when_active|].
    simpl. rewrite drain_noop_when_active by exact P. now destruct w.
  - now apply analyzing_of_settled.
Qed.

Lemma single_active_worker_witness :
  reachable (world_after sample_actions) /\
  analyzingCount (client (world_after sample_actions)) <= 1.
Proof.
  assert (R : reachable (world_after sample_actions)).
  { apply (run_reachable sample_actions initial_world); [constructor|].
    vm_compute. reflexivity. }
  split; [exact R|].
  exact (proj2 (proj2 (single_active_worker (world_after sample_actions) R))).
Defined.


(** C2: an enqueue made while at least 3 jobs are pending or analyzing
    returns false and leaves the array and the jobs as they are; otherwise
    it appends one reference to a new job created pending, enters the
    drain and returns true, so that one more job is pending or analyzing.
    Hence at most 3 jobs are ever pending or analyzing. *)
Theorem enqueue_admission_control (fs : list CapturedFrame) (st et : string) (c : Client) :
  (MAX_PENDING_JOBS <= pendingCount c ->
   snd (queueGridForAnalysis fs st et c) = false /\
   analysisQueueRef (fst (queueGridForAnalysis fs st et c)) = analysisQueueRef c /\
   heap (fst (queueGridForAnalysis fs st et c)) = heap c) /\
  (pendingCount c < MAX_PENDING_JOBS -> refs_valid c ->
   snd (queueGridForAnalysis fs st et c) = true /\
   fst (queueGridForAnalysis fs st et c) = processAnalysisQueue (pushed fs st et c) /\
   nth_error (heap (pushed fs st et c)) (List.length (heap c))
   = Some (mkJob (jobIdCounterRef c + 1) fs st et pending None None) /\
   analysisQueueRef (fst (queueGridForAnalysis fs st et c))
   = analysisQueueRef c ++ [List.length (heap c)] /\
   List.length (heap (fst (queueGridForAnalysis fs st et c))) = S (List.length (heap c)) /\
   pendingCount (fst (queueGridForAnalysis fs st et c)) = pendingCount c + 1) /\
  (forall w, reachable w -> pendingCount (client w) <= 3).
Proof.
  split; [|split].
  - intros Full. rewrite queueGridForAnalysis_unfold.
    apply Nat.leb_le in Full. rewrite Full. auto.
  - intros Free R. rewrite queueGridForAnalysis_unfold.
    apply Nat.leb_gt in Free. rewrite Free. cbn [fst snd].
    destruct (drain_fields (pushed fs st et c)) as (Fq & _ & _ & Fl).
    repeat split.
    + unfold pushed. fields. rewrite nth_error_app2 by lia. now rewrite Nat.sub_diag.
    + rewrite Fq. reflexivity.
    + rewrite Fl. unfold pushed. fields. rewrite length_app. simpl. lia.
    + rewrite pendingCount_drain, !pendingCount_active, active_refs_pushed by exact R.
      rewrite length_app. reflexivity.
  - intros w R. destruct (reachable_shape w R) as [S _]. apply (shape_bound S).
Qed.

Lemma enqueue_admission_control_witness :
  pendingCount (client (world_after (firstn 3 sample_actions))) = 3 /\
  snd (queueGridForAnalysis sample_frames "10:00:39" "10:00:51"
         (client (world_after (firstn 3 sample_actions)))) = false /\
  pendingCount initial < MAX_PENDING_JOBS /\
  snd (queueGridForAnalysis sample_frames "10:00:00" "10:00:12" initial) = true /\
  pendingCount (client (world_after sample_actions)) <= 3.
Proof.
  assert (H3 : MAX_PENDING_JOBS <= pendingCount (client (world_after (firstn 3 sample_actions))))
    by (vm_compute; lia).
  assert (H0 : pendingCount initial < MAX_PENDING_JOBS) by (vm_compute; lia).
  assert (V0 : refs_valid initial) by constructor.
  assert (R : reachable (world_after sample_actions)).
  { apply (run_reachable sample_actions initial_world); [constructor|].
    vm_compute. reflexivity. }
  split; [vm_compute; reflexivity|].
  split; [exact (proj1 (proj1 (enqueue_admission_control sample_frames "10:00:39" "10:00:51"
                    (client (world_after (firstn 3 sample_actions)))) H3))|].
  split; [exact H0|].
  split; [exact (proj1 (proj1 (proj2 (enqueue_admission_control sample_frames
                    "10:00:00" "10:00:12" initial)) H0 V0))|].
  exact (proj2 (proj2 (enqueue_admission_control sample_frames "10:00:00" "10:00:12"
                         initial)) _ R).
Defined.

Lemma find_split {A} (f : A -> bool) l a :
  find f l = Some a ->
  exists l1 l2, l = l1 ++ a :: l2 /\ f a = true /\ filter f l1 = [].
Proof.
  induction l as [|b l IH]; simpl; [discriminate|].
  destruct (f b) eqn:F.
  - intros [= ->]. exists [], l. auto.
  - intros H. destruct (IH H) as (l1 & l2 & -> & Fa & Fl).
    exists (b :: l1), l2. simpl. rewrite F. auto.
Qed.

Lemma seq_head_least s n a rest x :
  seq s n = a :: rest -> In x (a :: rest) -> a <= x.
Proof.
  intros E Hx. rewrite <- E in Hx. apply in_seq in Hx.
  destruct n; simpl in E; [discriminate|]. injection E as <- _. lia.
Qed.

(** C9: jobs are numbered in the order they are queued; the jobs retired
    so far are the first ones queued, in that order, and those still
    pending or analyzing follow in the array in that order; the job the
    drain selects is the pending one queued earliest; pruning keeps the
    order of the jobs that are not finished. *)
Theorem fifo_retirement (w : World) :
  reachable w ->
  queued_ids (addLog_calls (client w)) = seq 1 (jobIdCounterRef (client w)) /\
  (exists k, k <= jobIdCounterRef (client w) /\
     retired_ids (addLog_calls (client w)) = seq 1 k /\
     map (id_of (heap (client w))) (active_refs (client w))
     = seq (S k) (jobIdCounterRef (client w) - k)) /\
  (exists later,
     queued_ids (addLog_calls (client w)) = retired_ids (addLog_calls (client w)) ++ later) /\
  (forall job, find (has_status (heap (client w)) pending) (analysisQueueRef (client w))
               = Some job ->
     forall other, In other (analysisQueueRef (client w)) ->
       has_status (heap (client w)) pending other = true ->
       id_of (heap (client w)) job <= id_of (heap (client w)) other) /\
  active_refs (prune (client w)) = active_refs (client w).
Proof.
  intros R. destruct (reachable_shape w R) as [Sh T].
  split; [apply (shape_queued Sh)|]. split; [apply (shape_retired Sh)|].
  split.
  { destruct (shape_retired Sh) as (k & K1 & K2 & _).
    exists (seq (S k) (jobIdCounterRef (client w) - k)).
    rewrite (shape_queued Sh), K2.
    replace (jobIdCounterRef (client w)) with (k + (jobIdCounterRef (client w) - k)) at 1 by lia.
    apply seq_app. }
  split; [|apply active_refs_prune].
  intros job F other Hin Po.
  set (c := client w) in *.
  assert (Hp : forall x, has_status (heap c) pending x = true -> is_active (heap c) x = true)
    by (intros x; apply pending_is_active).
  assert (Fp : filter (has_status (heap c) pending) (active_refs c)
               = filter (has_status (heap c) pending) (analysisQueueRef c))
    by (apply filter_filter_sub; exact Hp).
  destruct (find_split _ _ _ F) as (l1 & l2 & E & Pj & N1).
  assert (Hhead : filter (has_status (heap c) pending) (analysisQueueRef c)
                  = job :: filter (has_status (heap c) pending) l2).
  { rewrite E, filter_app, N1. simpl. now rewrite Pj. }
  assert (Ho : In other (filter (has_status (heap c) pending) (analysisQueueRef c)))
    by (apply filter_In; auto).
  destruct (shape_retired Sh) as (k & _ & _ & K3). fold c in K3.
  unfold settled in T. fold c in T. destruct (processingRef c).
  - destruct T as (j0 & rest & _ & A & An & Pr).
    assert (Fr : filter (has_status (heap c) pending) (active_refs c) = rest).
    { rewrite A. simpl.
      destruct (has_status (heap c) pending j0) eqn:Pj0.
      - pose proof (has_status_unique _ _ _ _ Pj0 An). discriminate.
      - clear - Pr. induction Pr as [|a rest Ha _ IH]; simpl; auto. now rewrite Ha, IH. }
    rewrite Fp, Hhead in Fr. rewrite A, <- Fr in K3. simpl in K3.
    destruct (jobIdCounterRef c - k) as [|m]; [discriminate|]. simpl in K3.
    injection K3 as _ K3.
    rewrite Hhead in Ho.
    apply (seq_head_least (S (S k)) m _ (map (id_of (heap c))
             (filter (has_status (heap c) pending) l2))).
    + now rewrite <- K3.
    + change (In (id_of (heap c) other)
                 (map (id_of (heap c)) (job :: filter (has_status (heap c) pending) l2))).
      now apply in_map.
  - destruct T as [_ A]. rewrite A in Fp. simpl in Fp. rewrite <- Fp in Ho. contradiction.
Qed.

Lemma fifo_retirement_witness :
  reachable (world_after sample_actions) /\
  queued_ids (addLog_calls (client (world_after sample_actions))) = [1; 2; 3] /\
  retired_ids (addLog_calls (client (world_after sample_actions))) = [1].
Proof.
  assert (R : reachable (world_after sample_actions)).
  { apply (run_reachable sample_actions initial_world); [constructor|].
    vm_compute. reflexivity. }
  split; [exact R|].
  pose proof (fifo_retirement (world_after sample_actions) R) as (Q & _).
  split; [rewrite Q; vm_compute; reflexivity | vm_compute; reflexivity].
Defined.

End QueueClaims.

(** ** The two analyzers on the same total *)

Section ScoreChange.

Import JS Analyzer Samples.

Example match_data_url_sample :
  match_data_url sample_url = Some ("image/jpeg", "AAAA")%string /\
  match_data_url "data:;base64,AAAA" = None /\
  match_data_url "data:;base64,ab;base64,cd" = Some (";base64,ab", "cd")%string /\
  match_data_url "image/jpeg;base64,AAAA" = None.
Proof. repeat split; reflexivity. Qed.

Example Math_round_sample :
  map Math_round [2.5; -2.5; -2.6; 0.49999999999999994; 62.5; 62.49999999999999]%float
  = [3; -2; -3; 0; 63; 62]%float.
Proof. vm_compute. reflexivity. Qed.

(** C5: for the total 0.0803125 kg, which is 0.625 % of 12.85 kg, the
    per-frame analyzer reports the score change 0.63 and the grid analyzer
    reports 0.62: the product by 10000 is rounded to a double below 62.5,
    the two products by 100 are not. *)
Theorem scoreChange_paths_disagree :
  exists g f,
    analyzeGrid (server_reporting 0.0803125) sample_url "10:00:00" "10:00:12" = Returns g /\
    analyzeFrames (server_reporting 0.0803125) [sample_url] ["10:00:00"%string] = Returns f /\
    totalCO2Kg g = f_totalCO2Kg f /\
    scoreChange g = 0.62%float /\
    f_scoreChange f = 0.63%float /\
    scoreChange g <> f_scoreChange f.
Proof.
  eexists _, _. split; [reflexivity|]. split; [reflexivity|].
  split; [reflexivity|]. split; [vm_compute; reflexivity|].
  split; [vm_compute; reflexivity|].
  intros H. apply (f_equal (fun x => PrimFloat.eqb x 0.63%float)) in H.
  vm_compute in H. discriminate.
Qed.

End ScoreChange.

(** ** The bounded capture session *)

Section BoundedSession.

Import JS Queue Bounded Samples.
Open Scope nat_scope.

Lemma captureLoop_invariant ticks : forall accepted collected n frames,
  captureLoop ticks accepted collected = Some (n, frames) ->
  List.length collected = accepted -> accepted <= MAX_FRAMES ->
  List.length frames = n /\ n <= MAX_FRAMES /\ exists more, frames = collected ++ more.
Proof.
  induction ticks as [|t ticks IH]; simpl; intros accepted collected n frames H L B;
    [discriminate|].
  destruct (negb (negb (stopRequested t) && (accepted <? MAX_FRAMES))) eqn:C.
  { injection H as <- <-. repeat split; auto. exists []. now rewrite app_nil_r. }
  destruct (TIMEOUT_SECONDS <=? num_int (elapsed_ms t) / 1000)%float.
  { injection H as <- <-. repeat split; auto. exists []. now rewrite app_nil_r. }
  apply negb_false_iff, andb_true_iff in C as [_ C]. apply Nat.ltb_lt in C.
  destruct (captured t) as [dataUrl|]; [|eauto].
  destruct (check t) as [[[|] msg]|]; eauto.
  apply IH in H.
  - destruct H as (H1 & H2 & more & H3). repeat split; auto.
    exists (mkFrame dataUrl (now t) :: more). now rewrite H3, <- app_assoc.
  - rewrite length_app. simpl. lia.
  - lia.
Qed.

Lemma captureLoop_ends ticks : forall accepted collected,
  existsb loop_exits ticks = true ->
  exists r, captureLoop ticks accepted collected = Some r.
Proof.
  induction ticks as [|t ticks IH]; simpl; intros accepted collected H; [discriminate|].
  destruct (negb (negb (stopRequested t) && (accepted <? MAX_FRAMES))) eqn:C; [eauto|].
  destruct (TIMEOUT_SECONDS <=? num_int (elapsed_ms t) / 1000)%float eqn:T; [eauto|].
  assert (S : stopRequested t = false).
  { apply negb_false_iff, andb_true_iff in C as [C _]. now apply negb_true_iff in C. }
  unfold loop_exits in H. rewrite S, T in H. simpl in H.
  destruct (captured t); [|auto]. destruct (check t) as [[[|] msg]|]; auto.
Qed.

Lemma endStatusText_prefix accepted :
  (String.prefix "✅" (endStatusText accepted)
   || String.prefix "⏱️" (endStatusText accepted)) = true.
Proof. unfold endStatusText. destruct (MAX_FRAMES <=? accepted); reflexivity. Qed.

(** Against C7 as stated: the run that times out with a single frame hands
    that frame to the analysis, in both variants of the bounded session. *)
Lemma partial_batch_is_submitted :
  runCaptureSession timeout_after_one_frame
  = Some (Submitted [mkFrame sample_url "10:00:01"]) /\
  startCaptureLoop timeout_after_one_frame
  = Some (Submitted [mkFrame sample_url "10:00:01"]) /\
  List.length [mkFrame sample_url "10:00:01"] <> MAX_FRAMES.
Proof.
  split; [vm_compute; reflexivity|]. split; [vm_compute; reflexivity|].
  unfold MAX_FRAMES. simpl. lia.
Qed.

(** C7 (amended): a bounded run ends as soon as a stop or the timeout is
    observed; when it ends, by frame count, stop or timeout, the frames
    collected, at most 12 and in capture order, are submitted for analysis
    as they are whenever there is at least one, and nothing is submitted
    when there is none. *)
Theorem bounded_session_submits_collected (ticks : list Tick) :
  (existsb loop_exits ticks = true -> exists e, runCaptureSession ticks = Some e) /\
  forall e, runCaptureSession ticks = Some e ->
    startCaptureLoop ticks = Some e /\
    exists accepted frames,
      captureLoop ticks 0 [] = Some (accepted, frames) /\
      List.length frames = accepted /\ accepted <= MAX_FRAMES /\
      (frames = [] -> e = NoFrames) /\
      (frames <> [] -> e = Submitted frames).
Proof.
  split.
  - intros H. destruct (captureLoop_ends ticks 0 [] H) as [[n frames] E].
    unfold runCaptureSession. rewrite E.
    destruct (List.length frames =? 0); eauto.
  - intros e H. unfold runCaptureSession, startCaptureLoop in *.
    destruct (captureLoop ticks 0 []) as [[n frames]|] eqn:E; [|discriminate].
    destruct (captureLoop_invariant ticks _ _ _ _ E) as (L & B & _); [reflexivity | unfold MAX_FRAMES; lia |].
    unfold autoAnalyze. rewrite endStatusText_prefix. simpl.
    destruct frames as [|f frames]; simpl in *.
    + injection H as <-. split; [reflexivity|].
      exists n, []. repeat split; auto. congruence.
    + injection H as <-. split; [reflexivity|].
      exists n, (f :: frames). repeat split; auto. discriminate.
Qed.

Lemma bounded_session_submits_collected_witness :
  existsb loop_exits timeout_after_one_frame = true /\
  exists e, runCaptureSession timeout_after_one_frame = Some e.
Proof.
  assert (H : existsb loop_exits timeout_after_one_frame = true) by (vm_compute; reflexivity).
  split; [exact H|].
  exact (proj1 (bounded_session_submits_collected timeout_after_one_frame) H).
Defined.

End BoundedSession.

(** ** Failed analyses *)

Section FailedAnalysis.

Import JS Analyzer Queue Samples.
Open Scope nat_scope.

Lemma resume_status job outcome c :
  job < List.length (heap c) ->
  status_of (heap (processAnalysisQueue_resume job outcome c)) job = Some (terminal outcome).
Proof.
  intros L. unfold processAnalysisQueue_resume.
  set (c0 := with_workers (remove_first job (workers c)) c).
  assert (T : forall s, has_status (heap (prune (with_processing false (retire job outcome c0))))
                          s job = status_eqb (terminal outcome) s).
  { intros s. unfold prune. fields. apply retire_has_status_job. exact L. }
  assert (NP : has_status (heap (prune (with_processing false (retire job outcome c0))))
                 pending job = false).
  { rewrite T. destruct outcome; reflexivity. }
  pose proof (drain_keeps_other _ job (terminal outcome) NP) as K.
  rewrite T in K. unfold has_status in K.
  destruct (status_of _ job) as [s|]; [|destruct outcome; discriminate].
  destruct s, outcome; simpl in *; congruence.
Qed.

Lemma resume_error job message c :
  job < List.length (heap c) ->
  option_map error (nth_error (heap (processAnalysisQueue_resume job (Throws message) c)) job)
  = Some (Some message).
Proof.
  intros L. unfold processAnalysisQueue_resume.
  set (c0 := with_workers (remove_first job (workers c)) c).
  assert (NP : has_status (heap (prune (with_processing false (retire job (Throws message) c0))))
                 pending job = false).
  { unfold prune. fields. rewrite retire_has_status_job by exact L. reflexivity. }
  pose proof (drain_nth_error_other _ job NP) as K.
  destruct (nth_error (heap (processAnalysisQueue _)) job) as [j'|];
    unfold prune, retire in K; fields; rewrite !nth_error_update_job, Nat.eqb_refl in K;
    unfold c0 in K; fields;
    destruct (nth_error (heap c) job) as [j|] eqn:E;
    try (apply nth_error_None in E; lia); simpl in K; try discriminate.
  injection K as _ _ _ K. simpl. now rewrite K.
Qed.

Lemma POST_error_keeps srv request logs :
  res_ok (fst (POST srv request logs)) = false -> snd (POST srv request logs) = logs.
Proof.
  unfold POST. destruct (String.eqb (gridImage request) ""); [reflexivity|].
  destruct (analyzeGrid _ _ _ _); [reflexivity|].
  destruct (getDb srv); [reflexivity|]. discriminate.
Qed.

Lemma runAnalysis_throws env url st et logs message logs' :
  runAnalysis env url st et logs = (Throws message, logs') ->
  lost_after_handling (network env) = false -> logs' = logs.
Proof.
  unfold runAnalysis.
  pose proof (POST_error_keeps (server env) (mkGridRequest url st et) logs) as K.
  destruct (POST (server env) (mkGridRequest url st et) logs) as [res l]. simpl in K.
  destruct (network env) as [|[|] m|[|] m]; simpl; try discriminate;
    try (intros [= _ <-] _; reflexivity).
  destruct (res_ok res); simpl; [discriminate|].
  intros [= _ <-] _. now apply K.
Qed.

Lemma runAnalysis_fails env url st et logs :
  res_ok (fst (POST (server env) (mkGridRequest url st et) logs)) = false \/
  network env <> Delivered ->
  exists message, fst (runAnalysis env url st et logs) = Throws message.
Proof.
  unfold runAnalysis.
  destruct (POST (server env) (mkGridRequest url st et) logs) as [res l]. simpl.
  destruct (network env) as [|h m|h m]; simpl; eauto.
  intros [->|N]; [|contradiction]. simpl.
  destruct (http_body res) as [[|a e]|]; simpl; eauto.
Qed.

Lemma runAnalysis_lost env url st et logs message :
  network env = FetchRejects true message \/ network env = JsonRejects true message ->
  runAnalysis env url st et logs
  = (Throws message, snd (POST (server env) (mkGridRequest url st et) logs)).
Proof.
  unfold runAnalysis.
  destruct (POST (server env) (mkGridRequest url st et) logs) as [res l]. simpl.
  intros [-> | ->]; reflexivity.
Qed.

Lemma POST_not_ok srv request logs :
  (exists m, analyzeGrid srv (gridImage request) (r_startTime request) (r_endTime request)
             = Throws m) \/ (exists m, getDb srv = Some m) ->
  res_ok (fst (POST srv request logs)) = false.
Proof.
  intros H. unfold POST. destruct (String.eqb (gridImage request) ""); [reflexivity|].
  destruct (analyzeGrid _ _ _ _); [reflexivity|].
  destruct (getDb srv); [reflexivity|].
  destruct H as [[m H]|[m H]]; discriminate.
Qed.

Lemma analyzeGrid_throws srv url st et :
  has_key (GEMINI_API_KEY srv) = false \/ (exists m, generateContent srv = ModelRejects m) ->
  exists m, analyzeGrid srv url st et = Throws m.
Proof.
  intros H. unfold analyzeGrid. destruct (has_key (GEMINI_API_KEY srv)); simpl; [|eauto].
  destruct (match_data_url url); [|eauto].
  destruct (generateContent srv); [eauto|].
  destruct H as [H|[m H]]; discriminate.
Qed.

Lemma unparsable_scoreChange :
  (Math_round ((0 / 12.85) * 10000) / 100 = 0)%float.
Proof. vm_compute. reflexivity. Qed.

(** C6 (amended): when the analysis of a batch throws - the grid cannot be
    composed, the credential is missing, the model call rejects, the store
    cannot be reached, the request fails or its answer cannot be read - the
    batch becomes "failed" with the message attached.  No record is stored
    and the cumulative score is unchanged, unless the route had handled
    the request and its answer was lost or unreadable: then the batch is
    "failed" and the store is as the route left it.  When the text of the
    model cannot be parsed, the analyzer substitutes an empty result of
    0 kg: the batch whose answer is delivered becomes "complete" and a
    record with score change 0 is stored. *)
Theorem failed_analysis_keeps_score (job : nat) (env : AnalysisEnv) (w : World) (j : GridJob) :
  nth_error (heap (client w)) job = Some j ->
  (forall message logs, analysis_outcome env job w = (Throws message, logs) ->
     status_of (heap (client (worker_resume job env w))) job = Some failed /\
     option_map error (nth_error (heap (client (worker_resume job env w))) job)
     = Some (Some message) /\
     (lost_after_handling (network env) = false ->
      carbonLogs (worker_resume job env w) = carbonLogs w /\
      forall srv, GET srv (carbonLogs (worker_resume job env w)) = GET srv (carbonLogs w))) /\
  (createGridDataUrl env (frames j) = None \/
   has_key (GEMINI_API_KEY (server env)) = false \/
   (exists m, generateContent (server env) = ModelRejects m) \/
   (exists m, getDb (server env) = Some m) \/
   network env <> Delivered ->
   exists message, fst (analysis_outcome env job w) = Throws message) /\
  (forall url message,
     createGridDataUrl env (frames j) = Some url ->
     network env = FetchRejects true message \/ network env = JsonRejects true message ->
     status_of (heap (client (worker_resume job env w))) job = Some failed /\
     option_map error (nth_error (heap (client (worker_resume job env w))) job)
     = Some (Some message) /\
     carbonLogs (worker_resume job env w)
     = snd (POST (server env) (mkGridRequest url (startTime j) (endTime j)) (carbonLogs w))) /\
  (forall url text,
     createGridDataUrl env (frames j) = Some url -> match_data_url url <> None ->
     has_key (GEMINI_API_KEY (server env)) = true -> getDb (server env) = None ->
     generateContent (server env) = ModelText text None ->
     network env = Delivered ->
     status_of (heap (client (worker_resume job env w))) job = Some complete /\
     exists doc, carbonLogs (worker_resume job env w) = carbonLogs w ++ [doc] /\
       l_totalCO2Kg doc = 0%float /\ l_scoreChange doc = 0%float /\ l_activities doc = []).
Proof.
  intros Hj.
  assert (L : job < List.length (heap (client w))) by (apply nth_error_Some; congruence).
  split; [|split; [|split]].
  - intros message logs Ho.
    unfold worker_resume. rewrite Ho. cbn [client carbonLogs].
    split; [apply (resume_status job (Throws message)); exact L|].
    split; [apply resume_error; exact L|].
    intros N.
    assert (Hl : logs = carbonLogs w).
    { unfold analysis_outcome in Ho. rewrite Hj in Ho.
      destruct (createGridDataUrl env (frames j)) as [url|]; [|now injection Ho as _ <-].
      now apply runAnalysis_throws in Ho. }
    subst logs. split; auto.
  - intros H. unfold analysis_outcome. rewrite Hj.
    destruct (createGridDataUrl env (frames j)) as [url|] eqn:U; [|simpl; eauto].
    apply runAnalysis_fails.
    destruct H as [H|[H|[H|[H|H]]]]; [discriminate | | | | right; exact H];
      left; apply POST_not_ok; cbn [gridImage r_startTime r_endTime];
      [left; apply analyzeGrid_throws; auto | left; apply analyzeGrid_throws; auto
       | right; exact H].
  - intros url message Hu Hn.
    assert (Ho : analysis_outcome env job w
                 = (Throws message,
                    snd (POST (server env) (mkGridRequest url (startTime j) (endTime j))
                              (carbonLogs w)))).
    { unfold analysis_outcome. rewrite Hj, Hu. now apply runAnalysis_lost. }
    unfold worker_resume. rewrite Ho. cbn [client carbonLogs].
    split; [apply (resume_status job (Throws message)); exact L|].
    split; [apply resume_error; exact L|reflexivity].
  - intros url text Hu Hm Hk Hd Hg Hn.
    assert (Ho : analysis_outcome env job w
                 = (Returns (ScoreBody true
                      (Math_round ((sumScoreChange (todayLogs (server env) (carbonLogs w)) + 0)
                                   * 100) / 100)%float),
                    carbonLogs w ++ [mkLogDoc ("Parse failed: " ++ String.substring 0 100 text)
                                       [] 0%float 0%float (startTime j) (endTime j)
                                       (today (server env))])).
    { unfold analysis_outcome. rewrite Hj, Hu. unfold runAnalysis, POST. rewrite Hn.
      assert (Hne : String.eqb url "" = false).
      { destruct url; [exfalso; apply Hm; reflexivity | reflexivity]. }
      cbn [gridImage r_startTime r_endTime].
      rewrite Hne. unfold analyzeGrid. rewrite Hk. simpl negb. cbv iota.
      destruct (match_data_url url); [|contradiction].
      rewrite Hg, Hd. cbn [p_totalCO2Kg p_summary p_activities scoreChange summary activities
                           totalCO2Kg Analyzer.startTime Analyzer.endTime].
      rewrite unparsable_scoreChange. reflexivity. }
    unfold worker_resume. rewrite Ho. cbn [client carbonLogs]. split.
    + apply (resume_status job (Returns _)). exact L.
    + eexists. split; [reflexivity|]. auto.
Qed.

(** Against C6 as stated: a batch whose analysis text cannot be parsed is
    retired as "complete", not as "failed", and a record is stored for it. *)
Lemma unparsable_response_completes :
  let before := world_after [Enqueue sample_frames "10:00:00" "10:00:12"] in
  let after := worker_resume 0 (canvas_with server_unparsable) before in
  generateContent server_unparsable = ModelText "I see a car." None /\
  status_of (heap (client before)) 0 = Some analyzing /\
  status_of (heap (client after)) 0 = Some complete /\
  status_of (heap (client after)) 0 <> Some failed /\
  List.length (carbonLogs before) = 0 /\ List.length (carbonLogs after) = 1.
Proof.
  cbv zeta. repeat split; try (vm_compute; reflexivity).
  vm_compute. discriminate.
Qed.

(** Also against C6 as stated: when the answer of the route is lost on its
    way back, the batch is retired as "failed" although its record has been
    stored, and the cumulative score of the day has changed. *)
Example lost_answer_fails_after_store :
  let before := world_after [Enqueue sample_frames "10:00:00" "10:00:12"] in
  let after := worker_resume 0 (answer_lost (server_reporting 0.85)) before in
  status_of (heap (client after)) 0 = Some failed /\
  option_map error (nth_error (heap (client after)) 0) = Some (Some "Failed to fetch"%string) /\
  GET (server_reporting 0.85) (carbonLogs before) = (0%float, 0) /\
  GET (server_reporting 0.85) (carbonLogs after) = (6.61%float, 1).
Proof. cbv zeta. repeat split; vm_compute; reflexivity. Qed.

Lemma failed_analysis_keeps_score_witness :
  status_of (heap (client (worker_resume 0 (canvas_with server_rejecting)
       (world_after [Enqueue sample_frames "10:00:00" "10:00:12"])))) 0 = Some failed.
Proof.
  assert (Hj : nth_error (heap (client (world_after [Enqueue sample_frames "10:00:00" "10:00:12"]))) 0
               = Some (mkJob 1 sample_frames "10:00:00" "10:00:12" analyzing None None))
    by (vm_compute; reflexivity).
  assert (Ho : analysis_outcome (canvas_with server_rejecting) 0
                 (world_after [Enqueue sample_frames "10:00:00" "10:00:12"])
               = (Throws "Analysis failed: 503 Service Unavailable", []))
    by (vm_compute; reflexivity).
  exact (proj1 (proj1 (failed_analysis_keeps_score 0 (canvas_with server_rejecting) _ _ Hj)
                  _ _ Ho)).
Defined.

End FailedAnalysis.


(** ** The continuous driver *)

Section ContinuousDriver.

Import Analyzer Queue Continuous Samples.
Open Scope nat_scope.

Lemma resume_log job outcome c :
  exists e, addLog_calls (processAnalysisQueue_resume job outcome c) = addLog_calls c ++ [e] /\
            e <> LogQueueFull.
Proof.
  unfold processAnalysisQueue_resume.
  destruct (drain_fields (prune (with_processing false
              (retire job outcome (with_workers (remove_first job (workers c)) c)))))
    as (_ & -> & _).
  unfold prune. fields. destruct outcome; unfold retire; fields; eexists; split;
    try reflexivity; discriminate.
Qed.

Lemma enqueue_accepts fs st et c :
  pendingCount c < MAX_PENDING_JOBS ->
  snd (queueGridForAnalysis fs st et c) = true /\
  addLog_calls (fst (queueGridForAnalysis fs st et c))
  = addLog_calls c ++ [LogQueued (jobIdCounterRef c + 1)].
Proof.
  intros Free. rewrite queueGridForAnalysis_unfold.
  apply Nat.leb_gt in Free. rewrite Free. cbn [fst snd]. split; [reflexivity|].
  destruct (drain_fields (pushed fs st et c)) as (_ & -> & _). reflexivity.
Qed.

Lemma inner_body_inv env g s :
  ~ In LogQueueFull (addLog_calls (client (world s))) ->
  accepted g = List.length (collectedFrames g) -> accepted g < MAX_FRAMES ->
  (0 < accepted g -> pendingCount (client (world s)) < MAX_PENDING_JOBS) ->
  driver_inv (fst (inner_body env g s)).
Proof.
  intros NL E B P. unfold inner_body.
  destruct (MAX_PENDING_JOBS <=? pendingCount (client (world s))) eqn:Full; simpl.
  - destruct (accepted g =? 0) eqn:Z; simpl.
    + split; [exact NL|]. repeat split; auto; lia.
    + apply Nat.eqb_neq in Z. apply Nat.leb_le in Full.
      assert (pendingCount (client (world s)) < MAX_PENDING_JOBS) by (apply P; lia). lia.
  - apply Nat.leb_gt in Full.
    destruct (captured env) as [m|[dataUrl|]]; simpl; (split; [exact NL|]);
      repeat split; auto; lia.
Qed.

Lemma outer_top_inv env g s :
  ~ In LogQueueFull (addLog_calls (client (world s))) ->
  driver_inv (fst (outer_top env g s)).
Proof.
  intros NL. unfold outer_top. destruct (stopRequestedRef (driver s)).
  - split; [exact NL | exact I].
  - apply inner_body_inv; simpl; auto; unfold MAX_FRAMES; lia.
Qed.

Lemma after_inner_inv env g s :
  ~ In LogQueueFull (addLog_calls (client (world s))) ->
  accepted g = List.length (collectedFrames g) ->
  (0 < accepted g -> pendingCount (client (world s)) < MAX_PENDING_JOBS) ->
  driver_inv (fst (after_inner env g s)).
Proof.
  intros NL E P. unfold after_inner.
  destruct (stopRequestedRef (driver s) && (List.length (collectedFrames g) <? MAX_FRAMES)).
  - split; [exact NL | exact I].
  - destruct (List.length (collectedFrames g) =? MAX_FRAMES) eqn:Full.
    + apply Nat.eqb_eq in Full. split; [|exact I].
      assert (Free : pendingCount (client (world s)) < MAX_PENDING_JOBS)
        by (apply P; unfold MAX_FRAMES in Full; lia).
      destruct (enqueue_accepts (collectedFrames g) (gridStartTime g) (now env)
                  (client (world s)) Free) as [_ El].
      cbn [fst world client with_pc with_client]. rewrite El.
      intros H. apply in_app_or in H as [H|[H|[]]]; [auto | discriminate].
    + now apply outer_top_inv.
Qed.

Lemma after_reset_inv env g s :
  ~ In LogQueueFull (addLog_calls (client (world s))) ->
  driver_inv (fst (after_reset env g s)).
Proof.
  intros NL. unfold after_reset. destruct (reset env).
  - split; [exact NL | exact I].
  - now apply outer_top_inv.
Qed.

Lemma driver_resume_inv env s : driver_inv s -> driver_inv (fst (driver_resume env s)).
Proof.
  intros [NL Hpc]. unfold driver_resume.
  destruct (pc (driver s)) as [| | g | g dataUrl | g] eqn:Epc.
  - simpl. split; [exact NL|]. now rewrite Epc.
  - now apply after_reset_inv.
  - destruct Hpc as (E & B & P). unfold inner_top.
    destruct (negb (stopRequestedRef (driver s)) && (accepted g <? MAX_FRAMES)) eqn:C.
    + apply andb_true_iff in C as [_ C]. apply Nat.ltb_lt in C.
      now apply inner_body_inv.
    + now apply after_inner_inv.
  - destruct Hpc as (E & B & P). simpl. split; [exact NL|].
    unfold after_check. destruct (check env) as [[[|] msg]|]; simpl;
      rewrite ?length_app; simpl; repeat split; auto; lia.
  - now apply after_reset_inv.
Qed.

Lemma reachable_driver_inv s : Continuous.reachable s -> driver_inv s.
Proof.
  induction 1 as [|a s s' Hr IH Hs].
  - split; simpl; auto.
  - destruct a as [| | env | job env]; simpl in Hs.
    + injection Hs as <-. unfold start. destruct (sessionActiveRef (driver s)); [exact IH|].
      destruct IH as [NL _]. split; simpl; auto.
    + injection Hs as <-. destruct IH as [NL Hpc]. split; [exact NL|]. exact Hpc.
    + destruct (pc (driver s)) eqn:Epc; try discriminate;
        injection Hs as <-; now apply driver_resume_inv.
    + destruct (existsb (Nat.eqb job) (workers (client (world s)))); [|discriminate].
      injection Hs as <-. destruct IH as [NL Hpc].
      unfold worker_resume. destruct (analysis_outcome env job (world s)) as [outcome logs].
      pose proof (pendingCount_resume job outcome (client (world s))) as Le.
      destruct (resume_log job outcome (client (world s))) as (e & El & Ne).
      split; cbn [world client driver].
      * rewrite El. intros H. apply in_app_or in H as [H|[H|[]]]; [auto | congruence].
      * destruct (pc (driver s)); auto.
        -- destruct Hpc as (E & B & P). repeat split; auto. intros Z. specialize (P Z). lia.
        -- destruct Hpc as (E & B & P). repeat split; auto. lia.
Qed.


Lemma drain_frames c x :
  option_map frames (nth_error (heap (processAnalysisQueue c)) x)
  = option_map frames (nth_error (heap c) x).
Proof.
  unfold processAnalysisQueue. destruct (processingRef c); [auto|].
  destruct (find _ _) as [job|]; [|reflexivity]. fields.
  rewrite nth_error_update_job. destruct (x =? job); [|reflexivity].
  destruct (nth_error (heap c) x); reflexivity.
Qed.

Lemma enqueue_appends fs st et c :
  pendingCount c < MAX_PENDING_JOBS ->
  analysisQueueRef (fst (queueGridForAnalysis fs st et c))
  = analysisQueueRef c ++ [List.length (heap c)] /\
  option_map frames (nth_error (heap (fst (queueGridForAnalysis fs st et c)))
                               (List.length (heap c))) = Some fs.
Proof.
  intros Free. rewrite queueGridForAnalysis_unfold.
  apply Nat.leb_gt in Free. rewrite Free. cbn [fst].
  destruct (drain_fields (pushed fs st et c)) as (-> & _). split; [reflexivity|].
  rewrite drain_frames. unfold pushed. fields.
  rewrite nth_error_app2 by lia. now rewrite Nat.sub_diag.
Qed.

Lemma with_pc_same s p : pc (driver s) = p -> with_pc p s = s.
Proof. destruct s as [w [a b q]]. simpl. now intros ->. Qed.

Lemma run_session_reachable acts : forall s,
  Continuous.reachable s -> Continuous.reachable (run_session acts s).
Proof.
  induction acts as [|a acts IH]; simpl; intros s R; [exact R|].
  destruct (Continuous.step a s) as [s'|] eqn:E; [|exact R].
  apply IH. eapply Continuous.reach_step; eauto.
Qed.

(** C8: in the continuous session no enqueue is ever refused and no frame
    check is in flight while the queue is at capacity.  While the driver is
    at the top of its inner loop with the queue at capacity it holds no
    frame, and resuming it samples nothing, changes nothing and waits
    5000 ms before testing the queue again; when it is there with 12
    frames, resuming it queues exactly these frames as a new job. *)
Theorem continuous_driver_keeps_batches (s : System) :
  Continuous.reachable s ->
  ~ In LogQueueFull (addLog_calls (client (world s))) /\
  (forall g dataUrl, pc (driver s) = AwaitCheck g dataUrl ->
     pendingCount (client (world s)) < MAX_PENDING_JOBS) /\
  forall g env, pc (driver s) = InnerTop g ->
    accepted g = List.length (collectedFrames g) /\
    (stopRequestedRef (driver s) = false ->
     MAX_PENDING_JOBS <= pendingCount (client (world s)) ->
     collectedFrames g = [] /\ driver_resume env s = (s, Some 5000)) /\
    (List.length (collectedFrames g) = MAX_FRAMES ->
     snd (queueGridForAnalysis (collectedFrames g) (gridStartTime g) (now env)
                               (client (world s))) = true /\
     driver_resume env s
     = (with_pc (AwaitGridReset g)
          (with_client
             (fst (queueGridForAnalysis (collectedFrames g) (gridStartTime g) (now env)
                                        (client (world s)))) s), None) /\
     analysisQueueRef (client (world (fst (driver_resume env s))))
     = analysisQueueRef (client (world s)) ++ [List.length (heap (client (world s)))] /\
     option_map frames
       (nth_error (heap (client (world (fst (driver_resume env s)))))
                  (List.length (heap (client (world s)))))
     = Some (collectedFrames g)).
Proof.
  intros R. destruct (reachable_driver_inv s R) as [NL Hpc]. split; [exact NL|].
  split; [intros g dataUrl Epc; rewrite Epc in Hpc; tauto|].
  intros g env Epc. rewrite Epc in Hpc. destruct Hpc as (E & B & P).
  split; [exact E|]. split.
  - intros St Full.
    assert (Z : accepted g = 0) by (destruct (accepted g); [reflexivity | exfalso; lia]).
    split; [destruct (collectedFrames g); [reflexivity | simpl in E; lia]|].
    unfold driver_resume. rewrite Epc. unfold inner_top. rewrite St, Z. simpl.
    unfold inner_body. apply Nat.leb_le in Full. rewrite Full, Z. simpl.
    now rewrite with_pc_same.
  - intros Len.
    assert (Free : pendingCount (client (world s)) < MAX_PENDING_JOBS)
      by (apply P; unfold MAX_FRAMES in Len; lia).
    assert (D : driver_resume env s
                = (with_pc (AwaitGridReset g)
                     (with_client
                        (fst (queueGridForAnalysis (collectedFrames g) (gridStartTime g)
                                (now env) (client (world s)))) s), None)).
    { unfold driver_resume. rewrite Epc. unfold inner_top.
      replace (accepted g <? MAX_FRAMES) with false
        by (symmetry; apply Nat.ltb_ge; lia).
      rewrite andb_false_r. unfold after_inner.
      replace (List.length (collectedFrames g) <? MAX_FRAMES) with false
        by (symmetry; apply Nat.ltb_ge; lia).
      rewrite andb_false_r. rewrite Len, Nat.eqb_refl. reflexivity. }
    split; [apply enqueue_accepts; exact Free|]. split; [exact D|].
    rewrite D. cbn [fst world client with_pc with_client].
    apply enqueue_appends. exact Free.
Qed.

Lemma continuous_driver_keeps_batches_witness :
  Continuous.reachable (run_session sample_session initial_system) /\
  List.length (analysisQueueRef (client (world (fst (driver_resume accepting
                 (run_session sample_session initial_system)))))) = 1.
Proof.
  assert (R : Continuous.reachable (run_session sample_session initial_system))
    by (apply run_session_reachable; constructor).
  split; [exact R|].
  destruct (continuous_driver_keeps_batches _ R) as (_ & _ & K).
  assert (Epc : exists g, pc (driver (run_session sample_session initial_system)) = InnerTop g
                          /\ List.length (collectedFrames g) = MAX_FRAMES).
  { eexists. split; vm_compute; reflexivity. }
  destruct Epc as (g & Epc & Len).
  destruct (K g accepting Epc) as (_ & _ & F).
  destruct (F Len) as (_ & _ & Q & _). rewrite Q. vm_compute. reflexivity.
Defined.

End ContinuousDriver.

(** ** Further properties: the Hamming distance *)

Section DistanceProperties.

Import JS Phash Compare.
Open Scope nat_scope.

Lemma count_fold (f : nat -> bool) l n :
  fold_left (fun d i => if f i then S d else d) l n = n + List.length (filter f l).
Proof.
  revert n. induction l as [|a l IH]; simpl; intros n; [lia|].
  rewrite IH. destruct (f a); simpl; lia.
Qed.

Lemma hammingDistance_differing a b :
  String.length a = String.length b ->
  hammingDistance a b = Some (List.length (differing a b)).
Proof.
  intros L. unfold hammingDistance, differing. rewrite L, Nat.eqb_refl. simpl.
  rewrite <- L. now rewrite count_fold.
Qed.

Lemma char_differs_sym a b i : char_differs a b i = char_differs b a i.
Proof.
  unfold char_differs. destruct (String.get i a), (String.get i b); auto.
  now rewrite Ascii.eqb_sym.
Qed.

Lemma char_differs_false a b i :
  char_differs a b i = false <-> String.get i a = String.get i b.
Proof.
  unfold char_differs. destruct (String.get i a) as [x|], (String.get i b) as [y|];
    split; intros H; try discriminate; auto.
  - apply negb_false_iff, Ascii.eqb_eq in H. now subst.
  - injection H as ->. now rewrite Ascii.eqb_refl.
Qed.

Lemma char_differs_triangle a b c i :
  char_differs a c i = true -> char_differs a b i = true \/ char_differs b c i = true.
Proof.
  intros H. destruct (char_differs a b i) eqn:E1; [auto|].
  destruct (char_differs b c i) eqn:E2; [auto|].
  apply char_differs_false in E1, E2.
  assert (char_differs a c i = false) by (apply char_differs_false; congruence).
  congruence.
Qed.

Lemma get_beyond s i : String.length s <= i -> String.get i s = None.
Proof.
  revert i. induction s as [|c s IH]; intros i L; simpl in *.
  - destruct i; reflexivity.
  - destruct i; [lia|]. apply IH. lia.
Qed.

Lemma filter_or_length (f g h : nat -> bool) l :
  (forall i, f i = true -> g i = true \/ h i = true) ->
  List.length (filter f l) <= List.length (filter g l) + List.length (filter h l).
Proof.
  intros H. induction l as [|a l IH]; simpl; [lia|].
  destruct (f a) eqn:F; simpl.
  - destruct (H a F) as [G|G]; rewrite G; simpl; destruct (g a), (h a); simpl; lia.
  - destruct (g a), (h a); simpl; lia.
Qed.

(** X1: the distance is defined exactly when the two strings have the same
    length (otherwise the function throws), and it never exceeds that
    length. *)
Theorem hammingDistance_defined_iff (a b : string) :
  (hammingDistance a b = None <-> String.length a <> String.length b) /\
  (forall d, hammingDistance a b = Some d -> d <= String.length a).
Proof.
  split.
  - unfold hammingDistance. destruct (String.length a =? String.length b) eqn:E; simpl.
    + apply Nat.eqb_eq in E. split; [discriminate | contradiction].
    + apply Nat.eqb_neq in E. split; auto.
  - intros d H. destruct (Nat.eq_dec (String.length a) (String.length b)) as [L|L].
    + rewrite (hammingDistance_differing a b L) in H. injection H as <-.
      unfold differing. etransitivity; [apply filter_length_le|]. now rewrite length_seq.
    + unfold hammingDistance in H. apply Nat.eqb_neq in L. rewrite L in H. discriminate.
Qed.

(** X2: on strings of one length the distance is a metric: it is 0 exactly
    between equal strings, it is symmetric, and it satisfies the triangle
    inequality. *)
Theorem hammingDistance_metric (a b c : string) :
  String.length a = String.length b -> String.length b = String.length c ->
  exists dab dba dbc dac,
    hammingDistance a b = Some dab /\ hammingDistance b a = Some dba /\
    hammingDistance b c = Some dbc /\ hammingDistance a c = Some dac /\
    (dab = 0 <-> a = b) /\ dab = dba /\ dac <= dab + dbc.
Proof.
  intros Lab Lbc.
  exists (List.length (differing a b)), (List.length (differing b a)),
         (List.length (differing b c)), (List.length (differing a c)).
  repeat split; try (apply hammingDistance_differing; congruence).
  - intros Z. apply String.get_correct. intros i.
    destruct (Nat.lt_ge_cases i (String.length a)) as [Li|Li].
    + apply char_differs_false.
      destruct (char_differs a b i) eqn:E; [|reflexivity].
      assert (In i (differing a b))
        by (unfold differing; apply filter_In; split; [apply in_seq; lia | exact E]).
      destruct (differing a b); [contradiction | discriminate].
    + rewrite !get_beyond by lia. reflexivity.
  - intros <-. unfold differing. rewrite filter_none; [reflexivity|].
    apply Forall_forall. intros i _. now apply char_differs_false.
  - unfold differing. rewrite Lab. f_equal. apply filter_ext. intros i.
    apply char_differs_sym.
  - unfold differing. rewrite <- Lab. apply filter_or_length. intros i.
    apply char_differs_triangle.
Qed.

Lemma hammingDistance_metric_witness :
  exists dab dba dbc dac,
    hammingDistance "0101" "0011" = Some dab /\ hammingDistance "0011" "0101" = Some dba /\
    hammingDistance "0011" "1111" = Some dbc /\ hammingDistance "0101" "1111" = Some dac /\
    (dab = 0 <-> "0101"%string = "0011"%string) /\ dab = dba /\ dac <= dab + dbc.
Proof.
  exact (hammingDistance_metric "0101" "0011" "1111" eq_refl eq_refl).
Defined.

End DistanceProperties.


(** ** Further properties: hashes and the check-image route *)

Section HashShape.

Import JS Phash Compare CheckImage CheckImageCalls.
Open Scope nat_scope.

Variable Math_cos : float -> float.
Variable Buffer : Type.
Variable sharp : Buffer -> option RawImage.

(** X3: whatever the decoder returns - any width, any number of bytes -
    the hash is a string of exactly 64 characters, each of them 0 or 1. *)
Theorem computeHash_is_64_bits (file : Buffer) (h : string) :
  computeHash Math_cos sharp file = Some h ->
  String.length h = 64 /\
  forall i c, String.get i h = Some c -> c = "0"%char \/ c = "1"%char.
Proof.
  intros H. split; [eapply computeHash_length; eauto|].
  unfold computeHash in H. destruct (sharp file) as [raw|]; [|discriminate].
  injection H as <-. intros i c. unfold hashOfRaw.
  rewrite hashBits_chars, get_string_of_list, nth_error_map.
  destruct (nth_error _ i); simpl; [|discriminate].
  intros [= <-]. unfold bit_char. destruct (_ <=? _)%float; auto.
Qed.

(** X4: comparing two images never fails once both are decoded, the
    result is at most 64, and an image is at distance 0 from itself. *)
Theorem compareHashes_defined (file1 file2 : Buffer) :
  sharp file1 <> None -> sharp file2 <> None ->
  (exists d, compareHashes Math_cos sharp file1 file2 = Some d /\ d <= 64) /\
  compareHashes Math_cos sharp file1 file1 = Some 0.
Proof.
  intros D1 D2. unfold compareHashes.
  destruct (computeHash Math_cos sharp file1) as [h1|] eqn:H1;
    [|unfold computeHash in H1; destruct (sharp file1); [discriminate | contradiction]].
  destruct (computeHash Math_cos sharp file2) as [h2|] eqn:H2;
    [|unfold computeHash in H2; destruct (sharp file2); [discriminate | contradiction]].
  pose proof (computeHash_length _ _ _ _ _ H1) as L1.
  pose proof (computeHash_length _ _ _ _ _ H2) as L2.
  split.
  - rewrite hammingDistance_differing by congruence. eexists. split; [reflexivity|].
    unfold differing. etransitivity; [apply filter_length_le|]. rewrite length_seq. lia.
  - rewrite hammingDistance_differing by reflexivity. f_equal.
    unfold differing. rewrite filter_none; [reflexivity|].
    apply Forall_forall. intros i _. now apply char_differs_false.
Qed.

Lemma POST_reference_ok request lastHash :
  reference_ok lastHash -> reference_ok (snd (POST Math_cos sharp request lastHash)).
Proof.
  intros R. destruct request as [|[file|]]; cbn [POST snd]; auto.
  destruct (computeHash Math_cos sharp file) as [h|] eqn:H; cbn [snd]; auto.
  pose proof (computeHash_length _ _ _ _ _ H) as L.
  assert (Rh : reference_ok (Some h)) by (intros r Hr; injection Hr as <-; exact L).
  destruct (no_reference lastHash); cbn [snd]; [exact Rh|].
  destruct (hammingDistance _ h); cbn [snd]; auto.
  destruct (SIMILARITY_THRESHOLD <=? n); auto.
Qed.

Lemma lastHash_after_ok calls : forall lastHash,
  reference_ok lastHash -> reference_ok (lastHash_after Math_cos sharp calls lastHash).
Proof.
  induction calls as [|call calls IH]; simpl; intros lastHash R; [exact R|].
  apply IH. destruct call as [request|]; simpl.
  - pose proof (POST_reference_ok request lastHash R) as K.
    destruct (POST Math_cos sharp request lastHash). exact K.
  - intros r H. discriminate.
Qed.

(** X5: after any sequence of requests from a fresh server, a POST answers
    with an error only when the body is no form, the form has no image or
    the image cannot be decoded: the comparison of the two hashes never
    throws. *)
Theorem check_image_errors_only_on_input (calls : list (Call Buffer))
    (request : Request Buffer) :
  let lastHash := lastHash_after Math_cos sharp calls None in
  is_error (fst (POST Math_cos sharp request lastHash)) = true <->
  request = BadForm \/ request = Form None \/
  exists file, request = Form (Some file) /\ sharp file = None.
Proof.
  intros lastHash.
  assert (R : reference_ok lastHash)
    by (apply lastHash_after_ok; intros r H; discriminate).
  destruct request as [|[file|]]; simpl.
  - split; auto.
  - destruct (computeHash Math_cos sharp file) as [h|] eqn:H.
    + pose proof (computeHash_length _ _ _ _ _ H) as L.
      assert (D : sharp file <> None)
        by (unfold computeHash in H; destruct (sharp file); discriminate).
      destruct (no_reference lastHash) eqn:N; simpl.
      * split; [discriminate|]. intros [E|[E|(f & E & S)]]; try discriminate.
        injection E as <-. contradiction.
      * destruct lastHash as [r|]; [|discriminate].
        destruct (hammingDistance_defined r h) as [d Hd]; [rewrite (R r eq_refl); auto|].
        rewrite Hd. simpl. split; [discriminate|].
        intros [E|[E|(f & E & S)]]; try discriminate. injection E as <-. contradiction.
    + simpl. split; auto. intros _. right. right. exists file. split; auto.
      unfold computeHash in H. destruct (sharp file); [discriminate | reflexivity].
  - split; auto.
Qed.

(** X6: a frame is never accepted twice in a row: when the same decodable
    image is posted again, the second answer is a rejection that leaves the
    reference alone; its distance is 0 if the first request was accepted,
    and it repeats the first answer otherwise. *)
Theorem same_frame_twice_rejected (file : Buffer) (lastHash : option string) :
  sharp file <> None -> reference_ok lastHash ->
  let first := POST Math_cos sharp (Form (Some file)) lastHash in
  let second := POST Math_cos sharp (Form (Some file)) (snd first) in
  accepted (fst second) = false /\ is_error (fst second) = false /\
  snd second = snd first /\
  (accepted (fst first) = true -> distance_of (fst second) = Some 0) /\
  (accepted (fst first) = false -> fst second = fst first).
Proof.
  intros D R. cbv zeta.
  destruct (computeHash Math_cos sharp file) as [h|] eqn:H;
    [|unfold computeHash in H; destruct (sharp file); [discriminate | contradiction]].
  pose proof (computeHash_length _ _ _ _ _ H) as L.
  assert (Hhh : hammingDistance h h = Some 0).
  { rewrite hammingDistance_differing by reflexivity. f_equal.
    unfold differing. rewrite filter_none; [reflexivity|].
    apply Forall_forall. intros i _. now apply char_differs_false. }
  assert (Hne : no_reference (Some h) = false) by (destruct h; [discriminate | reflexivity]).
  cbn [POST]. rewrite H.
  destruct (no_reference lastHash) eqn:N; cbn [fst snd].
  - rewrite Hne, Hhh. cbn. repeat split; auto. discriminate.
  - destruct lastHash as [r|]; [|discriminate].
    destruct (hammingDistance_defined r h) as [d Hd]; [rewrite (R r eq_refl); auto|].
    rewrite Hd. destruct (SIMILARITY_THRESHOLD <=? d) eqn:T; cbn [fst snd].
    + rewrite Hne, Hhh. cbn. repeat split; auto. discriminate.
    + rewrite N, Hd, T. cbn. repeat split; auto. discriminate.
Qed.

(** X7: after a reset the next decodable frame is accepted as the first
    one, whatever was stored; frames that are not accepted, and failed
    requests, leave the reference where it was. *)
Theorem reset_and_rejections (file : Buffer) (h : string) (lastHash : option string)
    (requests : list (Request Buffer)) :
  computeHash Math_cos sharp file = Some h ->
  POST Math_cos sharp (Form (Some file)) (DELETE lastHash)
  = (CheckJson true None "First image — accepted", Some h) /\
  (forallb (fun request => negb (accepted (fst (POST Math_cos sharp request lastHash))))
           requests = true ->
   lastHash_after Math_cos sharp (map (@CallPOST Buffer) requests) lastHash = lastHash).
Proof.
  intros H. split; [simpl; now rewrite H|].
  induction requests as [|request requests IH]; simpl; [reflexivity|].
  intros F. apply andb_true_iff in F as [F1 F2]. apply negb_true_iff in F1.
  assert (E : snd (POST Math_cos sharp request lastHash) = lastHash).
  { destruct request as [|[f|]]; simpl in *; auto.
    destruct (computeHash Math_cos sharp f); simpl in *; auto.
    destruct (no_reference lastHash); simpl in *; [discriminate|].
    destruct (hammingDistance _ _); simpl in *; auto.
    now rewrite F1. }
  destruct (POST Math_cos sharp request lastHash) as [resp l]. simpl in E. subst l.
  simpl. now apply IH.
Qed.

End HashShape.

Section HashShapeExamples.

Import JS Phash Compare CheckImage CheckImageCalls.
Open Scope nat_scope.

Lemma computeHash_is_64_bits_witness :
  computeHash sample_cos sample_decoder 1 = Some sample_hash /\
  String.length sample_hash = 64.
Proof.
  assert (H : computeHash sample_cos sample_decoder 1 = Some sample_hash)
    by (vm_compute; reflexivity).
  split; [exact H|].
  exact (proj1 (computeHash_is_64_bits sample_cos nat sample_decoder 1 sample_hash H)).
Defined.

Lemma compareHashes_defined_witness :
  sample_decoder 1 <> None /\ sample_decoder 2 <> None /\
  compareHashes sample_cos sample_decoder 1 1 = Some 0.
Proof.
  assert (D1 : sample_decoder 1 <> None) by (simpl; discriminate).
  assert (D2 : sample_decoder 2 <> None) by (simpl; discriminate).
  split; [exact D1|]. split; [exact D2|].
  exact (proj2 (compareHashes_defined sample_cos nat sample_decoder 1 2 D1 D2)).
Defined.

Lemma same_frame_twice_rejected_witness :
  sample_decoder 1 <> None /\ reference_ok None /\
  accepted (fst (POST sample_cos sample_decoder (Form (Some 1))
                   (snd (POST sample_cos sample_decoder (Form (Some 1)) None)))) = false.
Proof.
  assert (D : sample_decoder 1 <> None) by (simpl; discriminate).
  assert (R : reference_ok None) by (intros r H; discriminate).
  split; [exact D|]. split; [exact R|].
  pose proof (same_frame_twice_rejected sample_cos nat sample_decoder 1 None D R) as K.
  cbv zeta in K. exact (proj1 K).
Defined.

Lemma reset_and_rejections_witness :
  computeHash sample_cos sample_decoder 1 = Some sample_hash /\
  POST sample_cos sample_decoder (Form (Some 1)) (DELETE (Some sample_hash))
  = (CheckJson true None "First image — accepted", Some sample_hash).
Proof.
  assert (H : computeHash sample_cos sample_decoder 1 = Some sample_hash)
    by (vm_compute; reflexivity).
  split; [exact H|].
  exact (proj1 (reset_and_rejections sample_cos nat sample_decoder 1 sample_hash
                  (Some sample_hash) [] H)).
Defined.

End HashShapeExamples.


(** ** Further properties: the data URL of a grid *)

Section DataUrl.

Import JS Analyzer GridStore Samples.
Open Scope string_scope.
Open Scope nat_scope.

Lemma append_assoc_s (a b c : string) : (a ++ b) ++ c = a ++ (b ++ c).
Proof. induction a as [|x a IH]; simpl; [reflexivity | now rewrite IH]. Qed.

Lemma append_nil_r_s (a : string) : a ++ "" = a.
Proof. induction a as [|x a IH]; simpl; [reflexivity | now rewrite IH]. Qed.

Lemma length_append_s (a b : string) :
  String.length (a ++ b) = String.length a + String.length b.
Proof. induction a as [|x a IH]; simpl; [reflexivity | now rewrite IH]. Qed.

Lemma substring_all (s : string) : String.substring 0 (String.length s) s = s.
Proof. induction s as [|x s IH]; simpl; [reflexivity | now rewrite IH]. Qed.

Lemma substring_skip (p s : string) :
  String.substring (String.length p) (String.length s) (p ++ s) = s.
Proof. induction p as [|x p IH]; simpl; [apply substring_all | exact IH]. Qed.

Lemma prefix_split (p s : string) :
  String.prefix p s = true ->
  s = p ++ String.substring (String.length p) (String.length s - String.length p) s.
Proof.
  revert s. induction p as [|x p IH]; intros s H; simpl.
  - rewrite Nat.sub_0_r. symmetry. apply substring_all.
  - destruct s as [|y s]; simpl in *; [discriminate|].
    destruct (ascii_dec x y) as [->|N]; [|discriminate].
    f_equal. now apply IH.
Qed.

Lemma prefix_append (p s : string) : String.prefix p (p ++ s) = true.
Proof.
  induction p as [|x p IH]; simpl; [now destruct s|].
  destruct (ascii_dec x x); [exact IH | contradiction].
Qed.

Lemma no_line_terminator_all s :
  no_line_terminator s = all_chars (fun c => negb (is_line_terminator c)) s.
Proof. induction s as [|c s IH]; simpl; [reflexivity | now rewrite IH]. Qed.

Lemma match_after_data_sound s : forall mime m d,
  match_after_data mime s = Some (m, d) ->
  mime ++ s = m ++ ";base64," ++ d /\
  0 < String.length m /\ 0 < String.length d /\ no_line_terminator d = true /\
  exists more, m = mime ++ more /\ no_line_terminator more = true.
Proof.
  induction s as [|c s IH]; intros mime m d H; cbn [match_after_data] in H; [discriminate|].
  destruct ((0 <? String.length mime) && String.prefix ";base64," (String c s)) eqn:Here.
  - apply andb_true_iff in Here as [Lm P].
    set (rest := String.substring 8 (String.length (String c s) - 8) (String c s)) in *.
    destruct ((0 <? String.length rest) && no_line_terminator rest) eqn:R.
    + injection H as <- <-. apply andb_true_iff in R as [Lr Nr].
      apply Nat.ltb_lt in Lm, Lr. repeat split; auto.
      * f_equal. apply (prefix_split ";base64," (String c s) P).
      * exists "". now rewrite append_nil_r_s.
    + destruct (is_line_terminator c) eqn:T; [discriminate|].
      apply IH in H as (E & Lm' & Ld & Nd & more & -> & Nmore).
      rewrite append_assoc_s in E. simpl in E. repeat split; auto.
      exists (String c more). rewrite append_assoc_s. simpl. split; [reflexivity|].
      now rewrite T.
  - destruct (is_line_terminator c) eqn:T; [discriminate|].
    apply IH in H as (E & Lm' & Ld & Nd & more & -> & Nmore).
    rewrite append_assoc_s in E. simpl in E. repeat split; auto.
    exists (String c more). rewrite append_assoc_s. simpl. split; [reflexivity|].
    now rewrite T.
Qed.

(** X8: when a data URL matches, it is exactly "data:", the media type,
    ";base64," and the data, in this order; the media type and the data are
    not empty and hold no line terminator. *)
Theorem match_data_url_sound (dataUrl mimeType base64Data : string) :
  match_data_url dataUrl = Some (mimeType, base64Data) ->
  dataUrl = "data:" ++ mimeType ++ ";base64," ++ base64Data /\
  0 < String.length mimeType /\ 0 < String.length base64Data /\
  no_line_terminator mimeType = true /\ no_line_terminator base64Data = true.
Proof.
  unfold match_data_url. destruct (String.prefix "data:" dataUrl) eqn:P; [|discriminate].
  intros H. apply match_after_data_sound in H as (E & Lm & Ld & Nd & more & -> & Nm).
  simpl in E, Nm |- *. repeat split; auto.
  rewrite (prefix_split "data:" dataUrl P). simpl String.length.
  rewrite E. reflexivity.
Qed.

Lemma match_after_data_complete rem : forall acc data,
  all_chars (fun c => negb (is_line_terminator c) && negb (Ascii.eqb c ";")) rem = true ->
  0 < String.length (acc ++ rem) ->
  0 < String.length data -> no_line_terminator data = true ->
  match_after_data acc (rem ++ ";base64," ++ data) = Some (acc ++ rem, data).
Proof.
  induction rem as [|c rem IH]; intros acc data A L Ld Nd.
  - rewrite append_nil_r_s in *.
    destruct acc as [|a acc]; [simpl in L; lia|].
    destruct data as [|x data]; [simpl in Ld; lia|].
    cbn [append match_after_data].
    match goal with |- context [String.prefix ?p ?s] =>
      replace (String.prefix p s) with true by reflexivity end.
    match goal with |- context [String.substring ?k ?n ?s] =>
      replace (String.substring k n s) with (String x data)
        by (cbn; rewrite substring_all; reflexivity) end.
    cbn [String.length Nat.ltb Nat.leb andb]. now rewrite Nd.
  - simpl in A. apply andb_true_iff in A as [Ac A]. apply andb_true_iff in Ac as [Nt Ns].
    apply negb_true_iff in Nt, Ns.
    change (String c rem ++ ";base64," ++ data) with (String c (rem ++ ";base64," ++ data)).
    cbn [match_after_data].
    assert (P : String.prefix ";base64," (String c (rem ++ ";base64," ++ data)) = false).
    { cbn [String.prefix]. destruct (ascii_dec ";" c) as [<-|N]; [|reflexivity].
      rewrite Ascii.eqb_refl in Ns. discriminate. }
    rewrite P, andb_false_r, Nt.
    rewrite IH; auto.
    + now rewrite append_assoc_s.
    + rewrite append_assoc_s. simpl. exact L.
Qed.

(** X9: a URL made of "data:", a non-empty media type without semicolon
    and line terminator, ";base64," and non-empty data without line
    terminator matches, and gives back the media type and the data. *)
Theorem match_data_url_complete (mimeType base64Data : string) :
  0 < String.length mimeType -> 0 < String.length base64Data ->
  all_chars (fun c => negb (is_line_terminator c) && negb (Ascii.eqb c ";")) mimeType = true ->
  no_line_terminator base64Data = true ->
  match_data_url ("data:" ++ mimeType ++ ";base64," ++ base64Data)
  = Some (mimeType, base64Data).
Proof.
  intros Lm Ld A Nd. unfold match_data_url.
  set (rest := mimeType ++ ";base64," ++ base64Data).
  rewrite prefix_append.
  assert (E : String.substring 5 (String.length ("data:" ++ rest) - 5) ("data:" ++ rest)
              = rest).
  { rewrite length_append_s. change (String.length "data:") with 5.
    replace (5 + String.length rest - 5) with (String.length rest) by lia.
    apply (substring_skip "data:"). }
  rewrite E. apply (match_after_data_complete mimeType "" base64Data); auto.
Qed.


Lemma match_data_url_sound_witness :
  match_data_url sample_url = Some ("image/jpeg", "AAAA") /\
  sample_url = "data:" ++ "image/jpeg" ++ ";base64," ++ "AAAA".
Proof.
  assert (H : match_data_url sample_url = Some ("image/jpeg", "AAAA"))
    by (vm_compute; reflexivity).
  split; [exact H|].
  exact (proj1 (match_data_url_sound sample_url "image/jpeg" "AAAA" H)).
Defined.

Lemma match_data_url_complete_witness :
  0 < String.length "image/png" /\ 0 < String.length "QUJD" /\
  match_data_url ("data:" ++ "image/png" ++ ";base64," ++ "QUJD")
  = Some ("image/png", "QUJD").
Proof.
  assert (Lm : 0 < String.length "image/png") by (simpl; lia).
  assert (Ld : 0 < String.length "QUJD") by (simpl; lia).
  split; [exact Lm|]. split; [exact Ld|].
  exact (match_data_url_complete "image/png" "QUJD" Lm Ld eq_refl eq_refl).
Defined.

End DataUrl.


(** ** Further properties: the analyze-grid route *)

(** *** The sign of a zero in a sum *)

Section SignedZero.

Import JS.
Open Scope Z_scope.

Lemma shr_1_m mrs : 0 <= shr_m mrs -> shr_m (shr_1 mrs) = Z.div2 (shr_m mrs).
Proof.
  destruct mrs as [m r s]. simpl. destruct m as [|[p|p|]|p]; simpl; try reflexivity; lia.
Qed.

Lemma iter_shr_1_m p : forall mrs,
  0 <= shr_m mrs -> shr_m (iter_pos shr_1 p mrs) = Z.shiftr (shr_m mrs) (Zpos p).
Proof.
  induction p as [p IH|p IH|]; intros mrs H; simpl iter_pos.
  - assert (H1 : 0 <= shr_m (shr_1 mrs))
      by (rewrite shr_1_m by exact H; now apply Z.div2_nonneg).
    assert (H2 : 0 <= shr_m (iter_pos shr_1 p (shr_1 mrs)))
      by (rewrite IH by exact H1; now apply Z.shiftr_nonneg).
    rewrite (IH _ H2), (IH _ H1), shr_1_m by exact H.
    rewrite Z.div2_spec, !Z.shiftr_shiftr by lia. f_equal. lia.
  - assert (H2 : 0 <= shr_m (iter_pos shr_1 p mrs))
      by (rewrite IH by exact H; now apply Z.shiftr_nonneg).
    rewrite (IH _ H2), (IH _ H).
    rewrite !Z.shiftr_shiftr by lia. f_equal. lia.
  - rewrite shr_1_m by exact H. apply Z.div2_spec.
Qed.

Lemma digits2_size m : digits2_pos m = Pos.size m.
Proof. induction m; simpl; congruence. Qed.

Lemma digits2_lower m : 2 ^ (Zpos (digits2_pos m) - 1) <= Zpos m.
Proof.
  rewrite digits2_size. pose proof (Pos.size_le m) as H.
  assert (E : (2 ^ Zpos (Pos.size m) <= 2 * Zpos m)%Z).
  { change (2 * Zpos m) with (Zpos (m~0)). rewrite <- Pos2Z.inj_pow. exact H. }
  replace (Zpos (Pos.size m)) with (Z.succ (Zpos (Pos.size m) - 1)) in E by lia.
  rewrite Z.pow_succ_r in E by lia. lia.
Qed.

Lemma shr_record_of_loc_m m l : shr_m (shr_record_of_loc m l) = m.
Proof. destruct l as [|[]]; reflexivity. Qed.

(** Above the least exponent, rounding to the format never shifts a
    mantissa out. *)
Lemma shr_fexp_pos m e l :
  SpecFloat.emin prec emax <= e ->
  0 < shr_m (fst (shr_fexp prec emax (Zpos m) e l)) /\
  SpecFloat.emin prec emax <= snd (shr_fexp prec emax (Zpos m) e l).
Proof.
  intros He. unfold shr_fexp, shr. cbn [Zdigits2].
  set (d := Zpos (digits2_pos m)).
  destruct (fexp prec emax (d + e) - e) as [|n|n] eqn:En; cbn [fst snd];
    rewrite ?shr_record_of_loc_m; try (split; [reflexivity|exact He]).
  rewrite iter_shr_1_m by (rewrite shr_record_of_loc_m; lia).
  rewrite shr_record_of_loc_m. split; [|lia].
  assert (Hn : Zpos n <= d - 1).
  { unfold fexp in En. unfold SpecFloat.emin in *. change prec with 53 in *.
    assert (1 <= d) by (unfold d; lia). lia. }
  rewrite Z.shiftr_div_pow2 by lia.
  apply Z.div_str_pos. split; [apply Z.pow_pos_nonneg; lia|].
  etransitivity; [|apply digits2_lower]. apply Z.pow_le_mono_r; lia.
Qed.

Lemma round_nearest_even_pos m l : 0 < m -> 0 < round_nearest_even m l.
Proof.
  intros H. destruct l as [|[]]; simpl; try lia. destruct (Z.even m); lia.
Qed.

Lemma binary_round_aux_not_zero sx m e l s :
  SpecFloat.emin prec emax <= e ->
  binary_round_aux prec emax sx (Zpos m) e l <> S754_zero s.
Proof.
  intros He. unfold binary_round_aux.
  pose proof (shr_fexp_pos m e l He) as [P1 E1].
  destruct (shr_fexp prec emax (Zpos m) e l) as [mrs' e']. cbn [fst snd] in P1, E1.
  pose proof (round_nearest_even_pos (shr_m mrs') (loc_of_shr_record mrs') P1) as P2.
  destruct (round_nearest_even (shr_m mrs') (loc_of_shr_record mrs')) as [|m2|m2];
    try lia.
  pose proof (shr_fexp_pos m2 e' loc_Exact E1) as [P3 _].
  destruct (shr_fexp prec emax (Zpos m2) e' loc_Exact) as [mrs'' e'']. cbn [fst] in P3.
  destruct (shr_m mrs'') as [|m3|m3]; try lia.
  destruct (_ <=? _); discriminate.
Qed.

Lemma binary_round_not_zero sx m e s :
  SpecFloat.emin prec emax <= e -> binary_round prec emax sx m e <> S754_zero s.
Proof.
  intros He. unfold binary_round.
  destruct (shl_align m e (fexp prec emax (Zpos (digits2_pos m) + e))) as [mz ez] eqn:A.
  apply binary_round_aux_not_zero.
  unfold shl_align in A. destruct (_ - e) as [|d|d] eqn:D; injection A as <- <-; try exact He.
  unfold fexp. lia.
Qed.

Lemma valid_exponent s m e :
  valid_binary (S754_finite s m e) = true -> SpecFloat.emin prec emax <= e.
Proof.
  simpl. unfold bounded, canonical_mantissa. intros H.
  apply andb_true_iff in H as [H _]. apply Z.eqb_eq in H. unfold fexp in H. lia.
Qed.

(** A sum is the negative zero only when both terms are. *)
Lemma SFadd_neg_zero x y :
  valid_binary x = true -> valid_binary y = true ->
  SF64add x y = S754_zero true -> x = S754_zero true /\ y = S754_zero true.
Proof.
  intros Vx Vy. unfold SF64add, SFadd.
  destruct x as [sx|sx| |sx mx ex], y as [sy|sy| |sy my ey]; try discriminate;
    try (destruct sx; discriminate); try (destruct sy; discriminate);
    try (destruct sx, sy; discriminate).
  - destruct sx, sy; try discriminate. auto.
  - cbv zeta. unfold binary_normalize.
    assert (He : SpecFloat.emin prec emax <= Z.min ex ey).
    { apply valid_exponent in Vx, Vy. lia. }
    change (IntDef.Z.min ex ey) with (Z.min ex ey).
    destruct (_ + _)%Z; [discriminate| |]; intros H;
      exfalso; revert H; now apply binary_round_not_zero.
Qed.

Open Scope float_scope.

Lemma add_not_neg_zero x y :
  Prim2SF y <> S754_zero true -> Prim2SF (x + y) <> S754_zero true.
Proof.
  intros Hy H. rewrite FloatAxioms.add_spec in H.
  apply SFadd_neg_zero in H; try apply FloatAxioms.Prim2SF_valid. tauto.
Qed.

Lemma SFeqb_zero_cases x :
  SFeqb x (S754_zero false) = true -> exists s, x = S754_zero s.
Proof.
  unfold SFeqb, SFcompare. destruct x as [s|s| |s m e]; eauto; try discriminate.
  - destruct s; discriminate.
  - destruct s; discriminate.
Qed.

Lemma or_zero_not_neg_zero v : Prim2SF (or_zero v) <> S754_zero true.
Proof.
  unfold or_zero. destruct (isNaN v); simpl; [discriminate|].
  destruct (v =? 0) eqn:E; [discriminate|].
  intros H. rewrite FloatAxioms.eqb_spec, H in E. discriminate.
Qed.

Lemma Prim2SF_inj x y : Prim2SF x = Prim2SF y -> x = y.
Proof.
  intros H. rewrite <- (FloatAxioms.SF2Prim_Prim2SF x), <- (FloatAxioms.SF2Prim_Prim2SF y).
  now rewrite H.
Qed.

(** [v || 0] changes a number other than NaN only in the sign of a zero,
    which a sum with a number other than the negative zero does not see. *)
Lemma add_or_zero p v :
  isNaN v = false -> Prim2SF p <> S754_zero true -> p + or_zero v = p + v.
Proof.
  intros Nv Hp. unfold or_zero. rewrite Nv. simpl.
  destruct (v =? 0) eqn:E; [|reflexivity].
  rewrite FloatAxioms.eqb_spec in E. apply SFeqb_zero_cases in E as [s E].
  apply Prim2SF_inj. rewrite !FloatAxioms.add_spec, E.
  change (Prim2SF 0) with (S754_zero false).
  destruct (Prim2SF p) as [sp|sp| |sp mp ep]; try reflexivity.
  destruct sp; [contradiction|]. now destruct s.
Qed.

End SignedZero.

Section GridRoute.

Import JS Analyzer GridStore Samples.
Open Scope nat_scope.

Lemma todayLogs_app env logs doc :
  l_date doc = today env -> todayLogs env (logs ++ [doc]) = todayLogs env logs ++ [doc].
Proof.
  intros D. unfold todayLogs. rewrite filter_app. simpl. now rewrite D, String.eqb_refl.
Qed.

Lemma sumScoreChange_app logs doc :
  sumScoreChange (logs ++ [doc])
  = (sumScoreChange logs + or_zero (l_scoreChange doc))%float.
Proof. unfold sumScoreChange. now rewrite fold_left_app. Qed.

Lemma todayLogs_idem env logs : todayLogs env (todayLogs env logs) = todayLogs env logs.
Proof.
  unfold todayLogs. induction logs as [|d logs IH]; simpl; auto.
  destruct (String.eqb (l_date d) (today env)) eqn:E; simpl; [rewrite E; f_equal|]; exact IH.
Qed.

(** X10: a POST of the analyze-grid route either answers 200 and appends
    exactly one record, dated today and carrying the times of the request,
    or answers 400 or 500 with an error and leaves the store as it was; it
    answers 400 exactly when the request has no grid image. *)
Theorem grid_POST_transactional (env : ServerEnv) (request : GridRequest)
    (logs : list LogDoc) :
  ((http_status (fst (POST env request logs)) = 200 /\
    exists doc cumulative,
      http_body (fst (POST env request logs)) = ScoreBody true cumulative /\
      snd (POST env request logs) = logs ++ [doc] /\
      l_date doc = today env /\
      l_startTime doc = r_startTime request /\ l_endTime doc = r_endTime request) \/
   ((http_status (fst (POST env request logs)) = 400 \/
     http_status (fst (POST env request logs)) = 500) /\
    (exists e, http_body (fst (POST env request logs)) = ErrorBody e) /\
    snd (POST env request logs) = logs)) /\
  (http_status (fst (POST env request logs)) = 400 <-> gridImage request = ""%string).
Proof.
  unfold POST. destruct (String.eqb (gridImage request) "") eqn:G.
  - apply String.eqb_eq in G. split; [right; simpl; eauto|]. simpl. tauto.
  - apply String.eqb_neq in G.
    destruct (analyzeGrid env (gridImage request) (r_startTime request) (r_endTime request))
      as [m|result] eqn:A.
    + split; [right; simpl; eauto|]. simpl. split; [discriminate | contradiction].
    + destruct (getDb env) as [m|].
      * split; [right; simpl; eauto|]. simpl. split; [discriminate | contradiction].
      * split; [|simpl; split; [discriminate | contradiction]].
        left. simpl. split; [reflexivity|]. eexists _, _. split; [reflexivity|].
        split; [reflexivity|]. simpl.
        unfold analyzeGrid in A.
        destruct (negb (has_key (GEMINI_API_KEY env))); [discriminate|].
        destruct (match_data_url (gridImage request)); [|discriminate].
        destruct (generateContent env); [discriminate|].
        injection A as <-. auto.
Qed.

Lemma sumScoreChange_not_neg_zero logs : Prim2SF (sumScoreChange logs) <> S754_zero true.
Proof.
  induction logs as [|d logs IH] using rev_ind.
  - vm_compute. discriminate.
  - rewrite sumScoreChange_app. apply add_not_neg_zero, or_zero_not_neg_zero.
Qed.

(** X11: after a POST that answered 200, the query of the day counts one
    batch more, and reports the cumulative score the POST returned
    whenever the score change stored is a number other than NaN (which the
    query reads as 0). *)
Theorem grid_GET_after_POST (env : ServerEnv) (request : GridRequest)
    (logs : list LogDoc) (cumulative : float) (doc : LogDoc) :
  POST env request logs = (mkHttp 200 (ScoreBody true cumulative), logs ++ [doc]) ->
  snd (GET env (logs ++ [doc])) = S (snd (GET env logs)) /\
  (isNaN (l_scoreChange doc) = false ->
   fst (GET env (logs ++ [doc])) = cumulative).
Proof.
  intros H. unfold POST in H.
  destruct (String.eqb (gridImage request) ""); [discriminate|].
  destruct (analyzeGrid env (gridImage request) (r_startTime request) (r_endTime request))
    as [m|result]; [discriminate|].
  destruct (getDb env); [discriminate|].
  injection H as Hc Hd. apply app_inv_head in Hd. injection Hd as <-.
  assert (D : l_date (mkLogDoc (summary result) (activities result) (totalCO2Kg result)
                        (scoreChange result) (startTime result) (endTime result) (today env))
              = today env) by reflexivity.
  unfold GET. rewrite (todayLogs_app env logs _ D). cbn [fst snd]. split.
  - rewrite length_app. simpl. lia.
  - cbn [l_scoreChange]. intros Z. rewrite sumScoreChange_app. cbn [l_scoreChange].
    rewrite add_or_zero by (auto using sumScoreChange_not_neg_zero). exact Hc.
Qed.

(** X12: the score of a day depends on the records of that day only: the
    answers of POST and of GET are the same on a store and on its records
    dated today. *)
Theorem grid_score_is_daily (env : ServerEnv) (request : GridRequest) (logs : list LogDoc) :
  fst (POST env request logs) = fst (POST env request (todayLogs env logs)) /\
  GET env logs = GET env (todayLogs env logs).
Proof.
  split.
  - unfold POST. destruct (String.eqb (gridImage request) ""); [reflexivity|].
    destruct (analyzeGrid _ _ _ _); [reflexivity|].
    destruct (getDb env); [reflexivity|]. simpl. now rewrite todayLogs_idem.
  - unfold GET. now rewrite todayLogs_idem.
Qed.

Lemma round_zero : (Math_round (0 * 100) / 100)%float = 0%float.
Proof. vm_compute. reflexivity. Qed.

(** X13: when the store is reachable, DELETE removes the records dated
    today and no other; the score is then 0 with 0 batches, the records of
    every other day are as before, and a second DELETE changes nothing. *)
Theorem grid_DELETE_clears_today (env : ServerEnv) (logs : list LogDoc) :
  getDb env = None ->
  GET env (DELETE env logs) = (0%float, 0) /\
  (forall doc, In doc (DELETE env logs) <-> In doc logs /\ l_date doc <> today env) /\
  (forall other, today other <> today env ->
     todayLogs other (DELETE env logs) = todayLogs other logs) /\
  DELETE env (DELETE env logs) = DELETE env logs.
Proof.
  intros Db. unfold DELETE. rewrite Db.
  assert (T : todayLogs env (filter (fun log => negb (String.eqb (l_date log) (today env))) logs)
              = []).
  { unfold todayLogs. apply filter_none. apply Forall_forall. intros d Hd.
    apply filter_In in Hd as [_ Hd]. now apply negb_true_iff in Hd. }
  split; [|split; [|split]].
  - unfold GET. rewrite T. unfold sumScoreChange. cbn [fold_left List.length].
    now rewrite round_zero.
  - intros d. rewrite filter_In, negb_true_iff, String.eqb_neq. tauto.
  - intros other N. clear T. unfold todayLogs. induction logs as [|d logs IH]; simpl; auto.
    destruct (String.eqb (l_date d) (today env)) eqn:E; simpl.
    + apply String.eqb_eq in E.
      assert (E' : String.eqb (l_date d) (today other) = false)
        by (apply String.eqb_neq; congruence).
      rewrite E'. exact IH.
    + destruct (String.eqb (l_date d) (today other)); [f_equal|]; exact IH.
  - clear T. induction logs as [|d logs IH]; simpl; auto.
    destruct (String.eqb (l_date d) (today env)) eqn:E; simpl; [exact IH|].
    rewrite E. simpl. now f_equal.
Qed.


Lemma grid_GET_after_POST_witness :
  POST (server_reporting 0.85) (mkGridRequest sample_url "10:00:00" "10:00:12") []
  = (mkHttp 200 (ScoreBody true 6.61),
     [] ++ [mkLogDoc "driving" [] 0.85 6.61 "10:00:00" "10:00:12" "2026-02-08"]) /\
  snd (GET (server_reporting 0.85)
           ([] ++ [mkLogDoc "driving" [] 0.85 6.61 "10:00:00" "10:00:12" "2026-02-08"]))
  = 1.
Proof.
  assert (H : POST (server_reporting 0.85) (mkGridRequest sample_url "10:00:00" "10:00:12") []
              = (mkHttp 200 (ScoreBody true 6.61),
                 [] ++ [mkLogDoc "driving" [] 0.85 6.61 "10:00:00" "10:00:12" "2026-02-08"]))
    by (vm_compute; reflexivity).
  split; [exact H|].
  exact (proj1 (grid_GET_after_POST (server_reporting 0.85)
                  (mkGridRequest sample_url "10:00:00" "10:00:12") [] 6.61
                  (mkLogDoc "driving" [] 0.85 6.61 "10:00:00" "10:00:12" "2026-02-08") H)).
Defined.

Lemma grid_DELETE_clears_today_witness :
  getDb (server_reporting 0.85) = None /\
  GET (server_reporting 0.85)
      (DELETE (server_reporting 0.85)
         [mkLogDoc "driving" [] 0.85 6.61 "10:00:00" "10:00:12" "2026-02-08"])
  = (0%float, 0).
Proof.
  assert (H : getDb (server_reporting 0.85) = None) by reflexivity.
  split; [exact H|].
  exact (proj1 (grid_DELETE_clears_today (server_reporting 0.85)
                  [mkLogDoc "driving" [] 0.85 6.61 "10:00:00" "10:00:12" "2026-02-08"] H)).
Defined.

End GridRoute.


(** ** Further properties: the per-frame route *)

Section FramesRouteProperties.

Import JS Analyzer FramesRoute Samples.
Open Scope nat_scope.

Lemma isNaN_true x : isNaN x = true <-> Prim2SF x = S754_nan.
Proof.
  unfold isNaN. rewrite FloatAxioms.eqb_spec.
  destruct (Prim2SF x) as [s| s| |s m e]; unfold SFeqb, SFcompare.
  - destruct s; simpl; split; discriminate.
  - destruct s; simpl; split; discriminate.
  - simpl; split; reflexivity.
  - destruct s; rewrite ?Z.compare_refl, ?Pos.compare_refl; simpl; split; discriminate.
Qed.

Lemma Math_round_NaN x : isNaN x = true -> isNaN (Math_round x) = true.
Proof. intros H. unfold Math_round. now rewrite H. Qed.

Lemma add_NaN_l x y : isNaN x = true -> isNaN (x + y)%float = true.
Proof.
  rewrite !isNaN_true, FloatAxioms.add_spec. intros ->. reflexivity.
Qed.

Lemma add_NaN_r x y : isNaN y = true -> isNaN (x + y)%float = true.
Proof.
  rewrite !isNaN_true, FloatAxioms.add_spec. intros ->.
  unfold SF64add. now destruct (Prim2SF x).
Qed.

Lemma mul_NaN_l x y : isNaN x = true -> isNaN (x * y)%float = true.
Proof.
  rewrite !isNaN_true, FloatAxioms.mul_spec. intros ->. reflexivity.
Qed.

Lemma div_NaN_l x y : isNaN x = true -> isNaN (x / y)%float = true.
Proof.
  rewrite !isNaN_true, FloatAxioms.div_spec. intros ->. reflexivity.
Qed.

Lemma rounded_NaN x : isNaN x = true -> isNaN (Math_round (x * 100) / 100)%float = true.
Proof. intros H. now apply div_NaN_l, Math_round_NaN, mul_NaN_l. Qed.

(** X14: a POST of the per-frame route that answers with an error leaves
    the running total and the history as they were; the status is 400
    exactly when the images are missing or empty or the timestamps are
    missing or of another length, and 500 otherwise. *)
Theorem frames_POST_errors env body st status error :
  fst (POST env body st) = ErrorReply status error ->
  snd (POST env body st) = st /\
  (status = 400 \/ status = 500) /\
  (status = 400 <->
   exists b, body = Returns b /\
     (images b = None \/ images b = Some [] \/ timestamps b = None \/
      option_map (@List.length string) (timestamps b)
      <> option_map (@List.length string) (images b))).
Proof.
  unfold POST. destruct body as [message|b].
  - simpl. intros [= <- <-]. repeat split; auto.
    + discriminate.
    + intros (b & [=] & _).
  - destruct (images b) as [[|i imgs]|] eqn:I.
    + simpl. intros [= <- <-]. repeat split; auto. intros _. exists b. auto.
    + destruct (timestamps b) as [ts|] eqn:T.
      * destruct (List.length ts =? List.length (i :: imgs)) eqn:L; cbn [negb].
        -- apply Nat.eqb_eq in L.
           destruct (analyzeFrames env (i :: imgs) ts) as [message|result]; simpl.
           ++ intros [= <- <-]. repeat split; auto.
              ** discriminate.
              ** intros (b' & [= <-] & [H|[H|[H|H]]]); try congruence.
                 rewrite I, T in H. exfalso. apply H. simpl. f_equal. exact L.
           ++ discriminate.
        -- apply Nat.eqb_neq in L. simpl. intros [= <- <-]. repeat split; auto.
           intros _. exists b. split; auto. do 3 right. rewrite I, T. simpl. intros [= E]. apply L. exact E.
      * simpl. intros [= <- <-]. repeat split; auto. intros _. exists b. auto.
    + simpl. intros [= <- <-]. repeat split; auto. intros _. exists b. auto.
Qed.

Lemma POST_cases env body st :
  snd (POST env body st) = st \/
  exists result,
    snd (POST env body st)
    = mkState (cumulativeScore st + f_scoreChange result)%float
        (batchHistory st ++
           [mkEntry (List.length (batchHistory st) + 1) result
              (Math_round ((cumulativeScore st + f_scoreChange result) * 100) / 100)%float]) /\
    fst (POST env body st)
    = BatchReply result (List.length (batchHistory st) + 1)
        (Math_round ((cumulativeScore st + f_scoreChange result) * 100) / 100)%float.
Proof.
  unfold POST. destruct body as [message|b]; [now left|].
  destruct (images b) as [[|i imgs]|]; [now left| |now left].
  destruct (timestamps b) as [ts|]; [|now left].
  destruct (negb _); [now left|].
  destruct (analyzeFrames env (i :: imgs) ts) as [message|result]; [now left|].
  right. exists result. split; reflexivity.
Qed.

Lemma state_after_snoc calls c : state_after (calls ++ [c]) = serve c (state_after calls).
Proof. unfold state_after. now rewrite fold_left_app. Qed.

(** X15: whatever requests the per-frame route has served, the batches of
    its history are numbered 1, 2, 3, ... in order, the running total is
    the sum, from the left and starting at 0, of the score changes of the
    history, and every entry carries the rounded running total of the
    entries up to it. *)
Theorem frames_history_invariant calls :
  let st := state_after calls in
  let scores := map (fun e => f_scoreChange (h_result e)) (batchHistory st) in
  map h_batchNumber (batchHistory st) = seq 1 (List.length (batchHistory st)) /\
  cumulativeScore st = fold_left PrimFloat.add scores 0%float /\
  map h_cumulativeScore (batchHistory st)
  = map (fun k => (Math_round (fold_left PrimFloat.add (firstn k scores) 0 * 100) / 100)%float)
        (seq 1 (List.length (batchHistory st))).
Proof.
  cbv zeta. induction calls as [|c calls IH] using rev_ind.
  - repeat split; reflexivity.
  - rewrite state_after_snoc. destruct IH as (N & T & H).
    set (st := state_after calls) in *.
    destruct c as [env body|]; [|repeat split; reflexivity].
    cbn [serve]. destruct (POST_cases env body st) as [->|(result & -> & _)]; [auto|].
    cbn [batchHistory cumulativeScore].
    rewrite !map_app, !length_app, !seq_app. cbn [map List.length seq Nat.add].
    rewrite fold_left_app. cbn [fold_left].
    rewrite Nat.add_1_r. repeat split.
    + now rewrite N.
    + now rewrite T.
    + rewrite map_app. f_equal.
      * rewrite H. apply map_ext_in. intros k Hk. apply in_seq in Hk.
        rewrite firstn_app. replace (k - _) with 0 by (rewrite length_map; lia).
        cbn [firstn]. now rewrite app_nil_r.
      * cbn [map]. rewrite firstn_all2 by (rewrite length_app, length_map; simpl; lia).
        rewrite fold_left_app. cbn [fold_left]. now rewrite T.
Qed.

Lemma posts_keep_NaN posts : forall st,
  isNaN (cumulativeScore st) = true ->
  isNaN (cumulativeScore
           (fold_left (fun st c => serve c st)
              (map (fun p => CallPOST (fst p) (snd p)) posts) st)) = true.
Proof.
  induction posts as [|[env body] posts IH]; intros st H; [exact H|].
  cbn [map fold_left fst snd serve]. apply IH.
  destruct (POST_cases env body st) as [->|(result & -> & _)]; [exact H|].
  cbn [cumulativeScore]. now apply add_NaN_l.
Qed.

(** X16: the running total of the per-frame route does not recover from
    NaN. A batch answer whose score change is NaN, or that is given while
    the total is NaN, carries NaN as cumulative score, and after it the
    total is NaN whatever further POSTs are served. *)
Theorem frames_total_NaN_is_absorbing env body st result batchNumber cumulative posts :
  fst (POST env body st) = BatchReply result batchNumber cumulative ->
  isNaN (cumulativeScore st) = true \/ isNaN (f_scoreChange result) = true ->
  isNaN cumulative = true /\
  isNaN (cumulativeScore
           (fold_left (fun st c => serve c st)
              (map (fun p => CallPOST (fst p) (snd p)) posts)
              (snd (POST env body st)))) = true.
Proof.
  intros R H. destruct (POST_cases env body st) as [E|(r & E & F)].
  - exfalso. revert R E. unfold POST. destruct body as [message|b]; [discriminate|].
    destruct (images b) as [[|i imgs]|]; try discriminate.
    destruct (timestamps b) as [ts|]; try discriminate.
    destruct (negb _); try discriminate.
    destruct (analyzeFrames env (i :: imgs) ts) as [message|r]; try discriminate.
    cbn [snd]. intros _ E. apply (f_equal batchHistory) in E. cbn [batchHistory] in E.
    apply (f_equal (@List.length _)) in E. rewrite length_app in E. simpl in E. lia.
  - rewrite F in R. injection R as <- <- <-.
    assert (A : isNaN (cumulativeScore st + f_scoreChange r)%float = true)
      by (destruct H; [now apply add_NaN_l|now apply add_NaN_r]).
    split; [now apply rounded_NaN|].
    apply posts_keep_NaN. rewrite E. exact A.
Qed.

(** X17: a DELETE of the per-frame route forgets everything before it: the
    state after it is the state of a fresh server, and GET then reports a
    total of 0, no batch and an empty history. *)
Theorem frames_DELETE_forgets calls rest :
  state_after (calls ++ CallDELETE :: rest) = state_after rest /\
  GET (state_after (calls ++ [CallDELETE])) = (0%float, 0, []).
Proof.
  split.
  - unfold state_after. rewrite fold_left_app. reflexivity.
  - rewrite state_after_snoc. vm_compute. reflexivity.
Qed.


Lemma frames_POST_errors_witness :
  fst (POST (server_reporting 0.85) (Throws "Unexpected end of JSON input") initial)
  = ErrorReply 500 "Analysis failed: Unexpected end of JSON input" /\
  snd (POST (server_reporting 0.85) (Throws "Unexpected end of JSON input") initial)
  = initial.
Proof.
  assert (H : fst (POST (server_reporting 0.85) (Throws "Unexpected end of JSON input")
                        initial)
              = ErrorReply 500 "Analysis failed: Unexpected end of JSON input")
    by reflexivity.
  split; [exact H|].
  exact (proj1 (frames_POST_errors (server_reporting 0.85)
                  (Throws "Unexpected end of JSON input") initial 500
                  "Analysis failed: Unexpected end of JSON input" H)).
Defined.

Lemma frames_total_NaN_is_absorbing_witness :
  fst (POST (server_reporting nan)
            (Returns (mkFramesBody (Some [sample_url]) (Some ["10:00:00"%string]))) initial)
  = BatchReply (mkFramesResult "driving" [] nan nan ["10:00:00"%string]) 1 nan /\
  isNaN (f_scoreChange (mkFramesResult "driving" [] nan nan ["10:00:00"%string])) = true /\
  isNaN nan = true.
Proof.
  assert (H : fst (POST (server_reporting nan)
                     (Returns (mkFramesBody (Some [sample_url]) (Some ["10:00:00"%string])))
                     initial)
              = BatchReply (mkFramesResult "driving" [] nan nan ["10:00:00"%string]) 1 nan)
    by (vm_compute; reflexivity).
  assert (N : isNaN (f_scoreChange (mkFramesResult "driving" [] nan nan ["10:00:00"%string]))
              = true) by reflexivity.
  split; [exact H|]. split; [exact N|].
  exact (proj1 (frames_total_NaN_is_absorbing (server_reporting nan)
                  (Returns (mkFramesBody (Some [sample_url]) (Some ["10:00:00"%string])))
                  initial _ 1 nan [] H (or_intror N))).
Defined.

End FramesRouteProperties.


(** ** Further properties: the analysis queue *)

Section QueueInvariants.

Import Analyzer Queue QueueMore Samples.
Open Scope nat_scope.

Lemma drain_heap c :
  heap (processAnalysisQueue c) = heap c \/
  exists job, has_status (heap c) pending job = true /\
    heap (processAnalysisQueue c) = update_job job (set_status analyzing) (heap c).
Proof.
  unfold processAnalysisQueue. destruct (processingRef c); [now left|].
  destruct (find _ _) as [job|] eqn:F; [|now left].
  right. exists job. apply find_some in F as [_ F]. split; [exact F|reflexivity].
Qed.

Lemma has_status_nth h s i :
  has_status h s i = true <-> exists j, nth_error h i = Some j /\ status j = s.
Proof.
  unfold has_status, status_of. destruct (nth_error h i) as [j|]; simpl.
  - split.
    + intros E. exists j. split; [reflexivity|]. destruct (status j), s; simpl in E; congruence.
    + intros (j' & [= <-] & <-). now destruct (status j).
  - split; [discriminate|]. intros (j & [=] & _).
Qed.

Lemma is_finished_update_active job s h x :
  has_status h pending job = true -> s = analyzing ->
  is_finished (update_job job (set_status s) h) x = is_finished h x.
Proof.
  intros P ->. unfold is_finished. destruct (Nat.eq_dec x job) as [->|N].
  - rewrite !has_status_updated by (eapply has_status_valid; eauto). simpl.
    destruct (has_status h complete job) eqn:C;
      [pose proof (has_status_unique _ _ _ _ P C); discriminate|].
    destruct (has_status h failed job) eqn:F;
      [pose proof (has_status_unique _ _ _ _ P F); discriminate|]. reflexivity.
  - now rewrite !has_status_other by exact N.
Qed.

Lemma drain_is_finished c x :
  is_finished (heap (processAnalysisQueue c)) x = is_finished (heap c) x.
Proof.
  destruct (drain_heap c) as [->|(job & P & ->)]; [reflexivity|].
  now apply is_finished_update_active.
Qed.

Lemma drain_heap_inv c : heap_inv c -> heap_inv (processAnalysisQueue c).
Proof.
  intros [Hc Hi Ha Hh]. destruct (drain_fields c) as (Fq & _ & Fc & Fl).
  constructor.
  - now rewrite Fl, Fc.
  - intros i j. destruct (drain_heap c) as [->|(job & P & ->)]; [apply Hi|].
    rewrite nth_error_update_job. destruct (i =? job); [|apply Hi].
    destruct (nth_error (heap c) i) as [j0|] eqn:E; [|discriminate].
    intros [= <-]. simpl. now apply Hi.
  - intros i j. destruct (drain_heap c) as [->|(job & P & ->)]; [apply Ha|].
    rewrite nth_error_update_job. destruct (i =? job) eqn:Ei; [|apply Ha].
    apply Nat.eqb_eq in Ei. subst i.
    apply has_status_nth in P as (j0 & E & S0). rewrite E. intros [= <-].
    specialize (Ha _ _ E). unfold attachments_ok in *. rewrite S0 in Ha. simpl. exact Ha.
  - rewrite Fq. erewrite filter_ext; [exact Hh|]. intros x. apply drain_is_finished.
Qed.

Lemma pushed_heap_inv fs st et c : refs_valid c -> heap_inv c -> heap_inv (pushed fs st et c).
Proof.
  intros V [Hc Hi Ha Hh]. unfold pushed. constructor; fields.
  - rewrite length_app. simpl. lia.
  - intros i j E. destruct (Nat.lt_ge_cases i (List.length (heap c))) as [L|L].
    + rewrite nth_error_app1 in E by exact L. now apply Hi.
    + rewrite nth_error_app2 in E by exact L.
      destruct (i - List.length (heap c)) as [|k] eqn:K; simpl in E.
      * injection E as <-. simpl. lia.
      * destruct k; discriminate.
  - intros i j E. destruct (Nat.lt_ge_cases i (List.length (heap c))) as [L|L].
    + rewrite nth_error_app1 in E by exact L. now apply (Ha i).
    + rewrite nth_error_app2 in E by exact L.
      destruct (i - List.length (heap c)) as [|k] eqn:K; simpl in E.
      * injection E as <-. split; reflexivity.
      * destruct k; discriminate.
  - rewrite filter_app. cbn [filter].
    replace (is_finished _ (List.length (heap c))) with false
      by (unfold is_finished; now rewrite !has_status_new).
    rewrite app_nil_r. erewrite filter_ext_in; [exact Hh|].
    intros x Hx. unfold is_finished. unfold refs_valid in V. rewrite Forall_forall in V.
    rewrite !has_status_push; auto.
Qed.

Lemma enqueue_heap_inv fs st et c :
  refs_valid c -> heap_inv c -> heap_inv (fst (queueGridForAnalysis fs st et c)).
Proof.
  intros V H. rewrite queueGridForAnalysis_unfold.
  destruct (MAX_PENDING_JOBS <=? pendingCount c); cbn [fst].
  - destruct H as [Hc Hi Ha Hh]. constructor; fields; auto.
  - now apply drain_heap_inv, pushed_heap_inv.
Qed.

Lemma retire_nth_error job outcome c i :
  nth_error (heap (retire job outcome c)) i
  = if i =? job then option_map (retired_job outcome) (nth_error (heap c) i)
    else nth_error (heap c) i.
Proof.
  destruct outcome; unfold retire; fields; rewrite !nth_error_update_job;
    destruct (i =? job); auto; destruct (nth_error (heap c) i); reflexivity.
Qed.

Lemma length_lastn {A} n (l : list A) : List.length (lastn n l) <= n.
Proof. unfold lastn. rewrite length_skipn. lia. Qed.

Lemma filter_all {A} (f : A -> bool) l : Forall (fun x => f x = true) l -> filter f l = l.
Proof.
  induction 1 as [|x l Hx _ IH]; simpl; [reflexivity|]. now rewrite Hx, IH.
Qed.

Lemma prune_finished c :
  List.length (filter (is_finished (heap (prune c))) (analysisQueueRef (prune c))) <= 5.
Proof.
  unfold prune. fields. rewrite filter_app.
  rewrite (filter_none (is_finished (heap c))).
  - simpl. etransitivity; [apply filter_length_le|]. apply length_lastn.
  - apply Forall_forall. intros x Hx. apply filter_In in Hx as [_ Hx].
    destruct (is_finished (heap c) x) eqn:F; [|reflexivity].
    apply finished_not_active in F. congruence.
Qed.

Lemma resume_heap_inv job outcome c :
  heap_inv c -> has_status (heap c) analyzing job = true ->
  heap_inv (processAnalysisQueue_resume job outcome c).
Proof.
  intros [Hc Hi Ha Hh] An. unfold processAnalysisQueue_resume.
  apply drain_heap_inv.
  set (c0 := with_workers (remove_first job (workers c)) c).
  destruct (retire_fields job outcome c0) as (_ & _ & Fc & _ & Fl & _).
  constructor.
  - unfold prune. fields. rewrite Fl, Fc. exact Hc.
  - unfold prune. fields. intros i j. rewrite retire_nth_error.
    destruct (i =? job); [|apply Hi].
    unfold c0. fields. destruct (nth_error (heap c) i) as [j0|] eqn:E; [|discriminate].
    intros [= <-]. simpl. now apply Hi.
  - unfold prune. fields. intros i j. rewrite retire_nth_error.
    destruct (i =? job) eqn:Ei; [|apply Ha].
    apply Nat.eqb_eq in Ei. subst i. unfold c0. fields.
    apply has_status_nth in An as (j0 & E & S0). rewrite E. intros [= <-].
    specialize (Ha _ _ E). unfold attachments_ok in *. rewrite S0 in Ha.
    destruct outcome; simpl; destruct Ha; split; congruence.
  - apply (prune_finished (with_processing false (retire job outcome c0))).
Qed.

Lemma initial_heap_inv : heap_inv initial.
Proof.
  constructor; simpl; try lia; intros [|i] j E; discriminate.
Qed.

Lemma reachable_heap_inv w : reachable w -> heap_inv (client w).
Proof.
  induction 1 as [|a w w' R IH Hs]; [exact initial_heap_inv|].
  destruct (reachable_shape w R) as [Sh T].
  destruct a as [fs st et| |job env]; simpl in Hs.
  - injection Hs as <-. cbn [client]. apply enqueue_heap_inv; [apply (shape_refs Sh)|exact IH].
  - injection Hs as <-. cbn [client]. now apply drain_heap_inv.
  - destruct (existsb _ _) eqn:Ex; [|discriminate]. injection Hs as <-.
    apply existsb_exists in Ex as (x & Hin & Ex). apply Nat.eqb_eq in Ex. subst x.
    destruct (settled_worker _ _ T Hin) as (_ & _ & rest & _ & An & _).
    unfold worker_resume. destruct (analysis_outcome env job w) as [outcome logs].
    cbn [client]. now apply resume_heap_inv.
Qed.

(** X18: in every reachable state of the queue, the counter of job ids is
    the number of jobs created, the job created i-th has id i, and what a
    job carries agrees with its status: a result and no error when
    complete, an error and no result when failed, neither while pending or
    analyzing. *)
Theorem queue_job_records (w : World) :
  reachable w ->
  List.length (heap (client w)) = jobIdCounterRef (client w) /\
  forall i j, nth_error (heap (client w)) i = Some j ->
    id j = i + 1 /\ attachments_ok j.
Proof.
  intros R. destruct (reachable_heap_inv w R) as [Hc Hi Ha _].
  split; [exact Hc|]. intros i j E. split; [now apply Hi | now apply (Ha i)].
Qed.

Lemma active_or_finished h x :
  x < List.length h -> is_active h x = negb (is_finished h x).
Proof.
  intros L. unfold is_active, is_finished, has_status, status_of.
  destruct (nth_error h x) as [j|] eqn:E; [|apply nth_error_None in E; lia].
  simpl. now destruct (status j).
Qed.

Lemma filter_partition_length {A} (f g : A -> bool) l :
  Forall (fun x => f x = negb (g x)) l ->
  List.length l = List.length (filter f l) + List.length (filter g l).
Proof.
  induction 1 as [|x l Hx _ IH]; simpl; [reflexivity|].
  rewrite Hx. destruct (g x); simpl; lia.
Qed.

(** X19: the array of jobs stays small: in every reachable state it names
    each job at most once, holds at most 5 finished jobs and at most 8 jobs
    in all, each of them pending, analyzing, complete or failed. *)
Theorem queue_array_bounded (w : World) :
  reachable w ->
  NoDup (analysisQueueRef (client w)) /\
  List.length (filter (is_finished (heap (client w))) (analysisQueueRef (client w))) <= 5 /\
  List.length (analysisQueueRef (client w)) <= 8 /\
  Forall (fun job => job < List.length (heap (client w))) (analysisQueueRef (client w)).
Proof.
  intros R. destruct (reachable_shape w R) as [Sh _].
  destruct (reachable_heap_inv w R) as [_ _ _ Hh].
  split; [apply (shape_nodup Sh)|]. split; [exact Hh|]. split; [|apply (shape_refs Sh)].
  rewrite (filter_partition_length (is_active (heap (client w)))
             (is_finished (heap (client w)))).
  - pose proof (shape_bound Sh) as B. unfold pendingCount, MAX_PENDING_JOBS in B. lia.
  - eapply Forall_impl; [|apply (shape_refs Sh)]. intros x. apply active_or_finished.
Qed.

(** X20: the queue is work conserving: in every reachable state, a job of
    the array that is pending or analyzing comes with exactly one suspended
    worker, which holds the oldest such job; hence calling the drain
    between two steps changes nothing. *)
Theorem queue_work_conserving (w : World) :
  reachable w ->
  (forall job, In job (analysisQueueRef (client w)) ->
     is_active (heap (client w)) job = true ->
     exists first rest,
       workers (client w) = [first] /\ processingRef (client w) = true /\
       active_refs (client w) = first :: rest /\
       has_status (heap (client w)) analyzing first = true /\
       id_of (heap (client w)) first <= id_of (heap (client w)) job) /\
  step Drain w = Some w.
Proof.
  intros R. destruct (reachable_shape w R) as [Sh T]. split.
  - intros job Hin Act.
    assert (Hj : In job (active_refs (client w))) by (apply filter_In; auto).
    unfold settled in T. destruct (processingRef (client w)) eqn:P.
    + destruct T as (first & rest & W & A & An & _). exists first, rest.
      repeat split; auto.
      destruct (shape_retired Sh) as (k & _ & _ & Ids). rewrite A in Ids, Hj.
      destruct (jobIdCounterRef (client w) - k) as [|n] eqn:N; [discriminate|].
      simpl in Ids. injection Ids as I1 I2. rewrite I1.
      destruct Hj as [<-|Hj]; [lia|].
      apply (in_map (id_of (heap (client w)))) in Hj. rewrite I2 in Hj.
      apply in_seq in Hj. lia.
    + destruct T as [_ A]. rewrite A in Hj. contradiction.
  - simpl. f_equal. destruct w as [c logs]. cbn [client carbonLogs] in *. f_equal.
    unfold settled in T. unfold processAnalysisQueue.
    destruct (processingRef c); [reflexivity|]. destruct T as [_ A].
    destruct (find _ _) as [job|] eqn:F; [|reflexivity].
    apply find_some in F as [Hin F].
    assert (Hj : In job (active_refs c))
      by (apply filter_In; split; [exact Hin|now apply pending_is_active]).
    rewrite A in Hj. contradiction.
Qed.


Lemma job_moves_refl j : job_moves j j.
Proof. repeat split; auto. now destruct (status j). Qed.

Lemma drain_nth_not_pending c i :
  has_status (heap c) pending i = false ->
  nth_error (heap (processAnalysisQueue c)) i = nth_error (heap c) i.
Proof.
  intros NP. destruct (drain_heap c) as [->|(job & P & ->)]; [reflexivity|].
  rewrite nth_error_update_job. destruct (i =? job) eqn:E; [|reflexivity].
  apply Nat.eqb_eq in E. subst i. congruence.
Qed.

Lemma drain_evolves c : heap_evolves (heap c) (heap (processAnalysisQueue c)).
Proof.
  intros i j E. destruct (drain_heap c) as [->|(job & P & ->)].
  - exists j. split; [exact E|apply job_moves_refl].
  - rewrite nth_error_update_job. destruct (i =? job) eqn:Ei.
    + apply Nat.eqb_eq in Ei. subst i. rewrite E. simpl. eexists. split; [reflexivity|].
      apply has_status_nth in P as (j0 & E0 & S0). rewrite E in E0. injection E0 as <-.
      repeat split; simpl; rewrite S0; auto; intros [|]; discriminate.
    + exists j. split; [exact E|apply job_moves_refl].
Qed.

(** X21: the life cycle of a job.  Across every step from a reachable
    state, every job stays where it is and keeps its id, frames and times;
    its status stays or moves one step along pending, analyzing, complete
    or failed; and a finished job is never written again. *)
Theorem queue_job_life_cycle (a : Action) (w w' : World) :
  reachable w -> step a w = Some w' ->
  heap_evolves (heap (client w)) (heap (client w')).
Proof.
  intros R Hs. destruct (reachable_shape w R) as [Sh T].
  destruct a as [fs st et| |job env]; simpl in Hs.
  - injection Hs as <-. cbn [client]. rewrite queueGridForAnalysis_unfold.
    destruct (MAX_PENDING_JOBS <=? pendingCount (client w)); cbn [fst].
    + fields. intros i j E. exists j. split; [exact E|apply job_moves_refl].
    + intros i j E. apply (drain_evolves (pushed fs st et (client w))).
      unfold pushed. fields. rewrite nth_error_app1; [exact E|].
      apply nth_error_Some. congruence.
  - injection Hs as <-. cbn [client]. apply drain_evolves.
  - destruct (existsb _ _) eqn:Ex; [|discriminate]. injection Hs as <-.
    apply existsb_exists in Ex as (x & Hin & Ex). apply Nat.eqb_eq in Ex. subst x.
    destruct (settled_worker _ _ T Hin) as (_ & _ & rest & _ & An & _).
    unfold worker_resume. destruct (analysis_outcome env job w) as [outcome logs].
    cbn [client]. unfold processAnalysisQueue_resume.
    set (c0 := with_workers (remove_first job (workers (client w))) (client w)).
    set (c1 := prune (with_processing false (retire job outcome c0))).
    assert (H1 : forall i, nth_error (heap c1) i
                 = if i =? job then option_map (retired_job outcome) (nth_error (heap (client w)) i)
                   else nth_error (heap (client w)) i).
    { intros i. unfold c1, prune. fields. now rewrite retire_nth_error. }
    intros i j E. destruct (i =? job) eqn:Ei.
    + apply Nat.eqb_eq in Ei. subst i.
      apply has_status_nth in An as (j0 & E0 & S0). rewrite E in E0. injection E0 as <-.
      exists (retired_job outcome j). split.
      * rewrite drain_nth_not_pending.
        -- now rewrite H1, Nat.eqb_refl, E.
        -- unfold has_status, status_of. rewrite H1, Nat.eqb_refl, E. simpl.
           now destruct outcome.
      * repeat split; simpl; rewrite S0; [now destruct outcome|intros [|]; discriminate].
    + apply (drain_evolves c1). now rewrite H1, Ei.
Qed.

Lemma retired_ids_length l :
  List.length (retired_ids l) = analyzed_count l + failed_count l.
Proof.
  unfold retired_ids, analyzed_count, failed_count.
  induction l as [|e l IH]; simpl; [reflexivity|].
  destruct e; simpl; lia.
Qed.

Lemma count_update (p : GridJob -> bool) f job : forall h j,
  nth_error h job = Some j ->
  List.length (filter p (update_job job f h)) + (if p j then 1 else 0)
  = List.length (filter p h) + (if p (f j) then 1 else 0).
Proof.
  induction job as [|n IH]; intros [|j0 h] j E; simpl in *; try discriminate.
  - injection E as <-. destruct (p j0), (p (f j0)); simpl; lia.
  - specialize (IH h j E). destruct (p j0); simpl; lia.
Qed.

Lemma count_status_update s f job h j :
  nth_error h job = Some j ->
  count_status s (update_job job f h) + (if status_eqb (status j) s then 1 else 0)
  = count_status s h + (if status_eqb (status (f j)) s then 1 else 0).
Proof.
  intros E. unfold count_status.
  exact (count_update (fun j => status_eqb (status j) s) f job h j E).
Qed.

Lemma count_status_push s h j :
  count_status s (h ++ [j]) = count_status s h + (if status_eqb (status j) s then 1 else 0).
Proof.
  unfold count_status. rewrite filter_app, length_app. simpl.
  now destruct (status_eqb (status j) s).
Qed.

Lemma analyzed_count_app l e :
  analyzed_count (l ++ [e])
  = analyzed_count l + match e with LogAnalyzed _ _ => 1 | _ => 0 end.
Proof.
  unfold analyzed_count. rewrite filter_app, length_app. now destruct e.
Qed.

Lemma failed_count_app l e :
  failed_count (l ++ [e])
  = failed_count l + match e with LogFailed _ _ => 1 | _ => 0 end.
Proof.
  unfold failed_count. rewrite filter_app, length_app. now destruct e.
Qed.

Lemma drain_accounts c : accounts c -> accounts (processAnalysisQueue c).
Proof.
  intros [A1 A2 A3]. destruct (drain_fields c) as (_ & Fl & _).
  assert (Fc : completedGrids (processAnalysisQueue c) = completedGrids c).
  { unfold processAnalysisQueue. destruct (processingRef c); [reflexivity|].
    now destruct (find _ _). }
  assert (Hs : forall s, s = complete \/ s = failed ->
             count_status s (heap (processAnalysisQueue c)) = count_status s (heap c)).
  { intros s Hs. destruct (drain_heap c) as [->|(job & P & ->)]; [reflexivity|].
    apply has_status_nth in P as (j & E & S0).
    pose proof (count_status_update s (set_status analyzing) job (heap c) j E) as K.
    simpl in K. rewrite S0 in K. destruct Hs as [->| ->]; simpl in K; lia. }
  constructor; rewrite ?Fl, ?Fc, ?Hs; auto.
Qed.

Lemma enqueue_accounts fs st et c :
  accounts c -> accounts (fst (queueGridForAnalysis fs st et c)).
Proof.
  intros [A1 A2 A3]. rewrite queueGridForAnalysis_unfold.
  destruct (MAX_PENDING_JOBS <=? pendingCount c); cbn [fst].
  - constructor; fields; rewrite ?analyzed_count_app, ?failed_count_app; lia.
  - apply drain_accounts. unfold pushed. constructor; fields;
      rewrite ?analyzed_count_app, ?failed_count_app, ?count_status_push; simpl; lia.
Qed.

Lemma resume_accounts job outcome c :
  accounts c -> has_status (heap c) analyzing job = true ->
  accounts (processAnalysisQueue_resume job outcome c).
Proof.
  intros [A1 A2 A3] An. unfold processAnalysisQueue_resume. apply drain_accounts.
  apply has_status_nth in An as (j & E & S0).
  unfold prune. destruct outcome as [m|r]; unfold retire; fields.
  - pose proof (count_status_update complete (set_status failed) job (heap c) j E) as K1.
    pose proof (count_status_update failed (set_status failed) job (heap c) j E) as K2.
    assert (E1 : nth_error (update_job job (set_status failed) (heap c)) job
                 = Some (set_status failed j))
      by (now rewrite nth_error_update_job, Nat.eqb_refl, E).
    pose proof (count_status_update complete (set_error m) job _ _ E1) as K3.
    pose proof (count_status_update failed (set_error m) job _ _ E1) as K4.
    simpl in K1, K2, K3, K4. rewrite S0 in K1, K2. simpl in K1, K2.
    constructor; fields; rewrite ?analyzed_count_app, ?failed_count_app; lia.
  - pose proof (count_status_update complete (set_status complete) job (heap c) j E) as K1.
    pose proof (count_status_update failed (set_status complete) job (heap c) j E) as K2.
    assert (E1 : nth_error (update_job job (set_status complete) (heap c)) job
                 = Some (set_status complete j))
      by (now rewrite nth_error_update_job, Nat.eqb_refl, E).
    pose proof (count_status_update complete (set_result r) job _ _ E1) as K3.
    pose proof (count_status_update failed (set_result r) job _ _ E1) as K4.
    simpl in K1, K2, K3, K4. rewrite S0 in K1, K2. simpl in K1, K2.
    constructor; fields; rewrite ?analyzed_count_app, ?failed_count_app; lia.
Qed.

Lemma reachable_accounts w : reachable w -> accounts (client w).
Proof.
  induction 1 as [|a w w' R IH Hs]; [constructor; reflexivity|].
  destruct (reachable_shape w R) as [Sh T].
  destruct a as [fs st et| |job env]; simpl in Hs.
  - injection Hs as <-. cbn [client]. now apply enqueue_accounts.
  - injection Hs as <-. cbn [client]. now apply drain_accounts.
  - destruct (existsb _ _) eqn:Ex; [|discriminate]. injection Hs as <-.
    apply existsb_exists in Ex as (x & Hin & Ex). apply Nat.eqb_eq in Ex. subst x.
    destruct (settled_worker _ _ T Hin) as (_ & _ & rest & _ & An & _).
    unfold worker_resume. destruct (analysis_outcome env job w) as [outcome logs].
    cbn [client]. now apply resume_accounts.
Qed.

(** X22: the books of the queue balance.  In every reachable state the
    counter of completed grids is the number of analyses logged as done
    and the number of jobs with status complete; the number of analyses
    logged as failed is the number of jobs with status failed; and every
    job ever created is complete, failed, or still pending or analyzing in
    the array. *)
Theorem queue_accounting (w : World) :
  reachable w ->
  completedGrids (client w) = count_status complete (heap (client w)) /\
  completedGrids (client w) = analyzed_count (addLog_calls (client w)) /\
  failed_count (addLog_calls (client w)) = count_status failed (heap (client w)) /\
  count_status complete (heap (client w)) + count_status failed (heap (client w))
  + pendingCount (client w) = List.length (heap (client w)).
Proof.
  intros R. destruct (reachable_accounts w R) as [A1 A2 A3].
  destruct (reachable_shape w R) as [Sh _].
  destruct (reachable_heap_inv w R) as [Hc _ _ _].
  repeat split; try congruence.
  destruct (shape_retired Sh) as (k & K & Rk & Ids).
  apply (f_equal (@List.length _)) in Rk, Ids.
  rewrite retired_ids_length, length_seq in Rk. rewrite length_map, length_seq in Ids.
  rewrite pendingCount_active, <- A2, <- A3, Hc. lia.
Qed.


Lemma sample_world_reachable : reachable (world_after sample_actions).
Proof.
  apply (run_reachable sample_actions initial_world); [constructor|].
  vm_compute. reflexivity.
Defined.

Lemma queue_job_records_witness :
  reachable (world_after sample_actions) /\
  List.length (heap (client (world_after sample_actions)))
  = jobIdCounterRef (client (world_after sample_actions)).
Proof.
  split; [exact sample_world_reachable|].
  exact (proj1 (queue_job_records (world_after sample_actions) sample_world_reachable)).
Defined.

Lemma queue_array_bounded_witness :
  reachable (world_after sample_actions) /\
  NoDup (analysisQueueRef (client (world_after sample_actions))).
Proof.
  split; [exact sample_world_reachable|].
  exact (proj1 (queue_array_bounded (world_after sample_actions) sample_world_reachable)).
Defined.

Lemma queue_work_conserving_witness :
  reachable (world_after sample_actions) /\
  step Drain (world_after sample_actions) = Some (world_after sample_actions).
Proof.
  split; [exact sample_world_reachable|].
  exact (proj2 (queue_work_conserving (world_after sample_actions) sample_world_reachable)).
Defined.

Lemma queue_job_life_cycle_witness :
  reachable (world_after sample_actions) /\
  step (Resume 1 (canvas_with server_rejecting)) (world_after sample_actions)
  = Some (world_after (sample_actions ++ [Resume 1 (canvas_with server_rejecting)])) /\
  heap_evolves
    (heap (client (world_after sample_actions)))
    (heap (client (world_after (sample_actions ++ [Resume 1 (canvas_with server_rejecting)])))).
Proof.
  assert (Hs : step (Resume 1 (canvas_with server_rejecting)) (world_after sample_actions)
               = Some (world_after
                         (sample_actions ++ [Resume 1 (canvas_with server_rejecting)])))
    by (vm_compute; reflexivity).
  split; [exact sample_world_reachable|]. split; [exact Hs|].
  exact (queue_job_life_cycle _ _ _ sample_world_reachable Hs).
Defined.

Lemma queue_accounting_witness :
  reachable (world_after sample_actions) /\
  completedGrids (client (world_after sample_actions))
  = count_status complete (heap (client (world_after sample_actions))).
Proof.
  split; [exact sample_world_reachable|].
  exact (proj1 (queue_accounting (world_after sample_actions) sample_world_reachable)).
Defined.

End QueueInvariants.


(** ** Further properties: the continuous session *)

Section SessionProperties.

Import Analyzer Queue Continuous DriverMore Samples.
Open Scope nat_scope.

Lemma frames_transfer (P : list CapturedFrame -> Prop) h h' :
  (forall x, option_map frames (nth_error h' x) = option_map frames (nth_error h x)) ->
  Forall (fun j => P (frames j)) h -> Forall (fun j => P (frames j)) h'.
Proof.
  intros E H. rewrite Forall_forall in *. intros j Hj.
  apply In_nth_error in Hj as (x & Hx). specialize (E x). rewrite Hx in E. simpl in E.
  destruct (nth_error h x) as [j0|] eqn:E0; [|discriminate].
  injection E as ->. apply H. eapply nth_error_In; eauto.
Qed.

Lemma retire_frames job outcome c x :
  option_map frames (nth_error (heap (retire job outcome c)) x)
  = option_map frames (nth_error (heap c) x).
Proof.
  destruct outcome; unfold retire; fields; rewrite !nth_error_update_job;
    destruct (x =? job); auto; destruct (nth_error (heap c) x); reflexivity.
Qed.

Lemma resume_frames job outcome c x :
  option_map frames (nth_error (heap (processAnalysisQueue_resume job outcome c)) x)
  = option_map frames (nth_error (heap c) x).
Proof.
  unfold processAnalysisQueue_resume. rewrite drain_frames. unfold prune. fields.
  now rewrite retire_frames.
Qed.

Lemma enqueue_full_batches fs st et c :
  List.length fs = MAX_FRAMES ->
  Forall (fun j => List.length (frames j) = MAX_FRAMES) (heap c) ->
  Forall (fun j => List.length (frames j) = MAX_FRAMES)
         (heap (fst (queueGridForAnalysis fs st et c))).
Proof.
  intros L H. rewrite queueGridForAnalysis_unfold.
  destruct (MAX_PENDING_JOBS <=? pendingCount c); cbn [fst]; [exact H|].
  apply (frames_transfer (fun f => List.length f = MAX_FRAMES) (heap (pushed fs st et c)));
    [apply drain_frames|].
  unfold pushed. fields. apply Forall_app. split; [exact H|]. constructor; [exact L|constructor].
Qed.

Lemma inner_body_session env g s :
  session_inv s -> pc (driver s) <> Idle -> session_inv (fst (inner_body env g s)).
Proof.
  intros [G F] N. unfold inner_body.
  destruct (_ && _); [|destruct (captured env) as [m|[dataUrl|]]]; cbn [fst];
    (split; simpl; [|exact F]); first [intros _; now apply G | intros K; now elim K].
Qed.

Lemma end_session_inv s : session_inv s -> session_inv (end_session s).
Proof.
  intros [G F]. split; simpl; auto; try (intros N; now elim N).
Qed.

Lemma session_dies_inv s : session_inv s -> session_inv (session_dies s).
Proof.
  intros [G F]. split; simpl; auto; try (intros N; now elim N).
Qed.

Lemma outer_top_session env g s :
  session_inv s -> pc (driver s) <> Idle -> session_inv (fst (outer_top env g s)).
Proof.
  intros I N. unfold outer_top. destruct (stopRequestedRef (driver s)).
  - now apply end_session_inv.
  - now apply inner_body_session.
Qed.

Lemma after_reset_session env g s :
  session_inv s -> pc (driver s) <> Idle -> session_inv (fst (after_reset env g s)).
Proof.
  intros I N. unfold after_reset. destruct (reset env).
  - now apply session_dies_inv.
  - now apply outer_top_session.
Qed.

Lemma driver_resume_session env s :
  session_inv s -> pc (driver s) <> Idle -> session_inv (fst (driver_resume env s)).
Proof.
  intros I N. unfold driver_resume. destruct (pc (driver s)) as [| |g|g dataUrl|g] eqn:Epc.
  - contradiction.
  - apply after_reset_session; auto. congruence.
  - unfold inner_top. destruct (_ && _).
    + apply inner_body_session; auto. congruence.
    + unfold after_inner. destruct (_ && _); [now apply end_session_inv|].
      destruct (List.length (collectedFrames g) =? MAX_FRAMES) eqn:L.
      * apply Nat.eqb_eq in L. destruct I as [G F]. split; cbn [fst]; simpl.
        -- intros _. apply G. congruence.
        -- now apply enqueue_full_batches.
      * apply outer_top_session; auto. congruence.
  - destruct I as [G F]. split; simpl; auto. intros _. apply G. congruence.
  - apply after_reset_session; auto. congruence.
Qed.

Lemma reachable_session_inv s : Continuous.reachable s -> session_inv s.
Proof.
  induction 1 as [|a s s' R IH Hs].
  - split; simpl; [|constructor]. intros N. now elim N.
  - destruct a as [| |env|job env]; simpl in Hs.
    + injection Hs as <-. unfold start. destruct (sessionActiveRef (driver s)) eqn:A; [exact IH|].
      destruct IH as [G F]. split; simpl; auto.
    + injection Hs as <-. exact IH.
    + destruct (pc (driver s)) eqn:Epc; try discriminate; injection Hs as <-;
        apply driver_resume_session; auto; congruence.
    + destruct (existsb _ _); [|discriminate]. injection Hs as <-.
      destruct IH as [G F]. split; [exact G|]. cbn [world client].
      unfold worker_resume. destruct (analysis_outcome env job (world s)) as [outcome logs].
      cbn [client].
      apply (frames_transfer (fun f => List.length f = MAX_FRAMES)
               (heap (client (world s)))); [apply resume_frames|exact F].
Qed.

(** X23: one capture session at a time.  In every reachable state of the
    continuous session an activation of the driver is suspended only while
    the guard flag is set, a start requested while the flag is set changes
    nothing, and every job ever created holds exactly 12 frames.  The flag
    can outlive the activation (a reset request that rejects, or a frame
    grab that throws, ends the activation without clearing it): from such a
    state every step leads to such a state, so no session starts again. *)
Theorem session_guard (s : System) :
  Continuous.reachable s ->
  (pc (driver s) <> Idle -> sessionActiveRef (driver s) = true) /\
  (sessionActiveRef (driver s) = true -> Continuous.step Start s = Some s) /\
  (session_stuck s ->
   forall a s', Continuous.step a s = Some s' -> session_stuck s') /\
  Forall (fun j => List.length (frames j) = MAX_FRAMES) (heap (client (world s))).
Proof.
  intros R. destruct (reachable_session_inv s R) as [G F].
  split; [exact G|]. split; [|split; [|exact F]].
  - intros A. simpl. unfold start. now rewrite A.
  - intros [A P] a s' Hs. destruct a as [| |env|job env]; simpl in Hs.
    + injection Hs as <-. unfold start. rewrite A. now split.
    + injection Hs as <-. now split.
    + rewrite P in Hs. discriminate.
    + destruct (existsb _ _); [|discriminate]. injection Hs as <-. now split.
Qed.

Lemma stopped_outer_top env g s :
  stopRequestedRef (driver s) = true -> outer_top env g s = (end_session s, None).
Proof. intros St. unfold outer_top. now rewrite St. Qed.

(** X24: a requested stop ends the activation of the session.  With the
    stop flag set, a driver suspended anywhere is gone after at most three
    resumptions, whatever the environment does; the guard flag is then
    cleared provided no reset request awaited on the way has rejected;
    frames collected for a batch that is not full are dropped without
    being queued, and the queue is entered at most once more, with a full
    batch. *)
Theorem stop_ends_session (env1 env2 env3 : DriverEnv) (s : System) :
  stopRequestedRef (driver s) = true -> pc (driver s) <> Idle ->
  let s1 := fst (driver_resume env1 s) in
  let s2 := fst (driver_resume env2 s1) in
  let s3 := fst (driver_resume env3 s2) in
  pc (driver s3) = Idle /\
  (reset env1 = None -> reset env2 = None -> reset env3 = None ->
   sessionActiveRef (driver s3) = false) /\
  (forall g, pc (driver s) = InnerTop g -> List.length (collectedFrames g) <> MAX_FRAMES ->
     s1 = end_session s) /\
  (world s3 = world s \/
   exists fs st et, List.length fs = MAX_FRAMES /\
     world s3 = mkWorld (fst (queueGridForAnalysis fs st et (client (world s))))
                        (carbonLogs (world s))).
Proof.
  intros St N.
  assert (Idle_stays : forall env t, pc (driver t) = Idle ->
            fst (driver_resume env t) = t)
    by (intros env t E; unfold driver_resume; now rewrite E).
  assert (Inner : forall env g t,
            stopRequestedRef (driver t) = true -> pc (driver t) = InnerTop g ->
            (List.length (collectedFrames g) <> MAX_FRAMES /\
             fst (driver_resume env t) = end_session t) \/
            (List.length (collectedFrames g) = MAX_FRAMES /\
             fst (driver_resume env t)
             = with_pc (AwaitGridReset g)
                 (with_client
                    (fst (queueGridForAnalysis (collectedFrames g) (gridStartTime g)
                            (now env) (client (world t)))) t))).
  { intros env g t St' E. unfold driver_resume. rewrite E. unfold inner_top.
    rewrite St'. cbn [negb andb]. unfold after_inner. rewrite St'. cbn [andb].
    destruct (List.length (collectedFrames g) <? MAX_FRAMES) eqn:L.
    - left. apply Nat.ltb_lt in L. split; [lia|reflexivity].
    - destruct (List.length (collectedFrames g) =? MAX_FRAMES) eqn:L'.
      + right. apply Nat.eqb_eq in L'. split; [exact L'|reflexivity].
      + left. apply Nat.eqb_neq in L'. split; [exact L'|].
        now rewrite stopped_outer_top. }
  assert (Reset : forall env g t,
            stopRequestedRef (driver t) = true ->
            after_reset env g t
            = match reset env with Some _ => (session_dies t, None) | None => (end_session t, None) end).
  { intros env g t St'. unfold after_reset. destruct (reset env); [reflexivity|].
    now apply stopped_outer_top. }
  cbv zeta.
  destruct (pc (driver s)) as [| |g|g dataUrl|g] eqn:Epc.
  - contradiction.
  - assert (E1 : fst (driver_resume env1 s)
                 = match reset env1 with Some _ => session_dies s | None => end_session s end).
    { unfold driver_resume. rewrite Epc, Reset by exact St. now destruct (reset env1). }
    rewrite E1. destruct (reset env1); rewrite !Idle_stays by reflexivity;
      repeat split; auto; try discriminate.
  - destruct (Inner env1 g s St Epc) as [[L E1]|[L E1]]; rewrite E1.
    + rewrite !Idle_stays by reflexivity. repeat split; auto.
    + match goal with |- context [driver_resume env2 ?t] =>
        assert (E2 : fst (driver_resume env2 t)
                     = match reset env2 with Some _ => session_dies t | None => end_session t end)
          by (unfold driver_resume; cbn [pc driver with_pc with_client];
              rewrite Reset by exact St; now destruct (reset env2)) end.
      rewrite E2. destruct (reset env2); rewrite Idle_stays by reflexivity;
        (repeat split; auto; try discriminate;
         [intros g' [= <-] L'; contradiction
         |right; exists (collectedFrames g), (gridStartTime g), (now env1); auto]).
  - assert (E1 : fst (driver_resume env1 s)
                 = with_pc (InnerTop (after_check env1 g dataUrl)) s)
      by (unfold driver_resume; now rewrite Epc).
    rewrite E1. set (g1 := after_check env1 g dataUrl).
    destruct (Inner env2 g1 (with_pc (InnerTop g1) s) St eq_refl) as [[L E2]|[L E2]];
      rewrite E2.
    + rewrite !Idle_stays by reflexivity. repeat split; auto; try discriminate.
    + match goal with |- context [driver_resume env3 ?t] =>
        assert (E3 : fst (driver_resume env3 t)
                     = match reset env3 with Some _ => session_dies t | None => end_session t end)
          by (unfold driver_resume; cbn [pc driver with_pc with_client];
              rewrite Reset by exact St; now destruct (reset env3)) end.
      rewrite E3. destruct (reset env3);
        (repeat split; auto; try discriminate;
         right; exists (collectedFrames g1), (gridStartTime g1), (now env2); auto).
  - assert (E1 : fst (driver_resume env1 s)
                 = match reset env1 with Some _ => session_dies s | None => end_session s end).
    { unfold driver_resume. rewrite Epc, Reset by exact St. now destruct (reset env1). }
    rewrite E1. destruct (reset env1); rewrite !Idle_stays by reflexivity;
      repeat split; auto; try discriminate.
Qed.

Lemma sample_session_reachable :
  Continuous.reachable (run_session sample_session initial_system).
Proof. apply run_session_reachable. constructor. Defined.

Lemma session_guard_witness :
  Continuous.reachable (run_session [Start; DriverResumes reset_rejected] initial_system) /\
  session_stuck (run_session [Start; DriverResumes reset_rejected] initial_system) /\
  Continuous.step Start (run_session [Start; DriverResumes reset_rejected] initial_system)
  = Some (run_session [Start; DriverResumes reset_rejected] initial_system).
Proof.
  assert (R : Continuous.reachable
                (run_session [Start; DriverResumes reset_rejected] initial_system))
    by (apply run_session_reachable; constructor).
  assert (K : session_stuck (run_session [Start; DriverResumes reset_rejected] initial_system))
    by (split; reflexivity).
  split; [exact R|]. split; [exact K|].
  exact (proj1 (proj2 (session_guard _ R)) (proj1 K)).
Defined.

Lemma stop_ends_session_witness :
  stopRequestedRef (driver (stop (run_session sample_session initial_system))) = true /\
  pc (driver (stop (run_session sample_session initial_system))) <> Idle /\
  pc (driver
        (fst (driver_resume accepting
           (fst (driver_resume accepting
              (fst (driver_resume accepting
                 (stop (run_session sample_session initial_system))))))))) = Idle.
Proof.
  assert (St : stopRequestedRef (driver (stop (run_session sample_session initial_system)))
               = true) by reflexivity.
  assert (N : pc (driver (stop (run_session sample_session initial_system))) <> Idle)
    by (vm_compute; discriminate).
  split; [exact St|]. split; [exact N|].
  pose proof (stop_ends_session accepting accepting accepting
                (stop (run_session sample_session initial_system)) St N) as K.
  cbv zeta in K. exact (proj1 K).
Defined.

End SessionProperties.


(** ** Further properties: the log and the grid canvas *)

Section UiProperties.

Import JS Queue GridLayout UiLog.
Open Scope nat_scope.

Lemma log_after_snoc calls e :
  log_after (calls ++ [e]) = firstn 100 (e :: log_after calls).
Proof.
  unfold log_after. rewrite fold_left_app. cbn [fold_left]. unfold addLog.
  now destruct e.
Qed.

(** X25: the log shown to the user holds the 100 most recent entries,
    newest first: after any calls of [addLog] it is the first 100 entries
    of the calls taken in reverse, so an entry is dropped exactly when 100
    later calls have been made. *)
Theorem ui_log_keeps_latest (calls : list Entry) :
  log_after calls = firstn 100 (rev calls) /\
  List.length (log_after calls) = Nat.min 100 (List.length calls) /\
  forall i, nth_error (log_after calls) i
            = if i <? 100 then nth_error (rev calls) i else None.
Proof.
  assert (E : log_after calls = firstn 100 (rev calls)).
  { induction calls as [|e calls IH] using rev_ind; [reflexivity|].
    rewrite log_after_snoc, rev_app_distr, IH. cbn [rev app].
    change 100 with (S 99) at 1 3. rewrite !firstn_cons. f_equal.
    rewrite firstn_firstn. reflexivity. }
  split; [exact E|]. split.
  - rewrite E, length_firstn, length_rev. reflexivity.
  - intros i. rewrite E. apply nth_error_firstn.
Qed.

Lemma cells_from_nth cellW cellH framesToDraw : forall start i,
  nth_error (cells_from cellW cellH start framesToDraw) i
  = option_map (cell cellW cellH (start + i)) (nth_error framesToDraw i).
Proof.
  induction framesToDraw as [|f rest IH]; intros start [|i]; simpl; auto.
  - now rewrite Nat.add_0_r.
  - rewrite IH. do 2 f_equal. lia.
Qed.

Lemma cells_from_length cellW cellH framesToDraw : forall start,
  List.length (cells_from cellW cellH start framesToDraw) = List.length framesToDraw.
Proof. induction framesToDraw as [|f rest IH]; intros start; simpl; auto. Qed.

(** X26: the grid drawn for a batch.  One cell is drawn per frame, the
    i-th labelled with i+1 and the time of its frame; the cells of the
    first 12 frames lie on the canvas of 4 by 3 cells, a later frame is
    drawn below the canvas, and no two cells overlap. *)
Theorem grid_cells_tile (cellW cellH : nat) (framesToDraw : list CapturedFrame) :
  List.length (cells cellW cellH framesToDraw) = List.length framesToDraw /\
  forall i a, nth_error (cells cellW cellH framesToDraw) i = Some a ->
    (exists frame, nth_error framesToDraw i = Some frame /\
       label a = (show_nat (i + 1) ++ " " ++ timestamp frame)%string) /\
    width a = cellW /\ height a = cellH /\
    (i < 12 -> on_canvas cellW cellH a) /\
    (12 <= i -> canvas_height cellH <= y a) /\
    forall k b, nth_error (cells cellW cellH framesToDraw) k = Some b ->
      i <> k -> disjoint a b.
Proof.
  split; [apply cells_from_length|].
  intros i a Ea. unfold cells in *. rewrite cells_from_nth in Ea. cbn [Nat.add] in Ea.
  destruct (nth_error framesToDraw i) as [frame|] eqn:Ef; [|discriminate].
  injection Ea as <-. split; [exists frame; split; reflexivity|].
  split; [reflexivity|]. split; [reflexivity|].
  unfold on_canvas, canvas_width, canvas_height, cols, rows. cbn [x y width height cell].
  unfold cols.
  assert (M : i mod 4 < 4) by (apply Nat.mod_upper_bound; lia).
  split; [|split].
  - intros L. assert (D : i / 4 < 3) by (apply Nat.Div0.div_lt_upper_bound; lia).
    split; nia.
  - intros L. assert (D : 3 <= i / 4) by (apply Nat.div_le_lower_bound; lia). nia.
  - intros k b Eb N. rewrite cells_from_nth in Eb. cbn [Nat.add] in Eb.
    destruct (nth_error framesToDraw k) as [frame'|]; [|discriminate].
    injection Eb as <-. unfold disjoint. cbn [x y width height cell]. unfold cols.
    assert (M' : k mod 4 < 4) by (apply Nat.mod_upper_bound; lia).
    pose proof (Nat.div_mod_eq i 4) as Di. pose proof (Nat.div_mod_eq k 4) as Dk.
    destruct (Nat.lt_trichotomy (i mod 4) (k mod 4)) as [Lt|[Eq|Gt]].
    + left. nia.
    + destruct (Nat.lt_trichotomy (i / 4) (k / 4)) as [Lt|[Eq'|Gt]].
      * right. right. left. nia.
      * exfalso. apply N. lia.
      * right. right. right. nia.
    + right. left. nia.
Qed.

End UiProperties.


(** ** Further properties: the bounded capture loop *)

Section BoundedCollection.

Import JS Queue Bounded BoundedMore Samples.
Open Scope nat_scope.

Lemma captureLoop_collects_from ticks : forall accepted collected n frames,
  captureLoop ticks accepted collected = Some (n, frames) ->
  exists used t rest,
    ticks = used ++ t :: rest /\
    Forall (fun u => loop_exits u = false) used /\
    frames = collected ++ flat_map accepted_frame used /\
    n = accepted + List.length (flat_map accepted_frame used) /\
    (loop_exits t = true \/ MAX_FRAMES <= n).
Proof.
  induction ticks as [|t ticks IH]; simpl; intros accepted collected n frames H;
    [discriminate|].
  destruct (stopRequested t) eqn:St; cbn [negb andb] in H.
  { injection H as <- <-. exists [], t, ticks. simpl. rewrite app_nil_r, Nat.add_0_r.
    repeat split; auto. left. unfold loop_exits. now rewrite St. }
  destruct (accepted <? MAX_FRAMES) eqn:Lt; cbn [negb] in H.
  2:{ injection H as <- <-. exists [], t, ticks. simpl. rewrite app_nil_r, Nat.add_0_r.
      repeat split; auto. right. now apply Nat.ltb_ge in Lt. }
  destruct (TIMEOUT_SECONDS <=? num_int (elapsed_ms t) / 1000)%float eqn:T.
  { injection H as <- <-. exists [], t, ticks. simpl. rewrite app_nil_r, Nat.add_0_r.
    repeat split; auto. left. unfold loop_exits. rewrite T. apply orb_true_r. }
  assert (NE : loop_exits t = false) by (unfold loop_exits; now rewrite St, T).
  assert (K : captureLoop ticks (accepted + List.length (accepted_frame t))
                (collected ++ accepted_frame t) = Some (n, frames)).
  { unfold accepted_frame. destruct (captured t) as [dataUrl|].
    - destruct (check t) as [[[|] msg]|]; simpl; rewrite ?app_nil_r, ?Nat.add_0_r; exact H.
    - simpl. rewrite app_nil_r, Nat.add_0_r. exact H. }
  destruct (IH _ _ _ _ K) as (used & t' & rest & -> & F & -> & -> & E).
  exists (t :: used), t', rest. simpl. rewrite length_app, <- app_assoc.
  repeat split; auto. lia.
Qed.

(** X27: what the bounded capture loop collects.  When the loop ends, it
    has gone through some evaluations without stop or timeout and ended at
    the next one, either by a stop or the timeout or with 12 frames; the
    frames collected are exactly the frames grabbed and accepted in those
    evaluations, in order and stamped with the clock of their evaluation;
    frames rejected, or whose check failed, are not among them. *)
Theorem captureLoop_collects (ticks : list Tick) (n : nat) (frames : list CapturedFrame) :
  captureLoop ticks 0 [] = Some (n, frames) ->
  exists used t rest,
    ticks = used ++ t :: rest /\
    Forall (fun u => loop_exits u = false) used /\
    frames = flat_map accepted_frame used /\
    n = List.length frames /\
    (loop_exits t = true \/ n = MAX_FRAMES).
Proof.
  intros H. destruct (captureLoop_collects_from _ _ _ _ _ H)
    as (used & t & rest & E & F & Fr & N & X).
  simpl in Fr, N. exists used, t, rest. repeat split; auto; [congruence|].
  destruct X as [X|X]; [now left|]. right.
  destruct (captureLoop_invariant ticks 0 [] n frames H eq_refl) as (_ & B & _);
    [unfold MAX_FRAMES; lia|]. lia.
Qed.

Lemma captureLoop_collects_witness :
  captureLoop timeout_after_one_frame 0 [] = Some (1, [mkFrame sample_url "10:00:01"]) /\
  exists used t rest,
    timeout_after_one_frame = used ++ t :: rest /\
    Forall (fun u => loop_exits u = false) used /\
    [mkFrame sample_url "10:00:01"] = flat_map accepted_frame used /\
    1 = List.length [mkFrame sample_url "10:00:01"] /\
    (loop_exits t = true \/ 1 = MAX_FRAMES).
Proof.
  assert (H : captureLoop timeout_after_one_frame 0 []
              = Some (1, [mkFrame sample_url "10:00:01"])) by (vm_compute; reflexivity).
  split; [exact H|].
  exact (captureLoop_collects timeout_after_one_frame 1 [mkFrame sample_url "10:00:01"] H).
Defined.

End BoundedCollection.

